(** * Text location in Google Docs documents: a model of
    [src/googleDocsApiHelpers.ts] and the properties of its search pipeline.

    JavaScript strings are sequences of UTF-16 code units, and the regular
    expressions of the source carry no [u] flag, so every string operation
    below works code unit by code unit.  Native document indices are JS
    numbers holding integers and are modelled in [Z]; positions inside a JS
    string or array that the code only ever counts upwards from 0 are [nat].
    [String.prototype.indexOf] returns -1 when nothing is found: here
    [None].

    The two [while (true)] loops of the matcher are given fuel, calls to
    the Docs service thread a state of the remote world, and a function
    that can throw returns an [Outcome].  Line numbers are those of the
    source file. *)

From Stdlib Require Import List ZArith NArith Lia Bool Arith.
From Stdlib Require Import Sorting.Sorted Sorting.Permutation.
From Stdlib Require Import Strings.Ascii.
From Stdlib Require Strings.String.
Import ListNotations.
Import String.StringSyntax.
Delimit Scope string_scope with string.

Set Implicit Arguments.

(** ** JavaScript strings *)

Module JS.

Definition codeUnit := N.
Definition jsstring := list codeUnit.

Definition cu_eqb (a b : codeUnit) : bool := N.eqb a b.

(** The JavaScript string of an ASCII literal of the source. *)
Definition lit (s : String.string) : jsstring :=
  map N_of_ascii (String.list_ascii_of_string s).

Fixpoint string_eqb (a b : jsstring) : bool :=
  match a, b with
  | [], [] => true
  | x :: a', y :: b' => cu_eqb x y && string_eqb a' b'
  | _, _ => false
  end.

(** [s.startsWith(pat)], the test [indexOf] performs at each position. *)
Fixpoint startsWith (pat s : jsstring) : bool :=
  match pat, s with
  | [], _ => true
  | p :: pat', c :: s' => cu_eqb p c && startsWith pat' s'
  | _ :: _, [] => false
  end.

(** First offset at which [pat] occurs in [s]; the empty pattern occurs at
    offset 0 of every string, the empty one included. *)
Fixpoint firstOccurrence (pat s : jsstring) : option nat :=
  if startsWith pat s then Some 0
  else match s with
       | [] => None
       | _ :: s' => option_map S (firstOccurrence pat s')
       end.

(** [s.indexOf(pat, position)]: the start is clamped to the length of [s]. *)
Definition indexOf (s pat : jsstring) (position : nat) : option nat :=
  let start := Nat.min position (length s) in
  option_map (Nat.add start) (firstOccurrence pat (skipn start s)).

(** [s.substring(a, b)]: both arguments are clamped to [0, length] and
    swapped when out of order. *)
Definition substring (s : jsstring) (a b : Z) : jsstring :=
  let len := Z.of_nat (length s) in
  let a' := Z.min (Z.max a 0) len in
  let b' := Z.min (Z.max b 0) len in
  let from := Z.min a' b' in
  let to := Z.max a' b' in
  firstn (Z.to_nat (to - from)) (skipn (Z.to_nat from) s).

(** [arr[i]] for a number [i]: [undefined] outside the array. *)
Definition arrayGet {A} (arr : list A) (i : Z) : option A :=
  if (i <? 0)%Z then None else nth_error arr (Z.to_nat i).

(** The class [\s] of a regular expression, which is also the set
    [String.prototype.trim] strips: WhiteSpace and LineTerminator. *)
Definition isWhiteSpace (c : codeUnit) : bool :=
  ((9 <=? c) && (c <=? 13) || (c =? 32) || (c =? 0xA0) || (c =? 0x1680)
   || (0x2000 <=? c) && (c <=? 0x200A)
   || (c =? 0x2028) || (c =? 0x2029) || (c =? 0x202F) || (c =? 0x205F)
   || (c =? 0x3000) || (c =? 0xFEFF))%N.

(** LineTerminator, the characters [.] refuses. *)
Definition isLineTerminator (c : codeUnit) : bool :=
  ((c =? 10) || (c =? 13) || (c =? 0x2028) || (c =? 0x2029))%N.

(** The class [\w] (without the [u] flag the [i] flag adds nothing to it). *)
Definition isWordChar (c : codeUnit) : bool :=
  ((48 <=? c) && (c <=? 57) || (65 <=? c) && (c <=? 90) || (c =? 95)
   || (97 <=? c) && (c <=? 122))%N.

(** [s.replace(/[class]/g, r)] for a one-character replacement. *)
Definition replaceClass (class : codeUnit -> bool) (r : codeUnit)
  (s : jsstring) : jsstring :=
  map (fun c => if class c then r else c) s.

(** [s.replace(/[class]+/g, r)]: every maximal run of the class becomes one
    [r].  [inRun] tells that the previous character belonged to the run
    being replaced. *)
Fixpoint replaceRuns (class : codeUnit -> bool) (r : codeUnit)
  (inRun : bool) (s : jsstring) : jsstring :=
  match s with
  | [] => []
  | c :: s' =>
      if class c
      then (if inRun then replaceRuns class r true s'
            else r :: replaceRuns class r true s')
      else c :: replaceRuns class r false s'
  end.

(** [s.replace(/pat/g, r)] for a pattern that is a literal, non-empty
    sequence of characters: matches are taken left to right and do not
    overlap.  [skip] counts the characters of the current match still to be
    consumed. *)
Fixpoint replaceLiteral (pat r : jsstring) (skip : nat) (s : jsstring)
  : jsstring :=
  match s with
  | [] => []
  | c :: s' =>
      match skip with
      | S k => replaceLiteral pat r k s'
      | O => if startsWith pat s
             then r ++ replaceLiteral pat r (length pat - 1) s'
             else c :: replaceLiteral pat r 0 s'
      end
  end.

Fixpoint trimStart (s : jsstring) : jsstring :=
  match s with
  | [] => []
  | c :: s' => if isWhiteSpace c then trimStart s' else s
  end.

Fixpoint trimEnd (s : jsstring) : jsstring :=
  match s with
  | [] => []
  | c :: s' =>
      match trimEnd s' with
      | [] => if isWhiteSpace c then [] else [c]
      | t => c :: t
      end
  end.

Definition trim (s : jsstring) : jsstring := trimEnd (trimStart s).

End JS.

Import JS.

(** ** The normalizer (lines 126-135) *)

Definition apostrophe : codeUnit := 0x27%N.
Definition doubleQuote : codeUnit := 0x22%N.
Definition hyphen : codeUnit := 0x2D%N.
Definition space : codeUnit := 0x20%N.

(** The class of line 128: U+0027, U+2019, U+2018, U+201B, U+0060, U+00B4. *)
Definition isApostrophe (c : codeUnit) : bool :=
  ((c =? 0x27) || (c =? 0x2019) || (c =? 0x2018) || (c =? 0x201B)
   || (c =? 0x60) || (c =? 0xB4))%N.

(** The class of line 129: U+201C, U+201D, U+201E, U+201F, U+2033, U+2036. *)
Definition isDoubleQuote (c : codeUnit) : bool :=
  ((c =? 0x201C) || (c =? 0x201D) || (c =? 0x201E) || (c =? 0x201F)
   || (c =? 0x2033) || (c =? 0x2036))%N.

(** The class of line 130: U+2013, U+2014, U+2015. *)
Definition isDash (c : codeUnit) : bool :=
  ((c =? 0x2013) || (c =? 0x2014) || (c =? 0x2015))%N.

(** The third variant of [searchVariants] (line 141). *)
Definition standardizeApostrophes (text : jsstring) : jsstring :=
  replaceClass isApostrophe apostrophe text.

(** The six replacements and the final [trim], in the order of the source.
    The last pattern, /\u2000-\u200A/g, is written without brackets in the
    source: it is the three-character literal U+2000, hyphen, U+200A. *)
Definition normalizeText (text : jsstring) : jsstring :=
  trim
    (replaceLiteral [0x2000%N; hyphen; 0x200A%N] [space] 0
       (replaceLiteral [0xA0%N] [space] 0
          (replaceRuns isWhiteSpace space false
             (replaceClass isDash hyphen
                (replaceClass isDoubleQuote doubleQuote
                   (replaceClass isApostrophe apostrophe text)))))).

(** ** The document tree returned by [docs.documents.get]

    Every field of the API objects is optional; [None] is JavaScript's
    [undefined].  A structural element carries at most one of [paragraph],
    [table], [sectionBreak] and [tableOfContents]; the code only ever tests
    the first two. *)

Record TextRun := { content : option jsstring }.

Record ParagraphElement := {
  pe_startIndex : option Z;
  pe_endIndex : option Z;
  textRun : option TextRun
}.

Record Paragraph := { elements : option (list ParagraphElement) }.

Record TableCellOf (E : Type) := { cell_content : option (list E) }.
Record TableRowOf (E : Type) := { tableCells : option (list (TableCellOf E)) }.
Record TableOf (E : Type) := { tableRows : option (list (TableRowOf E)) }.

#[warnings="-register-all"]
Inductive StructuralElement : Type :=
  mkElement (se_startIndex se_endIndex : option Z)
            (paragraph : option Paragraph)
            (table : option (TableOf StructuralElement))
            (sectionBreak tableOfContents : bool).

Definition Content := list StructuralElement.

(** [res.data.body?.content] *)
Record Document := { body : option (option Content) }.

Definition bodyContent (d : Document) : option Content :=
  match body d with
  | Some (Some c) => Some c
  | _ => None
  end.

(** ** Segments, ranges and the flattened text (lines 64-123) *)

Record TextSegment := {
  text : jsstring;
  startIndex : Z;
  endIndex : Z
}.

Record MatchRange := { range_start : Z; range_end : Z }.

Record CharMapping := {
  segmentIndex : nat;
  charIndex : nat;
  originalIndex : Z
}.

(** The segments one paragraph pushes: a text run counts when its content
    is truthy (a non-empty string) and both indices are defined. *)
Definition paragraphSegments (p : option Paragraph) : list TextSegment :=
  match p with
  | Some {| elements := Some pes |} =>
      flat_map
        (fun pe =>
           match textRun pe, pe_startIndex pe, pe_endIndex pe with
           | Some {| content := Some (c :: cs) |}, Some s, Some e =>
               [ {| text := c :: cs; startIndex := s; endIndex := e |} ]
           | _, _, _ => []
           end)
        pes
  | _ => []
  end.

(** The two nested loops over [table.tableRows] and [row.tableCells] that
    both tree walks of the source contain: rows without [tableCells] and
    cells without [content] are skipped, [visit] runs on the content of
    each remaining cell and [combine] chains the results in visiting
    order. *)
Section TableWalk.
Context {E B : Type} (visit : list E -> B) (empty : B)
        (combine : B -> B -> B).

Definition forEachCell (cells : list (TableCellOf E)) : B :=
  fold_right
    (fun cell acc =>
       match cell_content cell with
       | Some c => combine (visit c) acc
       | None => acc
       end)
    empty cells.

Definition forEachRow (rows : list (TableRowOf E)) : B :=
  fold_right
    (fun row acc =>
       match tableCells row with
       | Some cells => combine (forEachCell cells) acc
       | None => acc
       end)
    empty rows.
End TableWalk.

(** [extractTextFromContent], with the pushes to [textSegments] returned in
    the order they are made. *)
Fixpoint extractTextFromElement (element : StructuralElement)
  : list TextSegment :=
  match element with
  | mkElement _ _ paragraph table _ _ =>
      paragraphSegments paragraph
      ++ match table with
         | Some {| tableRows := Some rows |} =>
             forEachRow (flat_map extractTextFromElement) [] (@app _) rows
         | _ => []
         end
  end.

Definition extractTextFromContent (content : Content) : list TextSegment :=
  flat_map extractTextFromElement content.

(** [Array.prototype.sort] is stable; with the comparator
    [a.startIndex - b.startIndex] on integers its result is the one of a
    stable insertion sort on [startIndex]. *)
Section StableSort.
Context {A : Type} (key : A -> Z).

Fixpoint insertSorted (x : A) (l : list A) : list A :=
  match l with
  | [] => [x]
  | y :: l' => if (key x <=? key y)%Z then x :: l
               else y :: insertSorted x l'
  end.

Definition stableSort (l : list A) : list A :=
  fold_right insertSorted [] l.
End StableSort.

Definition sortSegments : list TextSegment -> list TextSegment :=
  stableSort startIndex.

(** The per-character map one segment contributes (inner loop, lines
    115-122). *)
Definition segmentMappings (segIndex : nat) (segment : TextSegment)
  : list CharMapping :=
  map (fun charIndex =>
         {| segmentIndex := segIndex;
            charIndex := charIndex;
            originalIndex := startIndex segment + Z.of_nat charIndex |})
      (seq 0 (length (text segment))).

Fixpoint buildCharMap (segIndex : nat) (segments : list TextSegment)
  : list CharMapping :=
  match segments with
  | [] => []
  | segment :: rest =>
      segmentMappings segIndex segment ++ buildCharMap (S segIndex) rest
  end.

Definition buildFullText (segments : list TextSegment) : jsstring :=
  flat_map text segments.

(** ** The matcher (lines 144-247) *)

(** [extractTextFromRange] *)
Definition extractTextFromRange (textSegments : list TextSegment)
  (startIdx endIdx : Z) : jsstring :=
  flat_map
    (fun segment =>
       let segStart := startIndex segment in
       let segEnd := endIndex segment in
       if ((segStart <? endIdx) && (startIdx <? segEnd))%Z
       then
         let overlapStart := Z.max segStart startIdx in
         let overlapEnd := Z.min segEnd endIdx in
         substring (text segment) (overlapStart - segStart)
                   (overlapEnd - segStart)
       else [])
    textSegments.

(** Both [while (true)] loops of [findValidatedMatches] have the same
    shape: look for the pattern from [searchIndex], leave when [indexOf]
    finds nothing, otherwise run the body on [foundIndex] and restart at
    [foundIndex + 1].  Nothing bounds the number of iterations in the
    source, so the model takes fuel: [None] is a loop still running when
    the fuel is spent. *)
Fixpoint scanLoop {A} (haystack pat : jsstring)
  (body : nat -> list A -> list A)
  (fuel : nat) (searchIndex : nat) (matches : list A) : option (list A) :=
  match fuel with
  | O => None
  | S fuel' =>
      match indexOf haystack pat searchIndex with
      | None => Some matches
      | Some foundIndex =>
          scanLoop haystack pat body fuel' (foundIndex + 1)
                   (body foundIndex matches)
      end
  end.

(** [if (startMapping && endMapping) matches.push({...})] *)
Definition pushMapped (startMapping endMapping : option CharMapping)
  (accept : MatchRange -> bool) (matches : list MatchRange)
  : list MatchRange :=
  match startMapping, endMapping with
  | Some sm, Some em =>
      let r := {| range_start := originalIndex sm;
                  range_end := originalIndex em + 1 |} in
      if accept r then matches ++ [r] else matches
  | _, _ => matches
  end.

(** Lines 184-192: walk the original text until the normalized position
    reaches [foundIndex].  [rest] is the text from [originalFoundIndex]
    on, so the test [originalFoundIndex < fullText.length] is [rest] not
    being empty. *)
Fixpoint walkToStart (rest : jsstring)
  (foundIndex normalizedIndex originalFoundIndex : nat) : nat :=
  match rest with
  | [] => originalFoundIndex
  | originalChar :: rest' =>
      if normalizedIndex <? foundIndex then
        let normalizedChar := normalizeText [originalChar] in
        walkToStart rest' foundIndex
          (if 0 <? length normalizedChar
           then normalizedIndex + length normalizedChar
           else normalizedIndex)
          (S originalFoundIndex)
      else originalFoundIndex
  end.

(** Lines 195-206. *)
Fixpoint walkToEnd (rest : jsstring) (remainingNormalizedLength : Z)
  (originalEndIndex : nat) : nat :=
  match rest with
  | [] => originalEndIndex
  | originalChar :: rest' =>
      if (0 <? remainingNormalizedLength)%Z then
        let normalizedChar := normalizeText [originalChar] in
        walkToEnd rest'
          (if 0 <? length normalizedChar
           then (remainingNormalizedLength
                 - Z.of_nat (length normalizedChar))%Z
           else remainingNormalizedLength)
          (S originalEndIndex)
      else originalEndIndex
  end.

(** Which scanning pass ran on which search text: the log of a search. *)
Inductive Pass :=
| ExactPass (searchText : jsstring)
| NormalizedPass (searchText : jsstring).

Section Matcher.
Variable textSegments : list TextSegment.

Let fullText := buildFullText textSegments.
Let charToSegmentMap := buildCharMap 0 textSegments.

(** Body of the first loop (lines 154-163). *)
Definition exactBody (searchText : jsstring) (foundIndex : nat)
  (matches : list MatchRange) : list MatchRange :=
  pushMapped
    (arrayGet charToSegmentMap (Z.of_nat foundIndex))
    (arrayGet charToSegmentMap
       (Z.of_nat foundIndex + Z.of_nat (length searchText) - 1))
    (fun _ => true) matches.

Definition exactPass (fuel : nat) (searchText : jsstring)
  : option (list MatchRange) :=
  scanLoop fullText searchText (exactBody searchText) fuel 0 [].

(** Body of the second loop (lines 178-221). *)
Definition normalizedBody (normalizedSearchText : jsstring)
  (foundIndex : nat) (matches : list MatchRange) : list MatchRange :=
  let originalFoundIndex := walkToStart fullText foundIndex 0 0 in
  let originalEndIndex :=
    walkToEnd (skipn originalFoundIndex fullText)
              (Z.of_nat (length normalizedSearchText))
              originalFoundIndex in
  pushMapped
    (arrayGet charToSegmentMap (Z.of_nat originalFoundIndex))
    (arrayGet charToSegmentMap (Z.of_nat originalEndIndex - 1))
    (fun r =>
       let actualText :=
         extractTextFromRange textSegments (range_start r) (range_end r) in
       string_eqb (normalizeText actualText) normalizedSearchText)
    matches.

Definition normalizedPass (fuel : nat) (searchText : jsstring)
  : option (list MatchRange) :=
  scanLoop (normalizeText fullText) (normalizeText searchText)
           (normalizedBody (normalizeText searchText)) fuel 0 [].

(** [findValidatedMatches], with the log of the passes it ran. *)
Definition findValidatedMatches (fuel : nat) (searchText : jsstring)
  : option (list MatchRange * list Pass) :=
  match exactPass fuel searchText with
  | None => None
  | Some matches =>
      if length matches =? 0
      then match normalizedPass fuel searchText with
           | None => None
           | Some matches' =>
               Some (matches',
                     [ExactPass searchText; NormalizedPass searchText])
           end
      else Some (matches, [ExactPass searchText])
  end.

(** The loop over [searchVariants] (lines 250-260). *)
Fixpoint tryVariants (fuel : nat) (variants : list jsstring) (instance : Z)
  (allMatches : list MatchRange) (log : list Pass)
  : option (list MatchRange * list Pass) :=
  match variants with
  | [] => Some (allMatches, log)
  | searchVariant :: rest =>
      match findValidatedMatches fuel searchVariant with
      | None => None
      | Some (matches, passes) =>
          let allMatches' := allMatches ++ matches in
          if (instance <=? Z.of_nat (length allMatches'))%Z
          then Some (allMatches', log ++ passes)
          else tryVariants fuel rest instance allMatches' (log ++ passes)
      end
  end.
End Matcher.

(** Lines 138-142. *)
Definition searchVariants (textToFind : jsstring) : list jsstring :=
  [ textToFind; normalizeText textToFind; standardizeApostrophes textToFind ].

(** ** Instance selection (lines 262-273) *)

(** A JavaScript [Map] as its list of entries in insertion order: setting
    a key that is present replaces the value in place. *)
Section JsMap.
Context {K V : Type} (key_eqb : K -> K -> bool).

Fixpoint mapSet (entries : list (K * V)) (k : K) (v : V) : list (K * V) :=
  match entries with
  | [] => [(k, v)]
  | (k', v') :: rest =>
      if key_eqb k' k then (k', v) :: rest
      else (k', v') :: mapSet rest k v
  end.

Definition newMap (entries : list (K * V)) : list (K * V) :=
  fold_left (fun m kv => mapSet m (fst kv) (snd kv)) entries [].

Definition mapValues (m : list (K * V)) : list V := map snd m.
End JsMap.

(** The key [`${m.startIndex}-${m.endIndex}`]: the decimal rendering of the
    two integers around a hyphen determines both, so the key is modelled
    as the pair. *)
Definition rangeKey (m : MatchRange) : Z * Z := (range_start m, range_end m).

Definition key_eqb (a b : Z * Z) : bool :=
  ((fst a =? fst b) && (snd a =? snd b))%Z.

Definition uniqueRanges (allMatches : list MatchRange) : list MatchRange :=
  mapValues (newMap key_eqb (map (fun m => (rangeKey m, m)) allMatches)).

Definition sortRanges : list MatchRange -> list MatchRange :=
  stableSort range_start.

(** The result of a search is a range, or [null]/[undefined] (both
    [None]: callers only test it for truthiness). *)
Definition selectInstance (allMatches : list MatchRange) (instance : Z)
  : option MatchRange :=
  let uniqueMatches := sortRanges (uniqueRanges allMatches) in
  if (instance <=? Z.of_nat (length uniqueMatches))%Z
  then arrayGet uniqueMatches (instance - 1)
  else None.

(** The body of [findTextRange] after the fetch (lines 60-273); the outer
    [None] is a scan that has not finished within the fuel. *)
Definition searchContent (fuel : nat) (content : option Content)
  (textToFind : jsstring) (instance : Z) : option (option MatchRange) :=
  match content with
  | None => Some None
  | Some content =>
      let textSegments := sortSegments (extractTextFromContent content) in
      match tryVariants textSegments fuel (searchVariants textToFind)
                        instance [] [] with
      | None => None
      | Some (allMatches, _) => Some (selectInstance allMatches instance)
      end
  end.

(** ** Regular expressions (lines 292-299)

    A backtracking matcher for the fragment the six patterns are written
    in: character classes, concatenation, the greedy quantifiers [?] and
    [+] (the latter on a class) and capturing groups.  Alternatives are
    tried in the order of the ECMAScript semantics, so the captures are
    those of [String.prototype.match].  The input is the text from the
    current position on; a continuation receives what is left. *)

Module Regex.

Inductive t :=
| Class (class : codeUnit -> bool)
| Seq (a b : t)
| Optional (a : t)
| Plus (class : codeUnit -> bool)
| Group (n : nat) (a : t).

Definition Captures := list (nat * jsstring).

Section Backtracking.
Context {R : Type}.

(** [[class]*] followed by [k]: the longest run first. *)
Fixpoint greedyStar (class : codeUnit -> bool) (s : jsstring)
  (k : jsstring -> option R) : option R :=
  match s with
  | c :: s' =>
      if class c
      then match greedyStar class s' k with
           | Some r => Some r
           | None => k s
           end
      else k s
  | [] => k []
  end.

Fixpoint run (r : t) (s : jsstring) (caps : Captures)
  (k : jsstring -> Captures -> option R) : option R :=
  match r with
  | Class class =>
      match s with
      | c :: s' => if class c then k s' caps else None
      | [] => None
      end
  | Seq a b => run a s caps (fun s' caps' => run b s' caps' k)
  | Optional a =>
      match run a s caps k with
      | Some res => Some res
      | None => k s caps
      end
  | Plus class =>
      match s with
      | c :: s' =>
          if class c then greedyStar class s' (fun s'' => k s'' caps)
          else None
      | [] => None
      end
  | Group n a =>
      run a s caps
          (fun s' caps' =>
             k s' ((n, firstn (length s - length s') s) :: caps'))
  end.
End Backtracking.

(** [text.match(r)] for a regular expression without the [g] flag: the
    match at the leftmost position that has one. *)
Fixpoint exec (r : t) (s : jsstring) : option Captures :=
  match run r s [] (fun _ caps => Some caps) with
  | Some caps => Some caps
  | None => match s with
            | [] => None
            | _ :: s' => exec r s'
            end
  end.

Fixpoint capture (n : nat) (caps : Captures) : option jsstring :=
  match caps with
  | [] => None
  | (m, v) :: rest => if Nat.eqb m n then Some v else capture n rest
  end.

(** A letter under the [i] flag. *)
Definition letter (lower upper : codeUnit) : codeUnit -> bool :=
  fun c => cu_eqb c lower || cu_eqb c upper.

Definition anyChar (c : codeUnit) : bool := negb (isLineTerminator c).

End Regex.

(** The shape shared by the six patterns:
    [/(\w+)[apostrophes](SUFFIX\s+.+)/i]. *)
Definition apostrophePattern (suffix : Regex.t) : Regex.t :=
  Regex.Seq (Regex.Group 1 (Regex.Plus isWordChar))
    (Regex.Seq (Regex.Class isApostrophe)
       (Regex.Group 2
          (Regex.Seq suffix
             (Regex.Seq (Regex.Plus isWhiteSpace)
                        (Regex.Plus Regex.anyChar))))).

Definition letter_s := Regex.Class (Regex.letter 0x73%N 0x53%N).
Definition letter_r := Regex.Class (Regex.letter 0x72%N 0x52%N).
Definition letter_e := Regex.Class (Regex.letter 0x65%N 0x45%N).
Definition letter_l := Regex.Class (Regex.letter 0x6C%N 0x4C%N).
Definition letter_v := Regex.Class (Regex.letter 0x76%N 0x56%N).
Definition letter_d := Regex.Class (Regex.letter 0x64%N 0x44%N).
Definition letter_t := Regex.Class (Regex.letter 0x74%N 0x54%N).

(** [s?], [re?], [ll?], [ve?], [d?], [t?] *)
Definition apostrophePatterns : list Regex.t :=
  [ apostrophePattern (Regex.Optional letter_s);
    apostrophePattern (Regex.Seq letter_r (Regex.Optional letter_e));
    apostrophePattern (Regex.Seq letter_l (Regex.Optional letter_l));
    apostrophePattern (Regex.Seq letter_v (Regex.Optional letter_e));
    apostrophePattern (Regex.Optional letter_d);
    apostrophePattern (Regex.Optional letter_t) ].

(** The first element of a list on which [f] answers, as a [for] loop that
    returns from inside its body finds it. *)
Definition firstSome {A B} (f : A -> option B) : list A -> option B :=
  fix go (l : list A) : option B :=
    match l with
    | [] => None
    | x :: rest => match f x with
                   | Some y => Some y
                   | None => go rest
                   end
    end.

Definition orElse {A} (a b : option A) : option A :=
  match a with
  | Some x => Some x
  | None => b
  end.

(** [match[1]] and [match[2]] of the first pattern that matches. *)
Definition splitAtApostrophe (textToFind : jsstring)
  : option (jsstring * jsstring) :=
  firstSome
    (fun pattern =>
       match Regex.exec pattern textToFind with
       | Some caps =>
           match Regex.capture 1 caps, Regex.capture 2 caps with
           | Some beforeApostrophe, Some afterApostrophe =>
               Some (beforeApostrophe, afterApostrophe)
           | _, _ => None
           end
       | None => None
       end)
    apostrophePatterns.

(** ** The structural range finder (lines 373-411) *)

Fixpoint findParagraphInElement (indexWithin : Z)
  (element : StructuralElement) : option MatchRange :=
  match element with
  | mkElement (Some s) (Some e) paragraph table _ _ =>
      if ((s <=? indexWithin) && (indexWithin <? e))%Z then
        match paragraph with
        | Some _ => Some {| range_start := s; range_end := e |}
        | None =>
            match table with
            | Some {| tableRows := Some rows |} =>
                forEachRow (firstSome (findParagraphInElement indexWithin))
                           None (@orElse _) rows
            | _ => None
            end
        end
      else None
  | _ => None
  end.

Definition findParagraphInContent (indexWithin : Z) (content : Content)
  : option MatchRange :=
  firstSome (findParagraphInElement indexWithin) content.

(** ** The Docs client, failures and effects *)

(** What a rejected API call carries: [error.code] and [error.message]. *)
Record ApiError := { code : option Z; message : jsstring }.

Inductive UserErrorKind :=
| DocumentNotFound | PermissionDenied | InvalidRequest | InvalidColor.

(** The values the code throws: [UserError]s, which the server shows to
    the user, and plain [Error]s, its internal failures. *)
Inductive Thrown :=
| UserError (kind : UserErrorKind)
| InternalError.

Inductive Outcome (A : Type) :=
| Returns (a : A)
| Throws (e : Thrown)
| StillRunning.
Arguments Returns {A} a.
Arguments Throws {A} e.
Arguments StillRunning {A}.

Definition DocumentId := jsstring.

(** Character styles: the fields of [TextStyleArgs] and of the API's
    [TextStyle], and the request built from them. *)
Record TextStyleArgs := {
  bold : option bool;
  italic : option bool;
  underline : option bool;
  strikethrough : option bool;
  fontSize : option Z;
  fontFamily : option jsstring;
  foregroundColor : option jsstring;
  backgroundColor : option jsstring;
  linkUrl : option jsstring
}.

Inductive StyleField :=
| FBold | FItalic | FUnderline | FStrikethrough | FFontSize
| FWeightedFontFamily | FForegroundColor | FBackgroundColor | FLink.

Section Client.
(** [World] is whatever the remote service holds; each API call may read
    and change it.  [RgbColor] and [hexToRgbColor] are imported from
    [types.ts]; the helpers only pass colours through, so both stay
    abstract. *)
Variable World : Type.
Variable RgbColor : Type.
Variable hexToRgbColor : jsstring -> option RgbColor.

Record TextStyle := {
  ts_bold : option bool;
  ts_italic : option bool;
  ts_underline : option bool;
  ts_strikethrough : option bool;
  ts_fontSize : option Z;
  ts_weightedFontFamily : option jsstring;
  ts_foregroundColor : option RgbColor;
  ts_backgroundColor : option RgbColor;
  ts_link : option jsstring
}.

(** An [updateTextStyle] request; [fields] is joined with commas in the
    source. *)
Record Request := {
  req_range : MatchRange;
  req_textStyle : TextStyle;
  req_fields : list StyleField
}.

Record Docs := {
  documents_get : DocumentId -> World -> (ApiError + Document) * World;
  documents_batchUpdate :
    DocumentId -> list Request -> World -> (ApiError + unit) * World
}.

Definition Eff (A : Type) := World -> Outcome A * World.

Definition ret {A} (a : A) : Eff A := fun w => (Returns a, w).

Definition throw {A} (e : Thrown) : Eff A := fun w => (Throws e, w).

Definition bind {A B} (m : Eff A) (f : A -> Eff B) : Eff B :=
  fun w =>
    match m w with
    | (Returns a, w') => f a w'
    | (Throws e, w') => (Throws e, w')
    | (StillRunning, w') => (StillRunning, w')
    end.

(** [try { m } catch (error) { handler }] for a handler that does not
    look at the error. *)
Definition tryCatch {A} (m : Eff A) (handler : Eff A) : Eff A :=
  fun w =>
    match m w with
    | (Throws _, w') => handler w'
    | r => r
    end.

Definition ofOption {A} (o : option A) : Eff A :=
  fun w => (match o with Some a => Returns a | None => StillRunning end, w).

Definition codeIs (error : ApiError) (n : Z) : bool :=
  match code error with
  | Some c => (c =? n)%Z
  | None => false
  end.

(** The [catch] block of [findTextRange] (lines 275-279). *)
Definition translateFetchError (error : ApiError) : Thrown :=
  if codeIs error 404 then UserError DocumentNotFound
  else if codeIs error 403 then UserError PermissionDenied
  else InternalError.

(** [findTextRange]: one fetch, then the search.  Nothing in the search
    itself throws, so the [catch] block only ever sees a rejected fetch. *)
Definition findTextRange (fuel : nat) (docs : Docs)
  (documentId : DocumentId) (textToFind : jsstring) (instance : Z)
  : Eff (option MatchRange) :=
  fun w =>
    match documents_get docs documentId w with
    | (inl error, w') => (Throws (translateFetchError error), w')
    | (inr res, w') =>
        ofOption (searchContent fuel (bodyContent res) textToFind instance)
                 w'
    end.
(** [executeBatchUpdate] (lines 13-48). *)
Definition translateUpdateError (error : ApiError) : Thrown :=
  if codeIs error 400
     && match firstOccurrence (lit "Invalid requests"%string) (message error) with
        | Some _ => true
        | None => false
        end
  then UserError InvalidRequest
  else if codeIs error 404 then UserError DocumentNotFound
  else if codeIs error 403 then UserError PermissionDenied
  else InternalError.

Definition executeBatchUpdate (docs : Docs) (documentId : DocumentId)
  (requests : list Request) : Eff unit :=
  match requests with
  | [] => ret tt
  | _ =>
      fun w =>
        match documents_batchUpdate docs documentId requests w with
        | (inl error, w') => (Throws (translateUpdateError error), w')
        | (inr _, w') => (Returns tt, w')
        end
  end.

(** [buildUpdateTextStyleRequest] (lines 433-473): [None] is [null],
    [inl] a thrown value. *)
Definition buildUpdateTextStyleRequest (startIdx endIdx : Z)
  (style : TextStyleArgs) : Thrown + option Request :=
  let flag {A} (o : option A) (f : StyleField) : list StyleField :=
    match o with Some _ => [f] | None => [] end in
  let color (o : option jsstring) : Thrown + option RgbColor :=
    match o with
    | None => inr None
    | Some hex => match hexToRgbColor hex with
                  | Some rgb => inr (Some rgb)
                  | None => inl (UserError InvalidColor)
                  end
    end in
  match color (foregroundColor style) with
  | inl e => inl e
  | inr fg =>
      match color (backgroundColor style) with
      | inl e => inl e
      | inr bg =>
          let fieldsToUpdate :=
            flag (bold style) FBold ++ flag (italic style) FItalic
            ++ flag (underline style) FUnderline
            ++ flag (strikethrough style) FStrikethrough
            ++ flag (fontSize style) FFontSize
            ++ flag (fontFamily style) FWeightedFontFamily
            ++ flag (foregroundColor style) FForegroundColor
            ++ flag (backgroundColor style) FBackgroundColor
            ++ flag (linkUrl style) FLink in
          match fieldsToUpdate with
          | [] => inr None
          | _ =>
              inr (Some
                {| req_range := {| range_start := startIdx;
                                   range_end := endIdx |};
                   req_textStyle :=
                     {| ts_bold := bold style;
                        ts_italic := italic style;
                        ts_underline := underline style;
                        ts_strikethrough := strikethrough style;
                        ts_fontSize := fontSize style;
                        ts_weightedFontFamily := fontFamily style;
                        ts_foregroundColor := fg;
                        ts_backgroundColor := bg;
                        ts_link := linkUrl style |};
                   req_fields := fieldsToUpdate |})
          end
      end
  end.

Definition ofThrown {A} (r : Thrown + A) : Eff A :=
  match r with
  | inl e => throw e
  | inr a => ret a
  end.

(** The block the source repeats for each range it wants styled (lines
    311-317, 321-327 and 336-342): build the request when there is a
    range, send it when there is a request; the result tells whether an
    update was sent. *)
Definition highlightRange (docs : Docs) (documentId : DocumentId)
  (range : option MatchRange) (styleParams : TextStyleArgs) : Eff bool :=
  match range with
  | Some r =>
      bind (ofThrown (buildUpdateTextStyleRequest
                        (range_start r) (range_end r) styleParams))
           (fun request =>
              match request with
              | Some rq =>
                  bind (executeBatchUpdate docs documentId [rq])
                       (fun _ => ret true)
              | None => ret false
              end)
  | None => ret false
  end.

(** [highlightApostrophePhrase] (lines 283-350); the [console.error] of
    its [catch] block is not modelled. *)
Definition highlightApostrophePhrase (fuel : nat) (docs : Docs)
  (documentId : DocumentId) (textToFind : jsstring) (instance : Z)
  (styleParams : TextStyleArgs) : Eff bool :=
  tryCatch
    (match splitAtApostrophe textToFind with
     | Some (beforeApostrophe, afterApostrophe) =>
         bind (findTextRange fuel docs documentId beforeApostrophe instance)
           (fun beforeRange =>
         bind (highlightRange docs documentId beforeRange styleParams)
           (fun beforeDone =>
         bind (findTextRange fuel docs documentId afterApostrophe instance)
           (fun afterRange =>
         bind (highlightRange docs documentId afterRange styleParams)
           (fun afterDone =>
              let successfulHighlights :=
                (if beforeDone then 1 else 0)
                + (if afterDone then 1 else 0) in
              ret (2 <=? successfulHighlights)))))
     | None =>
         bind (findTextRange fuel docs documentId textToFind instance)
           (fun range => highlightRange docs documentId range styleParams)
     end)
    (ret false).

(** The [catch] block of [getParagraphRange] maps the codes as the one of
    [findTextRange] does. *)
Definition getParagraphRange (docs : Docs) (documentId : DocumentId)
  (indexWithin : Z) : Eff (option MatchRange) :=
  fun w =>
    match documents_get docs documentId w with
    | (inl error, w') => (Throws (translateFetchError error), w')
    | (inr res, w') =>
        (Returns match bodyContent res with
                 | None => None
                 | Some content =>
                     findParagraphInContent indexWithin content
                 end, w')
    end.
End Client.

Unset Implicit Arguments.

(** ** Paragraph styles (lines 475-550)

    [ParagraphStyleArgs] and the API's [ParagraphStyle]; alignments and
    named style types are strings, the four lengths are numbers of
    points. *)

Record ParagraphStyleArgs := {
  alignment : option jsstring;
  indentStart : option Z;
  indentEnd : option Z;
  spaceAbove : option Z;
  spaceBelow : option Z;
  namedStyleType : option jsstring;
  keepWithNext : option bool
}.

Inductive ParagraphField :=
| PAlignment | PIndentStart | PIndentEnd | PSpaceAbove | PSpaceBelow
| PNamedStyleType | PKeepWithNext.

Record ParagraphStyle := {
  ps_alignment : option jsstring;
  ps_indentStart : option Z;
  ps_indentEnd : option Z;
  ps_spaceAbove : option Z;
  ps_spaceBelow : option Z;
  ps_namedStyleType : option jsstring;
  ps_keepWithNext : option bool
}.

(** An [updateParagraphStyle] request. *)
Record ParagraphRequest := {
  preq_range : MatchRange;
  preq_paragraphStyle : ParagraphStyle;
  preq_fields : list ParagraphField
}.

(** [buildUpdateParagraphStyleRequest]: [None] is [null]. *)
Definition buildUpdateParagraphStyleRequest (startIdx endIdx : Z)
  (style : ParagraphStyleArgs) : option ParagraphRequest :=
  let flag {A} (o : option A) (f : ParagraphField) : list ParagraphField :=
    match o with Some _ => [f] | None => [] end in
  let fieldsToUpdate :=
    flag (alignment style) PAlignment
    ++ flag (indentStart style) PIndentStart
    ++ flag (indentEnd style) PIndentEnd
    ++ flag (spaceAbove style) PSpaceAbove
    ++ flag (spaceBelow style) PSpaceBelow
    ++ flag (namedStyleType style) PNamedStyleType
    ++ flag (keepWithNext style) PKeepWithNext in
  match fieldsToUpdate with
  | [] => None
  | _ =>
      Some {| preq_range := {| range_start := startIdx; range_end := endIdx |};
              preq_paragraphStyle :=
                {| ps_alignment := alignment style;
                   ps_indentStart := indentStart style;
                   ps_indentEnd := indentEnd style;
                   ps_spaceAbove := spaceAbove style;
                   ps_spaceBelow := spaceBelow style;
                   ps_namedStyleType := namedStyleType style;
                   ps_keepWithNext := keepWithNext style |};
              preq_fields := fieldsToUpdate |}
  end.

(** ** Tables and text (lines 554-577)

    [createTable] and [insertText] send requests of two more kinds through
    [executeBatchUpdate]; [createTable] also throws a user error of its
    own.  [BatchUpdate] is [docs.documents.batchUpdate] for requests of
    any kind, and [executeBatchUpdateOf] is [executeBatchUpdate] over it;
    neither contains a loop, so a result is a value or a thrown error. *)

Inductive DocsRequest (RgbColor : Type) :=
| UpdateTextStyle (r : Request RgbColor)
| UpdateParagraphStyle (r : ParagraphRequest)
| InsertTable (index rows columns : Z)
| InsertText (index : Z) (text : jsstring).
Arguments UpdateTextStyle {RgbColor} r.
Arguments UpdateParagraphStyle {RgbColor} r.
Arguments InsertTable {RgbColor} index rows columns.
Arguments InsertText {RgbColor} index text.

Definition BatchUpdate (World R : Type) :=
  DocumentId -> list R -> World -> (ApiError + unit) * World.

Definition executeBatchUpdateOf {World R : Type}
  (batchUpdate : BatchUpdate World R) (documentId : DocumentId)
  (requests : list R) : World -> (Thrown + unit) * World :=
  match requests with
  | [] => fun w => (inr tt, w)
  | _ =>
      fun w =>
        match batchUpdate documentId requests w with
        | (inl error, w') => (inl (translateUpdateError error), w')
        | (inr _, w') => (inr tt, w')
        end
  end.

(** What the two helpers throw: the errors of [executeBatchUpdate], and
    the user error of [createTable]. *)
Inductive HelperThrown :=
| FromUpdate (e : Thrown)
| TableTooSmall.

Definition rethrow {World A} (r : (Thrown + A) * World)
  : (HelperThrown + A) * World :=
  match r with
  | (inl e, w) => (inl (FromUpdate e), w)
  | (inr a, w) => (inr a, w)
  end.

Definition createTable {World RgbColor : Type}
  (batchUpdate : BatchUpdate World (DocsRequest RgbColor))
  (documentId : DocumentId) (rows columns index : Z)
  : World -> (HelperThrown + unit) * World :=
  fun w =>
    if ((rows <? 1) || (columns <? 1))%Z then (inl TableTooSmall, w)
    else rethrow (executeBatchUpdateOf batchUpdate documentId
                    [InsertTable index rows columns] w).

Definition insertText {World RgbColor : Type}
  (batchUpdate : BatchUpdate World (DocsRequest RgbColor))
  (documentId : DocumentId) (text : jsstring) (index : Z)
  : World -> (HelperThrown + unit) * World :=
  fun w =>
    match text with
    | [] => (inr tt, w)
    | _ => rethrow (executeBatchUpdateOf batchUpdate documentId
                      [InsertText index text] w)
    end.

(** * Vocabulary of the statements

    Definitions that the theorems below are stated and proved with; none
    of them is part of the program. *)

(** ** Normal forms of the normalizer *)

(** What the three character-class replacements make of one character. *)
Definition canon (c : codeUnit) : codeUnit :=
  let c1 := if isApostrophe c then apostrophe else c in
  let c2 := if isDoubleQuote c1 then doubleQuote else c1 in
  if isDash c2 then hyphen else c2.

(** A string in which every white space character is a single space
    standing alone; [inRun] tells that the character before the string was
    a space. *)
Fixpoint collapsed (inRun : bool) (s : jsstring) : Prop :=
  match s with
  | [] => True
  | c :: s' =>
      if isWhiteSpace c
      then c = space /\ inRun = false /\ collapsed true s'
      else collapsed false s'
  end.

(** ** Occurrences of a pattern *)

(** The positions, counted from [offset], at which [pat] occurs in [s],
    in increasing order; occurrences may overlap. *)
Fixpoint occurrencesFrom (pat s : jsstring) (offset : nat) : list nat :=
  (if startsWith pat s then [offset] else [])
  ++ match s with
     | [] => []
     | _ :: s' => occurrencesFrom pat s' (S offset)
     end.

Definition occurrences (s pat : jsstring) : list nat := occurrencesFrom pat s 0.

(** The scan of [findValidatedMatches] with a body that only records
    [foundIndex]. *)
Definition scanHits (haystack pat : jsstring) (fuel : nat) : option (list nat) :=
  scanLoop haystack pat (fun foundIndex hits => hits ++ [foundIndex]) fuel 0 [].

(** ** Well-formed segments and native indices *)

(** The invariants of a text segment: its indices span its text, and the
    segments of a document do not overlap. *)
Definition wellFormedSegment (seg : TextSegment) : Prop :=
  (endIndex seg - startIndex seg = Z.of_nat (length (text seg))
   /\ startIndex seg < endIndex seg)%Z.

Definition disjointSegments (a b : TextSegment) : Prop :=
  (endIndex a <= startIndex b \/ endIndex b <= startIndex a)%Z.

Definition wellFormedSegments (segs : list TextSegment) : Prop :=
  Forall wellFormedSegment segs /\ ForallOrdPairs disjointSegments segs.

(** [charToSegmentMap[k].originalIndex] *)
Definition nativeIndex (segs : list TextSegment) (k : nat) : Z :=
  match nth_error (buildCharMap 0 segs) k with
  | Some m => originalIndex m
  | None => 0
  end.

(** The range the exact pass pushes for a hit of [len] characters at
    [foundIndex]. *)
Definition rangeAt (segs : list TextSegment) (foundIndex len : nat) : MatchRange :=
  {| range_start := nativeIndex segs foundIndex;
     range_end := nativeIndex segs (foundIndex + len - 1) + 1 |}.

(** The characters of the flattened text, each with its native index. *)
Fixpoint tagChars (s : Z) (text : jsstring) : list (codeUnit * Z) :=
  match text with
  | [] => []
  | c :: t => (c, s) :: tagChars (s + 1) t
  end.

Definition tagged (segs : list TextSegment) : list (codeUnit * Z) :=
  flat_map (fun seg => tagChars (startIndex seg) (text seg)) segs.

Definition inRange (lo hi : Z) (p : codeUnit * Z) : bool :=
  ((lo <=? snd p) && (snd p <? hi))%Z.

(** Segments in document order: each ends before the next begins. *)
Definition chained (segs : list TextSegment) : Prop :=
  StronglySorted (fun a b => endIndex a <= startIndex b)%Z segs.

(** The entry of the [Map] that removes duplicate ranges. *)
Definition entryOf (m : MatchRange) : (Z * Z) * MatchRange := (rangeKey m, m).

Definition setAll (entries acc : list ((Z * Z) * MatchRange)) :=
  fold_left (fun m kv => mapSet key_eqb m (fst kv) (snd kv)) entries acc.

(** Entries of the [Map] that sit under the key of their range. *)
Definition keyed (m : list ((Z * Z) * MatchRange)) : Prop :=
  Forall (fun kv => fst kv = rangeKey (snd kv)) m.

(** Ranges whose start indices increase strictly. *)
Definition increasingStarts (l : list MatchRange) : Prop :=
  StronglySorted (fun a b => range_start a < range_start b)%Z l.

(** The ranges of all occurrences of [pat], in the order of the scan. *)
Definition exactRanges (segs : list TextSegment) (pat : jsstring) : list MatchRange :=
  map (fun i => rangeAt segs i (length pat)) (occurrences (buildFullText segs) pat).

(** The round trip of the normalized pass: the text of the range,
    normalized, is the normalized search text. *)
Definition validated (segs : list TextSegment) (searchText : jsstring)
  (r : MatchRange) : Prop :=
  normalizeText (extractTextFromRange segs (range_start r) (range_end r))
  = normalizeText searchText.

(** [pat] occurs in [s]: some stretch of [s] is [pat]. *)
Definition occursIn (pat s : jsstring) : Prop :=
  exists pre post, s = pre ++ pat ++ post.

(** ** What a pattern matched *)

(** What a successful run of a pattern consumed and captured. *)
Fixpoint Matches (r : Regex.t) (consumed : jsstring)
  (caps caps' : Regex.Captures) : Prop :=
  match r with
  | Regex.Class class =>
      exists c, consumed = [c] /\ class c = true /\ caps' = caps
  | Regex.Seq a b =>
      exists x y mid, consumed = x ++ y /\ Matches a x caps mid
                      /\ Matches b y mid caps'
  | Regex.Optional a =>
      Matches a consumed caps caps' \/ consumed = [] /\ caps' = caps
  | Regex.Plus class =>
      consumed <> [] /\ Forall (fun c => class c = true) consumed /\ caps' = caps
  | Regex.Group n a =>
      exists mid, Matches a consumed caps mid /\ caps' = (n, consumed) :: mid
  end.



(** A suffix of the six patterns captures nothing. *)
Definition captureFree (r : Regex.t) : Prop :=
  forall consumed caps caps', Matches r consumed caps caps' -> caps' = caps.

(** ** Enclosing paragraphs *)

(** The contents of the cells of a table, in the order the loops over
    rows and cells visit them. *)
Definition rowCells {E} (row : TableRowOf E) : list (list E) :=
  match tableCells row with
  | Some cells =>
      flat_map (fun cell => match cell_content cell with
                            | Some c => [c]
                            | None => []
                            end) cells
  | None => []
  end.

Definition cellContents {E} (t : option (TableOf E)) : list (list E) :=
  match t with
  | Some {| tableRows := Some rows |} => flat_map rowCells rows
  | _ => []
  end.

(** The paragraphs the search can reach for [indexWithin]: paragraph
    elements whose range holds the index, at the top level or inside the
    cells of tables whose range holds it, in document order. *)
Inductive EnclosingParagraph (indexWithin : Z) : Content -> MatchRange -> Prop :=
| EnclosingHere content s e p t sb toc :
    In (mkElement (Some s) (Some e) (Some p) t sb toc) content ->
    (s <= indexWithin < e)%Z ->
    EnclosingParagraph indexWithin content {| range_start := s; range_end := e |}
| EnclosingInCell content s e t sb toc cell r :
    In (mkElement (Some s) (Some e) None t sb toc) content ->
    (s <= indexWithin < e)%Z ->
    In cell (cellContents t) ->
    EnclosingParagraph indexWithin cell r ->
    EnclosingParagraph indexWithin content r.

(** The same paragraphs as a list, in the order of the walk. *)
Fixpoint enclosingInElement (indexWithin : Z) (element : StructuralElement)
  : list MatchRange :=
  match element with
  | mkElement (Some s) (Some e) paragraph table _ _ =>
      if ((s <=? indexWithin) && (indexWithin <? e))%Z then
        match paragraph with
        | Some _ => [ {| range_start := s; range_end := e |} ]
        | None =>
            match table with
            | Some {| tableRows := Some rows |} =>
                forEachRow (flat_map (enclosingInElement indexWithin))
                           [] (@app _) rows
            | _ => []
            end
        end
      else []
  | _ => []
  end.

Definition enclosingParagraphs (indexWithin : Z) (content : Content)
  : list MatchRange :=
  flat_map (enclosingInElement indexWithin) content.

(** Induction on the document tree: an element may assume the property of
    every element in every cell of its table. *)
Section TreeInduction.
Variable P : StructuralElement -> Prop.
Hypothesis step : forall s e p t sb toc,
  (forall cell, In cell (cellContents t) -> Forall P cell) ->
  P (mkElement s e p t sb toc).

Fixpoint element_ind (element : StructuralElement) : P element :=
  match element with
  | mkElement s e p t sb toc =>
      step s e p t sb toc
        (match t return forall cell, In cell (cellContents t) -> Forall P cell with
         | Some {| tableRows := Some rows |} =>
             (fix rows_ok (rows : list (TableRowOf StructuralElement))
                : forall cell, In cell (flat_map rowCells rows) -> Forall P cell :=
                match rows with
                | [] => fun cell H => match H with end
                | row :: rows' =>
                    fun cell H =>
                      match in_app_or _ _ _ H with
                      | or_introl Hrow =>
                          match row return In cell (rowCells row) -> Forall P cell with
                          | {| tableCells := Some cells |} =>
                              (fix cells_ok (cells : list (TableCellOf StructuralElement))
                                 : In cell (rowCells {| tableCells := Some cells |})
                                   -> Forall P cell :=
                                 match cells with
                                 | [] => fun H => match H with end
                                 | c :: cells' =>
                                     fun H =>
                                       match in_app_or _ _ _ H with
                                       | or_introl Hc =>
                                           match c return
                                             In cell (match cell_content c with
                                                      | Some x => [x] | None => [] end)
                                             -> Forall P cell with
                                           | {| cell_content := Some els |} =>
                                               fun Hc' =>
                                                 match Hc' with
                                                 | or_introl Heq =>
                                                     eq_ind els (Forall P)
                                                       ((fix els_ok (els : list StructuralElement)
                                                           : Forall P els :=
                                                           match els with
                                                           | [] => Forall_nil P
                                                           | x :: els' =>
                                                               Forall_cons x (element_ind x)
                                                                           (els_ok els')
                                                           end) els) cell Heq
                                                 | or_intror F => match F with end
                                                 end
                                           | {| cell_content := None |} =>
                                               fun F => match F with end
                                           end Hc
                                       | or_intror Hrest => cells_ok cells' Hrest
                                       end
                                 end) cells
                          | {| tableCells := None |} => fun F => match F with end
                          end Hrow
                      | or_intror Hrest => rows_ok rows' cell Hrest
                      end
                end) rows
         | Some {| tableRows := None |} => fun cell H => match H with end
         | None => fun cell H => match H with end
         end)
  end.
End TreeInduction.

(** ** Sample documents *)

Definition textElement (s e : Z) (t : jsstring) : ParagraphElement :=
  {| pe_startIndex := Some s; pe_endIndex := Some e;
     textRun := Some {| content := Some t |} |}.

Definition paragraphOf (s e : Z) (t : jsstring) : StructuralElement :=
  mkElement (Some s) (Some e)
            (Some {| elements := Some [textElement s e t] |}) None false false.

Definition tableOf (s e : Z) (cells : list Content) : StructuralElement :=
  mkElement (Some s) (Some e) None
    (Some {| tableRows :=
               Some [ {| tableCells :=
                           Some (map (fun c => {| cell_content := Some c |}) cells) |} ] |})
    false false.

(** A client that always serves the same document and accepts every
    update. *)
Definition serving (content : Content) : Docs unit unit :=
  {| documents_get := fun _ w => (inr {| body := Some (Some content) |}, w);
     documents_batchUpdate := fun _ _ w => (inr tt, w) |}.

(** A client whose every call is rejected with the given code. *)
Definition rejecting (c : Z) : Docs unit unit :=
  {| documents_get := fun _ w => (inl {| code := Some c; message := [] |}, w);
     documents_batchUpdate :=
       fun _ _ w => (inl {| code := Some c; message := [] |}, w) |}.

Definition noColor (hex : jsstring) : option unit := None.

Definition boldStyle : TextStyleArgs :=
  {| bold := Some true; italic := None; underline := None;
     strikethrough := None; fontSize := None; fontFamily := None;
     foregroundColor := None; backgroundColor := None; linkUrl := None |}.

Definition docId : DocumentId := lit "doc"%string.

Definition doc_aaa : Content := [ paragraphOf 1 4 (lit "aaa"%string) ].

Definition doc_hello : Content :=
  [ paragraphOf 1 26 (lit "Hello world. Hello again."%string) ].

(** "it's it's", the first apostrophe being U+2019. *)
Definition curly_its : jsstring := [0x69; 0x74; 0x2019; 0x73]%N.
Definition doc_its : Content :=
  [ paragraphOf 1 10 (curly_its ++ lit " it's"%string) ].

(** A table over [1, 30) whose only cell holds a paragraph over [3, 10),
    followed by a paragraph over [30, 40). *)
Definition doc_table : Content :=
  [ tableOf 1 30 [ [ paragraphOf 3 10 (lit "in cell"%string) ] ];
    paragraphOf 30 40 (lit "after it!!"%string) ].

Definition doc_phrase : Content :=
  [ paragraphOf 1 23 (lit "that's almost 20% more"%string) ].

(** "don't" with U+2019 for the apostrophe. *)
Definition curly_dont : jsstring := [0x64; 0x6F; 0x6E; 0x2019; 0x74]%N.
Definition doc_dont : Content := [ paragraphOf 1 6 curly_dont ].

Definition doc_abc : Content := [ paragraphOf 1 6 (lit "a b c"%string) ].

Definition notFound : ApiError := {| code := Some 404%Z; message := [] |}.

(** " it's" after a space, with U+2019 for the apostrophe, and a document
    that holds it with the ASCII apostrophe. *)
Definition spaced_curly_its : jsstring := 0x20%N :: curly_its.
Definition doc_a_its : Content := [ paragraphOf 1 8 (lit "a it's "%string) ].

(** "don't don't", the first apostrophe being U+2019. *)
Definition doc_donts : Content :=
  [ paragraphOf 1 12 (curly_dont ++ lit " don't"%string) ].

(** ** Vocabulary of the further properties *)

(** The characters a normalized string is made of: no quotation mark or
    dash but the ASCII ones, and no white space but the space. *)
Definition canonicalChar (c : codeUnit) : Prop :=
  (isApostrophe c = true -> c = apostrophe)
  /\ isDoubleQuote c = false
  /\ isDash c = false
  /\ (isWhiteSpace c = true -> c = space).

(** A range that starts at the character [j] and ends after the character
    [k] of the flattened text. *)
Definition spans (segs : list TextSegment) (j k : nat) (r : MatchRange) : Prop :=
  j <= k < length (buildFullText segs)
  /\ r = rangeAt segs j (k - j + 1).

Definition isSome {A} (o : option A) : bool :=
  match o with Some _ => true | None => false end.

(** Whether a property of the style object sent to the API is present. *)
Definition textStyleHas {RgbColor} (ts : TextStyle RgbColor) (f : StyleField)
  : bool :=
  match f with
  | FBold => isSome (ts_bold ts)
  | FItalic => isSome (ts_italic ts)
  | FUnderline => isSome (ts_underline ts)
  | FStrikethrough => isSome (ts_strikethrough ts)
  | FFontSize => isSome (ts_fontSize ts)
  | FWeightedFontFamily => isSome (ts_weightedFontFamily ts)
  | FForegroundColor => isSome (ts_foregroundColor ts)
  | FBackgroundColor => isSome (ts_backgroundColor ts)
  | FLink => isSome (ts_link ts)
  end.

(** Whether an argument of the caller is defined. *)
Definition textArgGiven (style : TextStyleArgs) (f : StyleField) : bool :=
  match f with
  | FBold => isSome (bold style)
  | FItalic => isSome (italic style)
  | FUnderline => isSome (underline style)
  | FStrikethrough => isSome (strikethrough style)
  | FFontSize => isSome (fontSize style)
  | FWeightedFontFamily => isSome (fontFamily style)
  | FForegroundColor => isSome (foregroundColor style)
  | FBackgroundColor => isSome (backgroundColor style)
  | FLink => isSome (linkUrl style)
  end.

Definition allStyleFields : list StyleField :=
  [FBold; FItalic; FUnderline; FStrikethrough; FFontSize;
   FWeightedFontFamily; FForegroundColor; FBackgroundColor; FLink].

Definition paragraphStyleHas (ps : ParagraphStyle) (f : ParagraphField) : bool :=
  match f with
  | PAlignment => isSome (ps_alignment ps)
  | PIndentStart => isSome (ps_indentStart ps)
  | PIndentEnd => isSome (ps_indentEnd ps)
  | PSpaceAbove => isSome (ps_spaceAbove ps)
  | PSpaceBelow => isSome (ps_spaceBelow ps)
  | PNamedStyleType => isSome (ps_namedStyleType ps)
  | PKeepWithNext => isSome (ps_keepWithNext ps)
  end.

Definition paragraphArgGiven (style : ParagraphStyleArgs) (f : ParagraphField)
  : bool :=
  match f with
  | PAlignment => isSome (alignment style)
  | PIndentStart => isSome (indentStart style)
  | PIndentEnd => isSome (indentEnd style)
  | PSpaceAbove => isSome (spaceAbove style)
  | PSpaceBelow => isSome (spaceBelow style)
  | PNamedStyleType => isSome (namedStyleType style)
  | PKeepWithNext => isSome (keepWithNext style)
  end.

Definition allParagraphFields : list ParagraphField :=
  [PAlignment; PIndentStart; PIndentEnd; PSpaceAbove; PSpaceBelow;
   PNamedStyleType; PKeepWithNext].

(** The colour arguments that are given but are not hexadecimal colours,
    foreground first. *)
Definition badColor {RgbColor} (hexToRgbColor : jsstring -> option RgbColor)
  (style : TextStyleArgs) : bool :=
  let bad o := match o with
               | Some hex => negb (isSome (hexToRgbColor hex))
               | None => false
               end in
  bad (foregroundColor style) || bad (backgroundColor style).

(** No style argument given. *)
Definition noStyle : TextStyleArgs :=
  {| bold := None; italic := None; underline := None;
     strikethrough := None; fontSize := None; fontFamily := None;
     foregroundColor := None; backgroundColor := None; linkUrl := None |}.

Definition boldRequest : Request unit :=
  {| req_range := {| range_start := 1; range_end := 5 |};
     req_textStyle :=
       {| ts_bold := Some true; ts_italic := None; ts_underline := None;
          ts_strikethrough := None; ts_fontSize := None;
          ts_weightedFontFamily := None; ts_foregroundColor := None;
          ts_backgroundColor := None; ts_link := None |};
     req_fields := [FBold] |}.

(** [batchUpdate] calls that are all accepted, and that are all rejected
    with the given code. *)
Definition acceptingUpdates : BatchUpdate unit (DocsRequest unit) :=
  fun _ _ w => (inr tt, w).

Definition rejectingUpdates (c : Z) : BatchUpdate unit (DocsRequest unit) :=
  fun _ _ w => (inl {| code := Some c; message := [] |}, w).

Definition early : MatchRange := {| range_start := 1; range_end := 4 |}.
Definition late : MatchRange := {| range_start := 5; range_end := 8 |}.

(** * Properties *)

(** ** The normalizer *)

Ltac split_on_code c :=
  repeat first
    [ progress cbn [orb andb negb]
    | match goal with
      | |- context [N.eqb c ?k] =>
          destruct (N.eqb_spec c k);
          [first [congruence | subst c; vm_compute; auto; fail] |]
      end ].

Lemma canon_idempotent c : canon (canon c) = canon c.
Proof.
  cbv zeta beta delta [canon isApostrophe isDoubleQuote isDash apostrophe doubleQuote hyphen].
  split_on_code c. reflexivity.
Qed.

Lemma replaceClass_compose s :
  replaceClass isDash hyphen
    (replaceClass isDoubleQuote doubleQuote
       (replaceClass isApostrophe apostrophe s)) = map canon s.
Proof.
  unfold replaceClass. rewrite !map_map. reflexivity.
Qed.

Lemma collapsed_replaceRuns s : forall b,
  collapsed b (replaceRuns isWhiteSpace space b s).
Proof.
  induction s as [|c s IH]; intros b; simpl; [exact I|].
  destruct (isWhiteSpace c) eqn:Hc.
  - destruct b; [apply IH|]. simpl. repeat split. apply IH.
  - simpl. rewrite Hc. apply IH.
Qed.

Lemma replaceRuns_collapsed s : forall b,
  collapsed b s -> replaceRuns isWhiteSpace space b s = s.
Proof.
  induction s as [|c s IH]; intros b H; simpl in *; [reflexivity|].
  destruct (isWhiteSpace c).
  - destruct H as (-> & -> & H). f_equal. now apply IH.
  - f_equal. now apply IH.
Qed.

Lemma collapsed_trimStart s : forall b,
  collapsed b s -> collapsed false (trimStart s).
Proof.
  induction s as [|c s IH]; intros b H; simpl in *; [exact I|].
  destruct (isWhiteSpace c) eqn:Hc.
  - destruct H as (_ & _ & H). now apply IH with true.
  - simpl. now rewrite Hc.
Qed.

Lemma collapsed_trimEnd s : forall b,
  collapsed b s -> collapsed b (trimEnd s).
Proof.
  induction s as [|c s IH]; intros b H; simpl in *; [exact I|].
  destruct (trimEnd s) as [|d t] eqn:Ht.
  - destruct (isWhiteSpace c) eqn:Hc; simpl; [exact I | now rewrite Hc].
  - cbn [collapsed]. destruct (isWhiteSpace c).
    + destruct H as (? & ? & H). repeat split; auto. now apply IH.
    + now apply IH.
Qed.

Lemma trimEnd_idempotent s : trimEnd (trimEnd s) = trimEnd s.
Proof.
  induction s as [|c s IH]; simpl; [reflexivity|].
  destruct (trimEnd s) as [|d t] eqn:Ht.
  - destruct (isWhiteSpace c) eqn:Hc; simpl; [reflexivity | now rewrite Hc].
  - cbn [trimEnd]. cbn [trimEnd] in IH. now rewrite IH.
Qed.

Lemma trimStart_head s :
  match trimStart s with
  | [] => True
  | c :: _ => isWhiteSpace c = false
  end.
Proof.
  induction s as [|c s IH]; simpl; [exact I|].
  destruct (isWhiteSpace c) eqn:Hc; [exact IH | exact Hc].
Qed.

Lemma trimEnd_head s :
  match s with [] => True | c :: _ => isWhiteSpace c = false end ->
  match trimEnd s with [] => True | c :: _ => isWhiteSpace c = false end.
Proof.
  destruct s as [|c s]; simpl; [auto|]. intros Hc.
  destruct (trimEnd s); [now rewrite Hc | exact Hc].
Qed.

Lemma trimStart_fixed s :
  match s with [] => True | c :: _ => isWhiteSpace c = false end ->
  trimStart s = s.
Proof.
  destruct s as [|c s]; simpl; [auto|]. now intros ->.
Qed.

Lemma trim_idempotent s : trim (trim s) = trim s.
Proof.
  unfold trim.
  rewrite (trimStart_fixed (trimEnd (trimStart s))).
  - apply trimEnd_idempotent.
  - apply trimEnd_head, trimStart_head.
Qed.

(** Characters survive [replaceRuns], [trimStart] and [trimEnd] unchanged or are the space. *)
Lemma Forall_replaceRuns (P : codeUnit -> Prop) s : forall b,
  P space -> Forall P s -> Forall P (replaceRuns isWhiteSpace space b s).
Proof.
  induction s as [|c s IH]; intros b Hsp H; simpl; [constructor|].
  inversion H; subst.
  destruct (isWhiteSpace c); [destruct b|]; auto.
Qed.

Lemma Forall_trimStart (P : codeUnit -> Prop) s :
  Forall P s -> Forall P (trimStart s).
Proof.
  induction 1 as [|c s Hc H IH]; simpl; [constructor|].
  destruct (isWhiteSpace c); auto.
Qed.

Lemma Forall_trimEnd (P : codeUnit -> Prop) s :
  Forall P s -> Forall P (trimEnd s).
Proof.
  induction 1 as [|c s Hc H IH]; simpl; [constructor|].
  destruct (trimEnd s); [destruct (isWhiteSpace c)|]; auto.
Qed.

Lemma collapsed_only_spaces s : forall b,
  collapsed b s -> Forall (fun c => isWhiteSpace c = true -> c = space) s.
Proof.
  induction s as [|c s IH]; intros b H; simpl in *; constructor.
  - destruct (isWhiteSpace c); [tauto | discriminate].
  - destruct (isWhiteSpace c); [apply IH with true; tauto | now apply IH with false].
Qed.

Lemma startsWith_head p pat c s :
  c <> p -> startsWith (p :: pat) (c :: s) = false.
Proof.
  intros H. simpl. unfold cu_eqb.
  destruct (N.eqb_spec p c); [congruence | reflexivity].
Qed.

Lemma replaceLiteral_absent p pat r s :
  Forall (fun c => c <> p) s -> replaceLiteral (p :: pat) r 0 s = s.
Proof.
  induction 1 as [|c s Hc H IH]; [reflexivity|].
  cbn [replaceLiteral]. rewrite startsWith_head by exact Hc.
  now rewrite IH.
Qed.

Lemma normalizeText_short s :
  normalizeText s = trim (replaceRuns isWhiteSpace space false (map canon s)).
Proof.
  unfold normalizeText. rewrite replaceClass_compose.
  set (y := replaceRuns isWhiteSpace space false (map canon s)).
  assert (Hy : Forall (fun c => isWhiteSpace c = true -> c = space) y)
    by (apply collapsed_only_spaces with false, collapsed_replaceRuns).
  rewrite (replaceLiteral_absent 0xA0%N []).
  - rewrite replaceLiteral_absent; [reflexivity|].
    eapply Forall_impl; [|exact Hy]. intros c Hc ->. now specialize (Hc eq_refl).
  - eapply Forall_impl; [|exact Hy]. intros c Hc ->. now specialize (Hc eq_refl).
Qed.

Lemma normalizeText_fixed s :
  normalizeText (normalizeText s) = normalizeText s.
Proof.
  rewrite (normalizeText_short (normalizeText s)).
  rewrite normalizeText_short.
  set (y := replaceRuns isWhiteSpace space false (map canon s)).
  assert (Hcan : map canon (trim y) = trim y).
  { assert (H : Forall (fun c => canon c = c) (trim y)).
    { apply Forall_trimEnd, Forall_trimStart, Forall_replaceRuns; [reflexivity|].
      apply Forall_forall. intros c Hc. apply in_map_iff in Hc as (d & <- & _).
      apply canon_idempotent. }
    induction H as [|c t Hc _ IH]; simpl; congruence. }
  rewrite Hcan.
  rewrite replaceRuns_collapsed.
  - apply trim_idempotent.
  - apply collapsed_trimEnd, collapsed_trimStart with false, collapsed_replaceRuns.
Qed.

(** ** Scanning for a pattern *)

Lemma startsWith_iff pat : forall s,
  startsWith pat s = true <-> firstn (length pat) s = pat /\ length pat <= length s.
Proof.
  induction pat as [|p pat IH]; intros s; simpl.
  - split; [split; [reflexivity | lia] | reflexivity].
  - destruct s as [|c s]; simpl.
    + split; [discriminate | intros [_ H]; lia].
    + unfold cu_eqb. rewrite andb_true_iff, IH, N.eqb_eq.
      split.
      * intros (-> & -> & ?). split; [reflexivity | lia].
      * intros (H & ?). injection H as -> H. rewrite H. repeat split; auto; lia.
Qed.

Lemma startsWith_length pat s :
  startsWith pat s = true -> length pat <= length s.
Proof. intros H. now apply startsWith_iff in H. Qed.

Lemma occurrencesFrom_In pat : forall s offset i,
  In i (occurrencesFrom pat s offset) <->
  offset <= i <= offset + length s /\ startsWith pat (skipn (i - offset) s) = true.
Proof.
  induction s as [|c s IH]; intros offset i; simpl.
  - rewrite app_nil_r. destruct (startsWith pat []) eqn:E; simpl.
    + split.
      * intros [<-|[]]. rewrite Nat.sub_diag. split; [lia | exact E].
      * intros [? _]. left; lia.
    + split; [tauto|]. intros [? H]. rewrite skipn_nil in H. congruence.
  - rewrite in_app_iff, IH. split.
    + intros [H|[? H]].
      * destruct (startsWith pat (c :: s)) eqn:E; [|destruct H].
        destruct H as [<-|[]]. rewrite Nat.sub_diag. split; [lia | exact E].
      * split; [lia|]. replace (i - offset) with (S (i - S offset)) by lia. exact H.
    + intros [? H]. destruct (Nat.eq_dec i offset) as [->|Hne].
      * rewrite Nat.sub_diag in H. simpl in H. rewrite H. left; now left.
      * right. split; [lia|].
        replace (i - offset) with (S (i - S offset)) in H by lia. exact H.
Qed.

Lemma occurrencesFrom_sorted pat : forall s offset,
  StronglySorted lt (occurrencesFrom pat s offset).
Proof.
  induction s as [|c s IH]; intros offset; simpl.
  - destruct (startsWith pat []); repeat constructor.
  - destruct (startsWith pat (c :: s)); simpl; [|apply IH].
    constructor; [apply IH|]. apply Forall_forall. intros i Hi.
    apply occurrencesFrom_In in Hi. lia.
Qed.

(** What [firstOccurrence] finds is the head of the list of occurrences. *)
Lemma firstOccurrence_occurrences pat : forall s offset,
  match firstOccurrence pat s with
  | None => occurrencesFrom pat s offset = []
  | Some d =>
      d <= length s /\ startsWith pat (skipn d s) = true /\
      occurrencesFrom pat s offset =
        (offset + d) :: match skipn d s with
                        | [] => []
                        | _ :: s' => occurrencesFrom pat s' (S (offset + d))
                        end
  end.
Proof.
  induction s as [|c s IH]; intros offset.
  - simpl. destruct (startsWith pat []) eqn:E; simpl.
    + rewrite Nat.add_0_r. repeat split; auto.
    + reflexivity.
  - cbn [firstOccurrence occurrencesFrom].
    destruct (startsWith pat (c :: s)) eqn:E.
    + cbn [skipn]. rewrite Nat.add_0_r. repeat split; [simpl; lia | exact E].
    + specialize (IH (S offset)). destruct (firstOccurrence pat s) as [d|]; simpl.
      * destruct IH as (? & ? & ->). repeat split; [lia | assumption |].
        now rewrite Nat.add_succ_r.
      * exact IH.
Qed.

(** Each hit lies at or after the position the search started from, and a
    non-empty pattern is never found in the empty rest of the text. *)
Lemma indexOf_advances s pat k i :
  indexOf s pat k = Some i ->
  Nat.min k (length s) <= i /\ i + length pat <= length s.
Proof.
  unfold indexOf. intros H.
  pose proof (firstOccurrence_occurrences pat (skipn (Nat.min k (length s)) s) 0) as F.
  destruct (firstOccurrence pat (skipn (Nat.min k (length s)) s)) as [d|];
    [|discriminate].
  injection H as <-. destruct F as (Hd & Hs & _).
  apply startsWith_length in Hs. rewrite !length_skipn in *. lia.
Qed.

Lemma indexOf_past_end s pat k :
  pat <> [] -> length s < k + length pat -> indexOf s pat k = None.
Proof.
  intros Hp Hk. destruct (indexOf s pat k) as [i|] eqn:E; [|reflexivity].
  apply indexOf_advances in E. destruct pat; [congruence|]. simpl in *. lia.
Qed.

Section ScanLoop.
Context {A : Type} (s pat : jsstring) (body : nat -> list A -> list A).
Hypothesis pat_nonempty : pat <> [].

Lemma scanLoop_occurrences : forall fuel k acc,
  k <= length s -> length s - k < fuel ->
  scanLoop s pat body fuel k acc =
    Some (fold_left (fun a i => body i a) (occurrencesFrom pat (skipn k s) k) acc).
Proof.
  induction fuel as [|fuel IH]; intros k acc Hk Hf; [lia|].
  cbn [scanLoop]. unfold indexOf. rewrite Nat.min_l by exact Hk.
  pose proof (firstOccurrence_occurrences pat (skipn k s) k) as F.
  destruct (firstOccurrence pat (skipn k s)) as [d|]; simpl.
  - destruct F as (Hd & Hs & ->). rewrite skipn_skipn in *.
    rewrite (Nat.add_comm d k) in *.
    pose proof (startsWith_length _ _ Hs) as Hl. rewrite length_skipn in Hl.
    assert (0 < length pat) by (destruct pat; [congruence | simpl; lia]).
    rewrite IH by lia. cbn [fold_left]. do 2 f_equal.
    replace (k + d + 1) with (1 + (k + d)) by lia.
    rewrite <- (skipn_skipn 1 (k + d) s).
    destruct (skipn (k + d) s) eqn:E.
    + apply (f_equal (@length _)) in E. rewrite length_skipn in E. simpl in E. lia.
    + reflexivity.
  - now rewrite F.
Qed.

Lemma scanLoop_total fuel acc :
  length s < fuel ->
  scanLoop s pat body fuel 0 acc =
    Some (fold_left (fun a i => body i a) (occurrences s pat) acc).
Proof.
  intros H. rewrite scanLoop_occurrences by lia. reflexivity.
Qed.
End ScanLoop.

(** With the empty pattern the loop never leaves: [indexOf] always answers. *)
Lemma scanLoop_empty_pattern {A} s (body : nat -> list A -> list A) :
  forall fuel k acc, scanLoop s [] body fuel k acc = None.
Proof.
  induction fuel as [|fuel IH]; intros k acc; [reflexivity|].
  cbn [scanLoop]. unfold indexOf.
  destruct (skipn (Nat.min k (length s)) s); simpl; apply IH.
Qed.

Lemma fold_left_snoc {A} (l : list A) : forall acc,
  fold_left (fun a i => a ++ [i]) l acc = acc ++ l.
Proof.
  induction l as [|x l IH]; intros acc; simpl; [now rewrite app_nil_r|].
  rewrite IH, <- app_assoc. reflexivity.
Qed.

Lemma scanHits_occurrences s pat fuel :
  pat <> [] -> length s < fuel -> scanHits s pat fuel = Some (occurrences s pat).
Proof.
  intros Hp Hf. unfold scanHits. rewrite scanLoop_total by assumption.
  now rewrite fold_left_snoc.
Qed.

(** *** Stable sorting *)
Section SortFacts.
Context {A : Type} (key : A -> Z).

Lemma insertSorted_perm x l : Permutation (x :: l) (insertSorted key x l).
Proof.
  induction l as [|y l IH]; simpl; [reflexivity|].
  destruct (key x <=? key y)%Z; [reflexivity|].
  rewrite perm_swap. now constructor.
Qed.

Lemma stableSort_perm l : Permutation l (stableSort key l).
Proof.
  induction l as [|x l IH]; simpl; [constructor|].
  rewrite <- insertSorted_perm. now constructor.
Qed.

Lemma insertSorted_sorted x l :
  StronglySorted (fun a b => key a <= key b)%Z l ->
  StronglySorted (fun a b => key a <= key b)%Z (insertSorted key x l).
Proof.
  induction 1 as [|y l Hs IH Hy]; simpl; [repeat constructor|].
  destruct (Z.leb_spec (key x) (key y)).
  - constructor; [now constructor|]. constructor; [lia|].
    eapply Forall_impl; [|exact Hy]. simpl. intros; lia.
  - constructor; [exact IH|].
    rewrite <- insertSorted_perm. constructor; [lia | exact Hy].
Qed.

Lemma stableSort_sorted l :
  StronglySorted (fun a b => key a <= key b)%Z (stableSort key l).
Proof.
  induction l as [|x l IH]; simpl; [constructor|].
  now apply insertSorted_sorted.
Qed.

(** A list whose keys already increase is left as it is. *)
Lemma stableSort_increasing l :
  StronglySorted (fun a b => key a < key b)%Z l -> stableSort key l = l.
Proof.
  induction 1 as [|x l Hs IH Hx]; simpl; [reflexivity|].
  rewrite IH. destruct l as [|y l]; [reflexivity|]. simpl.
  inversion Hx; subst. destruct (Z.leb_spec (key x) (key y)); [reflexivity | lia].
Qed.
End SortFacts.

(** *** Well-formed segments in document order *)

Lemma wellFormed_NoDup segs : wellFormedSegments segs -> NoDup segs.
Proof.
  intros [Hwf Hd]. induction Hd as [|a l Ha Hd IH]; [constructor|].
  inversion Hwf as [|? ? Hwa Hwl]; subst. constructor; [|now apply IH].
  intros Hin. rewrite Forall_forall in Ha. specialize (Ha _ Hin).
  destruct Hwa. unfold disjointSegments in Ha. lia.
Qed.

Lemma sorted_disjoint_chained l :
  StronglySorted (fun a b => startIndex a <= startIndex b)%Z l ->
  NoDup l -> Forall wellFormedSegment l ->
  (forall a b, In a l -> In b l ->
               a = b \/ disjointSegments a b \/ disjointSegments b a) ->
  chained l.
Proof.
  induction 1 as [|a l Hs IH Ha]; intros Hnd Hwf Hpair; [constructor|].
  inversion Hwf as [|? ? Hwa Hwl]; subst. inversion Hnd as [|? ? Hna Hnl]; subst.
  constructor.
  - apply IH; auto. intros; apply Hpair; now right.
  - rewrite Forall_forall in *. intros b Hb.
    specialize (Ha _ Hb). specialize (Hwl _ Hb).
    destruct (Hpair a b) as [->|H]; [now left | now right | tauto |].
    destruct Hwa, Hwl. unfold disjointSegments in H. lia.
Qed.

Lemma sortSegments_chained segs :
  wellFormedSegments segs ->
  Forall wellFormedSegment (sortSegments segs) /\ chained (sortSegments segs).
Proof.
  intros Hw. pose proof (wellFormed_NoDup _ Hw) as Hnd. destruct Hw as [Hwf Hd].
  pose proof (stableSort_perm startIndex segs) as Hp.
  fold (sortSegments segs) in Hp.
  assert (Hwf' : Forall wellFormedSegment (sortSegments segs))
    by (eapply Permutation_Forall; eauto).
  split; [exact Hwf'|]. apply sorted_disjoint_chained; auto.
  - apply stableSort_sorted.
  - eapply Permutation_NoDup; eauto.
  - intros a b Ia Ib. apply (ForallOrdPairs_In Hd);
      eapply Permutation_in; try eassumption; now symmetry.
Qed.

(** *** The flattened text and its map back to native indices *)

Lemma tagChars_text text : forall s, map fst (tagChars s text) = text.
Proof. induction text as [|c t IH]; intros s; simpl; [|rewrite IH]; reflexivity. Qed.

Lemma tagged_text segs : map fst (tagged segs) = buildFullText segs.
Proof.
  unfold tagged, buildFullText. induction segs as [|seg segs IH]; simpl; [reflexivity|].
  now rewrite map_app, tagChars_text, IH.
Qed.

Lemma tagChars_origins text : forall s k,
  map (fun c => s + Z.of_nat c)%Z (seq k (length text))
  = map snd (tagChars (s + Z.of_nat k) text).
Proof.
  induction text as [|c t IH]; intros s k; simpl; [reflexivity|].
  f_equal. rewrite IH. do 2 f_equal. lia.
Qed.

Lemma segmentMappings_origins k seg :
  map originalIndex (segmentMappings k seg)
  = map snd (tagChars (startIndex seg) (text seg)).
Proof.
  unfold segmentMappings. rewrite map_map. simpl.
  rewrite tagChars_origins. do 2 f_equal. lia.
Qed.

Lemma buildCharMap_origins segs : forall k,
  map originalIndex (buildCharMap k segs) = map snd (tagged segs).
Proof.
  unfold tagged. induction segs as [|seg segs IH]; intros k; simpl; [reflexivity|].
  now rewrite !map_app, segmentMappings_origins, IH.
Qed.

Lemma length_tagged segs : length (tagged segs) = length (buildFullText segs).
Proof. now rewrite <- tagged_text, length_map. Qed.

Lemma length_charMap segs k :
  length (buildCharMap k segs) = length (buildFullText segs).
Proof.
  rewrite <- length_tagged, <- (length_map snd), <- (buildCharMap_origins segs k).
  now rewrite length_map.
Qed.

Lemma nativeIndex_tagged segs k :
  nativeIndex segs k = nth k (map snd (tagged segs)) 0%Z.
Proof.
  unfold nativeIndex. rewrite <- (buildCharMap_origins segs 0).
  destruct (nth_error (buildCharMap 0 segs) k) as [m|] eqn:E.
  - symmetry. apply nth_error_nth. now rewrite nth_error_map, E.
  - rewrite nth_error_nth_None; [reflexivity|].
    rewrite nth_error_map, E. reflexivity.
Qed.

Lemma arrayGet_nat {A} (arr : list A) (k : nat) :
  arrayGet arr (Z.of_nat k) = nth_error arr k.
Proof.
  unfold arrayGet. destruct (Z.ltb_spec (Z.of_nat k) 0); [lia|].
  now rewrite Nat2Z.id.
Qed.

Lemma charMap_lookup segs k :
  k < length (buildFullText segs) ->
  exists m, nth_error (buildCharMap 0 segs) k = Some m
            /\ originalIndex m = nativeIndex segs k.
Proof.
  intros Hk. unfold nativeIndex.
  destruct (nth_error (buildCharMap 0 segs) k) as [m|] eqn:E; [eauto|].
  apply nth_error_None in E. rewrite length_charMap in E. lia.
Qed.

(** The exact pass pushes one range per occurrence. *)
Lemma exactBody_hit segs searchText foundIndex matches :
  searchText <> [] ->
  foundIndex + length searchText <= length (buildFullText segs) ->
  exactBody segs searchText foundIndex matches
  = matches ++ [rangeAt segs foundIndex (length searchText)].
Proof.
  intros Hne Hin. unfold exactBody.
  assert (0 < length searchText) by (destruct searchText; [congruence | simpl; lia]).
  replace (Z.of_nat foundIndex + Z.of_nat (length searchText) - 1)%Z
    with (Z.of_nat (foundIndex + length searchText - 1)) by lia.
  rewrite !arrayGet_nat.
  destruct (charMap_lookup segs foundIndex) as (sm & -> & Hs); [lia|].
  destruct (charMap_lookup segs (foundIndex + length searchText - 1))
    as (em & -> & He); [lia|].
  unfold pushMapped, rangeAt. now rewrite Hs, He.
Qed.

Lemma fold_left_ext_in {A B} (f g : A -> B -> A) l : forall acc,
  (forall a x, In x l -> f a x = g a x) -> fold_left f l acc = fold_left g l acc.
Proof.
  induction l as [|x l IH]; intros acc H; simpl; [reflexivity|].
  rewrite H by now left. apply IH. intros; apply H; now right.
Qed.

Lemma fold_left_snoc_map {A B} (f : A -> B) l : forall acc,
  fold_left (fun a i => a ++ [f i]) l acc = acc ++ map f l.
Proof.
  induction l as [|x l IH]; intros acc; simpl; [now rewrite app_nil_r|].
  rewrite IH, <- app_assoc. reflexivity.
Qed.

Lemma occurrences_bound s pat i :
  In i (occurrences s pat) -> i + length pat <= length s.
Proof.
  unfold occurrences. intros H. apply occurrencesFrom_In in H as [? H].
  apply startsWith_length in H. rewrite length_skipn in H. lia.
Qed.

Lemma exactPass_occurrences segs fuel searchText :
  searchText <> [] -> length (buildFullText segs) < fuel ->
  exactPass segs fuel searchText
  = Some (map (fun i => rangeAt segs i (length searchText))
              (occurrences (buildFullText segs) searchText)).
Proof.
  intros Hne Hf. unfold exactPass. rewrite scanLoop_total by assumption.
  f_equal. rewrite <- (app_nil_l (map _ _)), <- fold_left_snoc_map.
  apply fold_left_ext_in. intros a i Hi.
  apply exactBody_hit; [assumption|]. now apply occurrences_bound.
Qed.

(** *** Extracting a range *)

Lemma tagChars_filter text : forall s lo hi,
  map fst (filter (inRange lo hi) (tagChars s text))
  = firstn (Z.to_nat (hi - s) - Z.to_nat (lo - s))
           (skipn (Z.to_nat (lo - s)) text).
Proof.
  induction text as [|c t IH]; intros s lo hi.
  - simpl. now rewrite skipn_nil, firstn_nil.
  - cbn [tagChars filter]. unfold inRange at 1. cbn [snd].
    specialize (IH (s + 1)%Z lo hi).
    destruct (Z.leb_spec lo s); destruct (Z.ltb_spec s hi); cbn [andb map fst].
    + rewrite IH. replace (Z.to_nat (lo - s)) with 0 by lia.
      replace (Z.to_nat (lo - (s + 1))) with 0 by lia. cbn [skipn].
      rewrite !Nat.sub_0_r.
      replace (Z.to_nat (hi - s)) with (S (Z.to_nat (hi - (s + 1)))) by lia.
      reflexivity.
    + rewrite IH. replace (Z.to_nat (hi - (s + 1))) with 0 by lia.
      replace (Z.to_nat (hi - s)) with 0 by lia. reflexivity.
    + rewrite IH.
      replace (Z.to_nat (lo - s)) with (S (Z.to_nat (lo - (s + 1)))) by lia.
      cbn [skipn]. f_equal. lia.
    + rewrite IH. replace (Z.to_nat (hi - (s + 1))) with 0 by lia.
      replace (Z.to_nat (hi - s)) with 0 by lia. reflexivity.
Qed.

Lemma firstn_eq_min {A} (l : list A) a b :
  Nat.min a (length l) = Nat.min b (length l) -> firstn a l = firstn b l.
Proof.
  intros H. destruct (Nat.le_gt_cases a (length l)), (Nat.le_gt_cases b (length l)).
  - f_equal. lia.
  - rewrite (firstn_all2 (n := b)) by lia.
    replace a with (length l) by lia. apply firstn_all.
  - rewrite (firstn_all2 (n := a)) by lia.
    replace b with (length l) by lia. symmetry. apply firstn_all.
  - rewrite !firstn_all2 by lia. reflexivity.
Qed.

Lemma segment_extract seg lo hi :
  wellFormedSegment seg -> (lo <= hi)%Z ->
  (if ((startIndex seg <? hi) && (lo <? endIndex seg))%Z
   then substring (text seg)
          (Z.max (startIndex seg) lo - startIndex seg)
          (Z.min (endIndex seg) hi - startIndex seg)
   else [])
  = map fst (filter (inRange lo hi) (tagChars (startIndex seg) (text seg))).
Proof.
  intros [Hlen Hne] Hle. rewrite tagChars_filter.
  destruct (Z.ltb_spec (startIndex seg) hi); destruct (Z.ltb_spec lo (endIndex seg));
    cbn [andb].
  - unfold substring. cbv zeta.
    replace (Z.to_nat (Z.min _ _)) with (Z.to_nat (lo - startIndex seg)) by lia.
    apply firstn_eq_min. rewrite length_skipn. lia.
  - rewrite skipn_all2 by lia. now rewrite firstn_nil.
  - replace (Z.to_nat (hi - startIndex seg)) with 0 by lia. reflexivity.
  - replace (Z.to_nat (hi - startIndex seg)) with 0 by lia. reflexivity.
Qed.

Lemma extract_tagged segs lo hi :
  Forall wellFormedSegment segs -> (lo <= hi)%Z ->
  extractTextFromRange segs lo hi = map fst (filter (inRange lo hi) (tagged segs)).
Proof.
  intros Hwf Hle. unfold extractTextFromRange, tagged.
  induction Hwf as [|seg segs Hseg _ IH]; [reflexivity|].
  cbn [flat_map]. rewrite filter_app, map_app, IH. f_equal.
  now apply segment_extract.
Qed.

(** *** Native indices increase along the flattened text *)

Lemma tagChars_bounds text : forall s,
  Forall (fun o => s <= o < s + Z.of_nat (length text))%Z (map snd (tagChars s text)).
Proof.
  induction text as [|c t IH]; intros s; simpl; constructor; [lia|].
  eapply Forall_impl; [|apply IH]. simpl. intros; lia.
Qed.

Lemma tagChars_sorted text : forall s,
  StronglySorted Z.lt (map snd (tagChars s text)).
Proof.
  induction text as [|c t IH]; intros s; simpl; constructor; [apply IH|].
  eapply Forall_impl; [|apply tagChars_bounds]. simpl. intros; lia.
Qed.

Lemma StronglySorted_app {A} (R : A -> A -> Prop) l1 l2 :
  StronglySorted R l1 -> StronglySorted R l2 ->
  (forall x y, In x l1 -> In y l2 -> R x y) ->
  StronglySorted R (l1 ++ l2).
Proof.
  induction 1 as [|x l1 Hs IH Hx]; intros H2 Hc; simpl; [exact H2|].
  constructor.
  - apply IH; [exact H2|]. intros; apply Hc; [now right | assumption].
  - apply Forall_app. split; [exact Hx|].
    apply Forall_forall. intros y Hy. apply Hc; [now left | exact Hy].
Qed.

Lemma tagged_sorted segs :
  Forall wellFormedSegment segs -> chained segs ->
  StronglySorted Z.lt (map snd (tagged segs)).
Proof.
  intros Hwf Hch. unfold tagged.
  induction Hch as [|seg segs Hch IH Hseg]; [constructor|].
  inversion Hwf as [|? ? [Hlen _] Hwf']; subst.
  cbn [flat_map]. rewrite map_app. apply StronglySorted_app.
  - apply tagChars_sorted.
  - now apply IH.
  - intros x y Hx Hy.
    pose proof (tagChars_bounds (text seg) (startIndex seg)) as Hb.
    rewrite Forall_forall in Hb. specialize (Hb _ Hx).
    apply in_map_iff in Hy as ([c o] & <- & Hy).
    apply in_flat_map in Hy as (seg' & Hin & Hy).
    rewrite Forall_forall in Hseg. specialize (Hseg _ Hin).
    pose proof (tagChars_bounds (text seg') (startIndex seg')) as Hb'.
    rewrite Forall_forall in Hb'.
    specialize (Hb' o (in_map snd _ _ Hy)). simpl. lia.
Qed.

Lemma sorted_nth_lt (o : list Z) :
  StronglySorted Z.lt o ->
  forall j k, j < k -> k < length o -> (nth j o 0 < nth k o 0)%Z.
Proof.
  induction 1 as [|x o Hs IH Hx]; intros j k Hjk Hk; simpl in Hk; [lia|].
  destruct k as [|k]; [lia|]. destruct j as [|j]; simpl.
  - rewrite Forall_forall in Hx. apply Hx, nth_In. lia.
  - apply IH; lia.
Qed.

(** A predicate that holds exactly on the positions [i, i+n) selects that slice. *)
Lemma filter_slice {A} (P : A -> bool) (d : A) (l : list A) : forall i n,
  (forall p, p < length l -> P (nth p l d) = (i <=? p) && (p <? i + n)) ->
  filter P l = firstn n (skipn i l).
Proof.
  induction l as [|x l IH]; intros i n H.
  - now rewrite skipn_nil, firstn_nil.
  - pose proof (H 0 ltac:(simpl; lia)) as H0. cbn [nth] in H0.
    assert (Hstep : forall i' n', (forall p, (S i' <=? S p) && (S p <? S i' + n')
                                   = (i' <=? p) && (p <? i' + n'))).
    { intros. apply eq_true_iff_eq.
      rewrite !andb_true_iff, !Nat.leb_le, !Nat.ltb_lt. lia. }
    cbn [filter]. rewrite H0. destruct i as [|i]; [destruct n as [|n]|].
    + cbn. apply (IH 0 0). intros p Hp. specialize (H (S p) ltac:(simpl; lia)).
      cbn [nth] in H. rewrite H. apply eq_true_iff_eq.
      rewrite !andb_true_iff, !Nat.leb_le, !Nat.ltb_lt. lia.
    + cbn. f_equal. apply (IH 0 n). intros p Hp.
      specialize (H (S p) ltac:(simpl; lia)).
      cbn [nth] in H. rewrite H. apply eq_true_iff_eq.
      rewrite !andb_true_iff, !Nat.leb_le, !Nat.ltb_lt. lia.
    + cbn. apply (IH i n). intros p Hp. specialize (H (S p) ltac:(simpl; lia)).
      cbn [nth] in H. rewrite H. apply Hstep.
Qed.

Lemma nativeIndex_increasing segs j k :
  Forall wellFormedSegment segs -> chained segs ->
  j < k -> k < length (buildFullText segs) ->
  (nativeIndex segs j < nativeIndex segs k)%Z.
Proof.
  intros Hwf Hch Hjk Hk. rewrite !nativeIndex_tagged.
  apply sorted_nth_lt; [now apply tagged_sorted | assumption |].
  now rewrite length_map, length_tagged.
Qed.

(** The text of the range that covers the positions [i, i+n) of the
    flattened text is that slice. *)
Lemma extract_rangeAt segs i n :
  Forall wellFormedSegment segs -> chained segs ->
  0 < n -> i + n <= length (buildFullText segs) ->
  extractTextFromRange segs (range_start (rangeAt segs i n))
                       (range_end (rangeAt segs i n))
  = firstn n (skipn i (buildFullText segs)).
Proof.
  intros Hwf Hch Hn Hin. cbn [rangeAt range_start range_end].
  assert (Hmono : forall j k, j <= k -> k < length (buildFullText segs) ->
                   (nativeIndex segs j <= nativeIndex segs k)%Z).
  { intros j k Hjk Hk. destruct (Nat.eq_dec j k) as [->|]; [lia|].
    apply Z.lt_le_incl, nativeIndex_increasing; auto; lia. }
  rewrite extract_tagged; [|assumption|].
  2:{ specialize (Hmono i (i + n - 1)). lia. }
  rewrite <- tagged_text, skipn_map, firstn_map. f_equal.
  apply filter_slice with (d := (0%N, 0%Z)). intros p Hp.
  rewrite length_tagged in Hp.
  unfold inRange. rewrite <- (map_nth snd). cbn [snd].
  rewrite <- !nativeIndex_tagged.
  apply eq_true_iff_eq.
  rewrite !andb_true_iff, Z.leb_le, Z.ltb_lt, Nat.leb_le, Nat.ltb_lt.
  assert (Hlt : forall j k, j < k -> k < length (buildFullText segs) ->
                 (nativeIndex segs j < nativeIndex segs k)%Z)
    by (intros; now apply nativeIndex_increasing).
  destruct (Nat.lt_trichotomy p i) as [H|[->|H]].
  - specialize (Hlt p i). lia.
  - specialize (Hmono i (i + n - 1)). lia.
  - destruct (Nat.lt_trichotomy p (i + n - 1)) as [H'|[->|H']].
    + pose proof (Hlt i p). pose proof (Hlt p (i + n - 1)). lia.
    + pose proof (Hmono i (i + n - 1)). lia.
    + pose proof (Hlt (i + n - 1) p). lia.
Qed.

(** *** Removing duplicates and selecting the instance *)

Lemma key_eqb_eq a b : key_eqb a b = true <-> a = b.
Proof.
  unfold key_eqb. destruct a, b. simpl.
  rewrite andb_true_iff, !Z.eqb_eq. split; [intros []; congruence | intros [= -> ->]; auto].
Qed.

Lemma rangeKey_inj a b : rangeKey a = rangeKey b -> a = b.
Proof. destruct a, b. unfold rangeKey. simpl. congruence. Qed.

Lemma mapSet_fresh (m : list ((Z * Z) * MatchRange)) k v :
  ~ In k (map fst m) -> mapSet key_eqb m k v = m ++ [(k, v)].
Proof.
  induction m as [|[k' v'] m IH]; intros H; simpl; [reflexivity|].
  destruct (key_eqb k' k) eqn:E.
  - apply key_eqb_eq in E. subst. destruct H. now left.
  - rewrite IH; [reflexivity|]. intros Hin. apply H. now right.
Qed.

Lemma mapSet_present m r :
  Forall (fun kv => fst kv = rangeKey (snd kv)) m ->
  In (rangeKey r) (map fst m) ->
  mapSet key_eqb m (rangeKey r) r = m.
Proof.
  induction 1 as [|[k' v'] m Hkv _ IH]; intros Hin; [destruct Hin|].
  simpl in *. destruct (key_eqb k' (rangeKey r)) eqn:E.
  - apply key_eqb_eq in E. subst k'. apply rangeKey_inj in E. now subst.
  - f_equal. apply IH. destruct Hin as [->|]; [|assumption].
    assert (key_eqb (rangeKey r) (rangeKey r) = true) by now apply key_eqb_eq.
    congruence.
Qed.

Lemma setAll_fresh l : forall acc,
  NoDup (map fst acc ++ map rangeKey l) ->
  setAll (map entryOf l) acc = acc ++ map entryOf l.
Proof.
  induction l as [|r l IH]; intros acc H; simpl; [now rewrite app_nil_r|].
  rewrite mapSet_fresh.
  - rewrite IH; [now rewrite <- app_assoc|].
    rewrite map_app, <- app_assoc. exact H.
  - apply NoDup_remove_2 in H. intros Hin. apply H, in_app_iff. now left.
Qed.

Lemma setAll_present l : forall acc,
  Forall (fun kv => fst kv = rangeKey (snd kv)) acc ->
  (forall r, In r l -> In (rangeKey r) (map fst acc)) ->
  setAll (map entryOf l) acc = acc.
Proof.
  induction l as [|r l IH]; intros acc Hacc H; simpl; [reflexivity|].
  rewrite mapSet_present; auto. apply IH; auto.
  - intros; apply H; now right.
  - apply H; now left.
Qed.

Lemma entryOf_keys l : map fst (map entryOf l) = map rangeKey l.
Proof. now rewrite map_map. Qed.

Lemma entryOf_values l : map snd (map entryOf l) = l.
Proof. rewrite map_map. apply map_id. Qed.

Lemma uniqueRanges_setAll l :
  uniqueRanges l = map snd (setAll (map entryOf l) []).
Proof. reflexivity. Qed.

Lemma uniqueRanges_distinct l :
  NoDup (map rangeKey l) -> uniqueRanges l = l.
Proof.
  intros H. rewrite uniqueRanges_setAll, setAll_fresh by exact H.
  apply entryOf_values.
Qed.

Lemma uniqueRanges_twice l :
  NoDup (map rangeKey l) -> uniqueRanges (l ++ l) = l.
Proof.
  intros H. rewrite uniqueRanges_setAll, map_app. unfold setAll.
  rewrite fold_left_app. fold (setAll (map entryOf l) []).
  rewrite (setAll_fresh l []) by exact H. cbn [app].
  fold (setAll (map entryOf l) (map entryOf l)).
  rewrite setAll_present; [apply entryOf_values | |].
  - apply Forall_forall. intros kv Hkv. apply in_map_iff in Hkv as (r & <- & _).
    reflexivity.
  - intros r Hr. rewrite entryOf_keys. now apply in_map.
Qed.

Lemma increasingStarts_NoDup l : increasingStarts l -> NoDup (map rangeKey l).
Proof.
  induction 1 as [|r l Hs IH Hr]; simpl; constructor; [|exact IH].
  intros Hin. apply in_map_iff in Hin as (r' & Hk & Hin).
  rewrite Forall_forall in Hr. specialize (Hr _ Hin).
  apply rangeKey_inj in Hk. subst. lia.
Qed.

Lemma selectInstance_increasing l instance :
  increasingStarts l ->
  selectInstance l instance
  = if (instance <=? Z.of_nat (length l))%Z then arrayGet l (instance - 1) else None.
Proof.
  intros H. unfold selectInstance, sortRanges.
  rewrite uniqueRanges_distinct by now apply increasingStarts_NoDup.
  now rewrite stableSort_increasing.
Qed.

Lemma selectInstance_twice l instance :
  increasingStarts l ->
  selectInstance (l ++ l) instance = selectInstance l instance.
Proof.
  intros H. unfold selectInstance.
  rewrite uniqueRanges_twice, uniqueRanges_distinct;
    auto using increasingStarts_NoDup.
Qed.

Lemma mapSet_keyed m r :
  keyed m -> keyed (mapSet key_eqb m (rangeKey r) r).
Proof.
  induction 1 as [|[k v] m Hk Hm IH]; simpl.
  - repeat constructor.
  - destruct (key_eqb k (rangeKey r)) eqn:E.
    + apply key_eqb_eq in E. constructor; [simpl; congruence | exact Hm].
    + constructor; assumption.
Qed.

Lemma mapSet_keys m r :
  keyed m ->
  map fst (mapSet key_eqb m (rangeKey r) r)
  = if existsb (key_eqb (rangeKey r)) (map fst m)
    then map fst m else map fst m ++ [rangeKey r].
Proof.
  induction 1 as [|[k v] m Hk _ IH]; simpl; [reflexivity|].
  destruct (key_eqb k (rangeKey r)) eqn:E.
  - apply key_eqb_eq in E. subst k.
    replace (key_eqb (rangeKey r) (rangeKey r)) with true
      by (symmetry; now apply key_eqb_eq).
    reflexivity.
  - replace (key_eqb (rangeKey r) k) with false.
    + simpl. rewrite IH. now destruct (existsb _ _).
    + symmetry. destruct (key_eqb (rangeKey r) k) eqn:E'; [|reflexivity].
      apply key_eqb_eq in E'. subst k.
      assert (key_eqb (rangeKey r) (rangeKey r) = true) by now apply key_eqb_eq.
      congruence.
Qed.

Lemma existsb_key k keys :
  existsb (key_eqb k) keys = true <-> In k keys.
Proof.
  rewrite existsb_exists. split.
  - intros (x & Hx & E). apply key_eqb_eq in E. now subst.
  - intros H. exists k. split; [assumption | now apply key_eqb_eq].
Qed.

Lemma setAll_invariant l : forall acc,
  keyed acc -> NoDup (map fst acc) ->
  keyed (setAll (map entryOf l) acc)
  /\ NoDup (map fst (setAll (map entryOf l) acc))
  /\ (forall k, In k (map fst (setAll (map entryOf l) acc))
                <-> In k (map fst acc) \/ In k (map rangeKey l)).
Proof.
  induction l as [|r l IH]; intros acc Hk Hnd; simpl.
  - repeat split; auto. intros [H|[]]; exact H.
  - pose proof (mapSet_keyed acc r Hk) as Hk'.
    pose proof (mapSet_keys acc r Hk) as Hkeys.
    assert (Hnd' : NoDup (map fst (mapSet key_eqb acc (rangeKey r) r))).
    { rewrite Hkeys. destruct (existsb _ _) eqn:E; [assumption|].
      apply NoDup_app; [assumption | repeat constructor; auto |].
      intros k Hin [<-|[]].
      apply existsb_key in Hin. congruence. }
    destruct (IH _ Hk' Hnd') as (H1 & H2 & H3).
    repeat split; auto.
    + intros Hin. apply H3 in Hin as [Hin|Hin]; [|auto].
      rewrite Hkeys in Hin. destruct (existsb _ _); [auto|].
      apply in_app_iff in Hin as [Hin|[<-|[]]]; auto.
    + intros Hin. apply H3. rewrite Hkeys.
      destruct (existsb (key_eqb (rangeKey r)) (map fst acc)) eqn:E.
      * apply existsb_key in E. destruct Hin as [Hin|[<-|Hin]]; auto.
      * rewrite in_app_iff. simpl. destruct Hin as [Hin|[<-|Hin]]; auto.
Qed.

Lemma keyed_values m : keyed m -> map rangeKey (map snd m) = map fst m.
Proof.
  induction 1 as [|kv m Hk _ IH]; simpl; [reflexivity|]. now rewrite IH, Hk.
Qed.

Lemma NoDup_map_inv' {A B} (f : A -> B) l : NoDup (map f l) -> NoDup l.
Proof.
  induction l as [|x l IH]; simpl; intros H; constructor; inversion H; subst.
  - intros Hin. apply H2. now apply in_map.
  - now apply IH.
Qed.

Lemma NoDup_rangeKeys l : NoDup l -> NoDup (map rangeKey l).
Proof.
  induction 1 as [|r l Hr _ IH]; simpl; constructor; [|exact IH].
  intros Hin. apply in_map_iff in Hin as (r' & E & Hr').
  apply rangeKey_inj in E. now subst.
Qed.

Lemma uniqueRanges_facts l :
  NoDup (map rangeKey (uniqueRanges l))
  /\ (forall r, In r (uniqueRanges l) <-> In r l).
Proof.
  rewrite uniqueRanges_setAll.
  destruct (setAll_invariant l [] (Forall_nil _) (NoDup_nil _)) as (Hk & Hnd & Hin).
  rewrite (keyed_values _ Hk). split; [exact Hnd|].
  intros r. split.
  - intros H. assert (Hkey : In (rangeKey r) (map fst (setAll (map entryOf l) []))).
    { rewrite <- (keyed_values _ Hk). now apply in_map. }
    apply Hin in Hkey as [[]|Hkey].
    apply in_map_iff in Hkey as (r' & E & Hr'). apply rangeKey_inj in E. now subst.
  - intros H. assert (Hkey : In (rangeKey r) (map fst (setAll (map entryOf l) [])))
      by (apply Hin; right; now apply in_map).
    rewrite <- (keyed_values _ Hk) in Hkey.
    apply in_map_iff in Hkey as (r' & E & Hr'). apply rangeKey_inj in E. now subst.
Qed.

Lemma selectInstance_member l instance r :
  selectInstance l instance = Some r -> In r l.
Proof.
  unfold selectInstance, sortRanges, arrayGet. intros H.
  destruct (instance <=? _)%Z; [|discriminate].
  destruct (instance - 1 <? 0)%Z; [discriminate|].
  apply nth_error_In in H.
  apply (Permutation_in _ (Permutation_sym (stableSort_perm range_start _))) in H.
  now apply uniqueRanges_facts.
Qed.

Lemma selectInstance_nth l instance r :
  selectInstance l instance = Some r ->
  (1 <= instance)%Z
  /\ nth_error (sortRanges (uniqueRanges l)) (Z.to_nat (instance - 1)) = Some r.
Proof.
  unfold selectInstance, arrayGet. intros H.
  destruct (instance <=? _)%Z; [|discriminate].
  destruct (Z.ltb_spec (instance - 1) 0); [discriminate|]. split; [lia | exact H].
Qed.

Lemma sorted_nth_le {A} (key : A -> Z) l :
  StronglySorted (fun a b => key a <= key b)%Z l ->
  forall j k a b, j <= k -> nth_error l j = Some a -> nth_error l k = Some b ->
                  (key a <= key b)%Z.
Proof.
  induction 1 as [|x l Hs IH Hx]; intros j k a b Hjk Ha Hb.
  - destruct j; discriminate.
  - destruct j as [|j], k as [|k]; simpl in *; try lia.
    + injection Ha as <-. injection Hb as <-. lia.
    + injection Ha as <-. rewrite Forall_forall in Hx.
      apply Hx. eapply nth_error_In; eauto.
    + eapply (IH j k); eauto. lia.
Qed.

(** *** The ranges of the exact pass *)

Lemma map_sorted {A B} (R : A -> A -> Prop) (S : B -> B -> Prop) (f : A -> B) l :
  (forall x y, In x l -> In y l -> R x y -> S (f x) (f y)) ->
  StronglySorted R l -> StronglySorted S (map f l).
Proof.
  intros HRS H. induction H as [|x l Hs IH Hx]; simpl; constructor.
  - apply IH. intros; apply HRS; auto; now right.
  - apply Forall_forall. intros y Hy. apply in_map_iff in Hy as (z & <- & Hz).
    rewrite Forall_forall in Hx. apply HRS; [now left | now right | auto].
Qed.

Lemma exact_ranges_increasing segs pat :
  Forall wellFormedSegment segs -> chained segs -> pat <> [] ->
  increasingStarts (map (fun i => rangeAt segs i (length pat))
                        (occurrences (buildFullText segs) pat)).
Proof.
  intros Hwf Hch Hne. eapply map_sorted; [|apply occurrencesFrom_sorted].
  intros i j Hi Hj Hij. cbn [rangeAt range_start].
  apply nativeIndex_increasing; auto.
  apply occurrences_bound in Hj. destruct pat; [congruence | simpl in Hj; lia].
Qed.

Lemma occurrence_text s pat i :
  In i (occurrences s pat) -> firstn (length pat) (skipn i s) = pat.
Proof.
  unfold occurrences. intros H. apply occurrencesFrom_In in H as [_ H].
  rewrite Nat.sub_0_r in H. now apply startsWith_iff in H.
Qed.

(** *** The search on a fetched document *)

Lemma findTextRange_fetched World RgbColor (docs : Docs World RgbColor)
  documentId w res w' fuel textToFind instance :
  documents_get docs documentId w = (inr res, w') ->
  findTextRange fuel docs documentId textToFind instance w
  = (match searchContent fuel (bodyContent res) textToFind instance with
     | Some r => Returns r
     | None => StillRunning
     end, w').
Proof. intros H. unfold findTextRange, ofOption. now rewrite H. Qed.

Lemma findValidatedMatches_exact segs fuel pat :
  pat <> [] -> length (buildFullText segs) < fuel ->
  occurrences (buildFullText segs) pat <> [] ->
  findValidatedMatches segs fuel pat = Some (exactRanges segs pat, [ExactPass pat]).
Proof.
  intros Hne Hf Hocc. unfold findValidatedMatches.
  rewrite exactPass_occurrences by assumption. fold (exactRanges segs pat).
  unfold exactRanges at 1. rewrite length_map.
  destruct (occurrences (buildFullText segs) pat); [congruence | reflexivity].
Qed.

Lemma exactRanges_length segs Q :
  length (exactRanges segs Q) = length (occurrences (buildFullText segs) Q).
Proof. unfold exactRanges. now rewrite length_map. Qed.

Lemma exactRanges_increasing content Q :
  wellFormedSegments (extractTextFromContent content) -> Q <> [] ->
  increasingStarts
    (exactRanges (sortSegments (extractTextFromContent content)) Q).
Proof.
  intros wf HQ. destruct (sortSegments_chained _ wf).
  now apply exact_ranges_increasing.
Qed.

Lemma occurrences_nonempty s Q :
  1 <= length (occurrences s Q) -> occurrences s Q <> [].
Proof. destruct (occurrences s Q); simpl; [lia | discriminate]. Qed.

Lemma searchContent_within content Q fuel k :
  wellFormedSegments (extractTextFromContent content) -> Q <> [] ->
  length (buildFullText (sortSegments (extractTextFromContent content))) < fuel ->
  1 <= k <= length (occurrences
                      (buildFullText (sortSegments (extractTextFromContent content)))
                      Q) ->
  searchContent fuel (Some content) Q (Z.of_nat k)
  = Some (nth_error (exactRanges (sortSegments (extractTextFromContent content)) Q)
                    (k - 1)).
Proof.
  intros wf HQ Hf Hk. unfold searchContent, searchVariants.
  cbn [tryVariants]. rewrite findValidatedMatches_exact; auto.
  2:{ apply occurrences_nonempty. lia. }
  cbn [app]. rewrite exactRanges_length.
  destruct (Z.leb_spec (Z.of_nat k)
              (Z.of_nat (length (occurrences
                 (buildFullText (sortSegments (extractTextFromContent content))) Q))));
    [|lia].
  rewrite selectInstance_increasing by now apply exactRanges_increasing.
  rewrite exactRanges_length.
  destruct (Z.leb_spec (Z.of_nat k)
              (Z.of_nat (length (occurrences
                 (buildFullText (sortSegments (extractTextFromContent content))) Q))));
    [|lia].
  replace (Z.of_nat k - 1)%Z with (Z.of_nat (k - 1)) by lia.
  now rewrite arrayGet_nat.
Qed.

Lemma searchContent_beyond content Q fuel :
  wellFormedSegments (extractTextFromContent content) -> Q <> [] ->
  length (buildFullText (sortSegments (extractTextFromContent content))) < fuel ->
  1 <= length (occurrences
                 (buildFullText (sortSegments (extractTextFromContent content))) Q) ->
  normalizeText Q = Q ->
  searchContent fuel (Some content) Q
    (Z.of_nat (length (occurrences
                 (buildFullText (sortSegments (extractTextFromContent content))) Q)
               + 1))
  = Some None.
Proof.
  intros wf HQ Hf HN Hnorm. unfold searchContent, searchVariants.
  cbn [tryVariants]. rewrite Hnorm.
  rewrite findValidatedMatches_exact; auto using occurrences_nonempty.
  cbn [app]. rewrite length_app, exactRanges_length.
  set (N := length (occurrences _ Q)) in *.
  destruct (Z.leb_spec (Z.of_nat (N + 1)) (Z.of_nat N)); [lia|].
  destruct (Z.leb_spec (Z.of_nat (N + 1)) (Z.of_nat (N + N))); [|lia].
  rewrite selectInstance_twice by now apply exactRanges_increasing.
  rewrite selectInstance_increasing by now apply exactRanges_increasing.
  rewrite exactRanges_length. fold N.
  destruct (Z.leb_spec (Z.of_nat (N + 1)) (Z.of_nat N)); [lia | reflexivity].
Qed.

Lemma exactRanges_text content Q r :
  wellFormedSegments (extractTextFromContent content) -> Q <> [] ->
  In r (exactRanges (sortSegments (extractTextFromContent content)) Q) ->
  extractTextFromRange (sortSegments (extractTextFromContent content))
                       (range_start r) (range_end r) = Q.
Proof.
  intros wf HQ Hr. apply in_map_iff in Hr as (i & <- & Hi).
  destruct (sortSegments_chained _ wf) as [Hwf Hch].
  rewrite (extract_rangeAt _ _ _ Hwf Hch).
  - now apply occurrence_text.
  - destruct Q; [congruence | simpl; lia].
  - now apply occurrences_bound.
Qed.

(** C1.  In a document whose segments are well formed, a non-empty query
    that occurs exactly once in the flattened text is found by
    [findTextRange] at instance 1, and the text extracted from the segments
    for the returned native range is the query. *)
Theorem findTextRange_unique_occurrence
  World RgbColor (docs : Docs World RgbColor) documentId w res w' content Q fuel :
  documents_get docs documentId w = (inr res, w') ->
  bodyContent res = Some content ->
  wellFormedSegments (extractTextFromContent content) ->
  Q <> [] ->
  length (occurrences
            (buildFullText (sortSegments (extractTextFromContent content))) Q) = 1 ->
  length (buildFullText (sortSegments (extractTextFromContent content))) < fuel ->
  exists foundIndex r,
    occurrences (buildFullText (sortSegments (extractTextFromContent content))) Q
    = [foundIndex]
    /\ findTextRange fuel docs documentId Q 1 w = (Returns (Some r), w')
    /\ range_start r
       = nativeIndex (sortSegments (extractTextFromContent content)) foundIndex
    /\ range_end r
       = (nativeIndex (sortSegments (extractTextFromContent content))
                      (foundIndex + length Q - 1) + 1)%Z
    /\ extractTextFromRange (sortSegments (extractTextFromContent content))
         (range_start r) (range_end r) = Q.
Proof.
  intros Hget Hbody Hwf HQ Hocc Hfuel.
  rewrite (findTextRange_fetched _ _ _ _ _ _ _ _ _ _ Hget), Hbody.
  change 1%Z with (Z.of_nat 1).
  rewrite searchContent_within; auto; [|lia].
  pose proof (exactRanges_text content Q) as Htext.
  unfold exactRanges in *.
  destruct (occurrences _ Q) as [|i [|j l]]; try discriminate.
  exists i, (rangeAt (sortSegments (extractTextFromContent content)) i (length Q)).
  repeat split. apply Htext; auto. now left.
Qed.

(** C3, as amended.  In a document whose segments are well formed, a
    non-empty query with N occurrences in the flattened text is found at
    every instance from 1 to N, the k-th result being the k-th entry of a
    list of N ranges whose start indices increase strictly.  At instance
    N + 1 the result is [null] when N is at least 1 and the query is
    already normalized; otherwise later variants or the normalized pass
    may still supply a range. *)
Theorem findTextRange_instances
  World RgbColor (docs : Docs World RgbColor) documentId w res w' content Q fuel :
  documents_get docs documentId w = (inr res, w') ->
  bodyContent res = Some content ->
  wellFormedSegments (extractTextFromContent content) ->
  Q <> [] ->
  length (buildFullText (sortSegments (extractTextFromContent content))) < fuel ->
  let N := length (occurrences
                     (buildFullText (sortSegments (extractTextFromContent content))) Q) in
  exists ranges,
    length ranges = N
    /\ (forall k, 1 <= k <= N ->
          exists r, nth_error ranges (k - 1) = Some r
                    /\ findTextRange fuel docs documentId Q (Z.of_nat k) w
                       = (Returns (Some r), w'))
    /\ (forall j k rj rk, j < k ->
          nth_error ranges j = Some rj -> nth_error ranges k = Some rk ->
          (range_start rj < range_start rk)%Z)
    /\ (1 <= N -> normalizeText Q = Q ->
        findTextRange fuel docs documentId Q (Z.of_nat (N + 1)) w
        = (Returns None, w')).
Proof.
  intros Hget Hbody Hwf HQ Hfuel N.
  exists (exactRanges (sortSegments (extractTextFromContent content)) Q).
  split; [apply exactRanges_length|]. split; [|split].
  - intros k Hk.
    rewrite (findTextRange_fetched _ _ _ _ _ _ _ _ _ _ Hget), Hbody.
    rewrite searchContent_within; auto.
    destruct (nth_error _ (k - 1)) as [r|] eqn:E; [eauto|].
    apply nth_error_None in E. rewrite exactRanges_length in E. fold N in E. lia.
  - intros j k rj rk Hjk Hj Hk.
    pose proof (exactRanges_increasing content Q Hwf HQ) as Hs.
    revert j k rj rk Hjk Hj Hk.
    induction Hs as [|x l Hs IH Hx]; intros j k rj rk Hjk Hj Hk.
    + destruct j; discriminate.
    + destruct k as [|k]; [lia|]. destruct j as [|j]; simpl in *.
      * injection Hj as <-. rewrite Forall_forall in Hx.
        apply Hx. eapply nth_error_In; eauto.
      * apply (IH j k rj rk); [lia | assumption | assumption].
  - intros HN Hnorm.
    rewrite (findTextRange_fetched _ _ _ _ _ _ _ _ _ _ Hget), Hbody.
    unfold N. rewrite searchContent_beyond; auto.
Qed.

(** *** Lengths under normalization *)

Lemma length_replaceRuns class r s : forall b,
  length (replaceRuns class r b s) <= length s.
Proof.
  induction s as [|c s IH]; intros b; simpl; [lia|].
  destruct (class c); [destruct b|]; simpl;
    [specialize (IH true) | specialize (IH true) | specialize (IH false)]; lia.
Qed.

Lemma length_trimStart s : length (trimStart s) <= length s.
Proof.
  induction s as [|c s IH]; simpl; [lia|]. destruct (isWhiteSpace c); simpl; lia.
Qed.

Lemma length_trimEnd s : length (trimEnd s) <= length s.
Proof.
  induction s as [|c s IH]; simpl; [lia|].
  destruct (trimEnd s); [destruct (isWhiteSpace c)|]; simpl in *; lia.
Qed.

Lemma length_normalizeText s : length (normalizeText s) <= length s.
Proof.
  rewrite normalizeText_short. unfold trim.
  pose proof (length_trimEnd (trimStart (replaceRuns isWhiteSpace space false (map canon s)))).
  pose proof (length_trimStart (replaceRuns isWhiteSpace space false (map canon s))).
  pose proof (length_replaceRuns isWhiteSpace space (map canon s) false).
  rewrite length_map in *. lia.
Qed.

Lemma canon_standardize c :
  canon (if isApostrophe c then apostrophe else c) = canon c.
Proof.
  cbv zeta beta delta [canon isApostrophe isDoubleQuote isDash apostrophe doubleQuote hyphen].
  split_on_code c. reflexivity.
Qed.

Lemma normalizeText_standardize s :
  normalizeText (standardizeApostrophes s) = normalizeText s.
Proof.
  rewrite !normalizeText_short. unfold standardizeApostrophes, replaceClass.
  rewrite map_map. do 2 f_equal. apply map_ext, canon_standardize.
Qed.

Lemma standardize_nonempty s : s <> [] -> standardizeApostrophes s <> [].
Proof. destruct s; [congruence | discriminate]. Qed.

(** *** Termination of the scans *)

Lemma scanLoop_returns {A} s pat (body : nat -> list A -> list A) fuel acc :
  pat <> [] -> length s < fuel -> scanLoop s pat body fuel 0 acc <> None.
Proof.
  intros Hp Hf. rewrite scanLoop_total by assumption. discriminate.
Qed.

Lemma exactPass_returns segs fuel pat :
  pat <> [] -> length (buildFullText segs) < fuel ->
  exactPass segs fuel pat <> None.
Proof. intros. now apply scanLoop_returns. Qed.

Lemma normalizedPass_returns segs fuel pat :
  normalizeText pat <> [] -> length (buildFullText segs) < fuel ->
  normalizedPass segs fuel pat <> None.
Proof.
  intros Hp Hf. apply scanLoop_returns; [assumption|].
  pose proof (length_normalizeText (buildFullText segs)). lia.
Qed.

Lemma findValidatedMatches_returns segs fuel pat :
  pat <> [] -> normalizeText pat <> [] -> length (buildFullText segs) < fuel ->
  findValidatedMatches segs fuel pat <> None.
Proof.
  intros Hp Hn Hf. unfold findValidatedMatches.
  pose proof (exactPass_returns segs fuel pat Hp Hf).
  pose proof (normalizedPass_returns segs fuel pat Hn Hf).
  destruct (exactPass segs fuel pat) as [m|]; [|congruence].
  destruct (length m =? 0); [|discriminate].
  destruct (normalizedPass segs fuel pat); [discriminate | congruence].
Qed.

Lemma tryVariants_returns segs fuel instance variants : forall acc log,
  Forall (fun v => v <> [] /\ normalizeText v <> []) variants ->
  length (buildFullText segs) < fuel ->
  tryVariants segs fuel variants instance acc log <> None.
Proof.
  induction variants as [|v vs IH]; intros acc log Hv Hf; simpl; [discriminate|].
  inversion Hv as [|? ? [Hp Hn] Hvs]; subst.
  pose proof (findValidatedMatches_returns segs fuel v Hp Hn Hf).
  destruct (findValidatedMatches segs fuel v) as [[m p]|]; [|congruence].
  destruct (instance <=? _)%Z; [discriminate | now apply IH].
Qed.

Lemma searchVariants_nonempty textToFind :
  textToFind <> [] -> normalizeText textToFind <> [] ->
  Forall (fun v => v <> [] /\ normalizeText v <> []) (searchVariants textToFind).
Proof.
  intros Hp Hn. unfold searchVariants. repeat constructor; auto.
  - now rewrite normalizeText_fixed.
  - now apply standardize_nonempty.
  - now rewrite normalizeText_standardize.
Qed.

Lemma searchContent_returns fuel content textToFind instance :
  textToFind <> [] -> normalizeText textToFind <> [] ->
  (forall c, content = Some c ->
     length (buildFullText (sortSegments (extractTextFromContent c))) < fuel) ->
  searchContent fuel content textToFind instance <> None.
Proof.
  intros Hp Hn Hf. unfold searchContent. destruct content as [c|]; [|discriminate].
  pose proof (tryVariants_returns (sortSegments (extractTextFromContent c)) fuel
                instance (searchVariants textToFind) [] []
                (searchVariants_nonempty _ Hp Hn) (Hf c eq_refl)) as H.
  destruct (tryVariants _ _ _ _ _ _) as [[m p]|]; [discriminate | congruence].
Qed.

(** C10.  When [textToFind] and [normalizeText textToFind] are both
    non-empty, every scanning loop of [findTextRange] ends: with fuel
    beyond the length of the flattened text the search is never left
    running, and neither is the exact or the normalized pass of any of
    the three variants.  Each hit lies at or after the position the search started
    from, so the next search, at [foundIndex + 1], starts strictly later;
    and a non-empty pattern is not found once fewer characters than its
    length remain. *)
Theorem findTextRange_scans_terminate
  World RgbColor (docs : Docs World RgbColor) documentId w textToFind instance fuel :
  textToFind <> [] -> normalizeText textToFind <> [] ->
  (forall res w' content,
     documents_get docs documentId w = (inr res, w') ->
     bodyContent res = Some content ->
     length (buildFullText (sortSegments (extractTextFromContent content))) < fuel) ->
  fst (findTextRange fuel docs documentId textToFind instance w) <> StillRunning
  /\ (forall segs searchVariant,
        In searchVariant (searchVariants textToFind) ->
        length (buildFullText segs) < fuel ->
        exactPass segs fuel searchVariant <> None
        /\ normalizedPass segs fuel searchVariant <> None)
  /\ (forall s pat searchIndex foundIndex,
        searchIndex <= length s ->
        indexOf s pat searchIndex = Some foundIndex ->
        searchIndex < foundIndex + 1 /\ foundIndex + length pat <= length s)
  /\ (forall s pat searchIndex,
        pat <> [] -> length s < searchIndex + length pat ->
        indexOf s pat searchIndex = None).
Proof.
  intros Hp Hn Hf. split; [|split; [|split]].
  - unfold findTextRange.
    destruct (documents_get docs documentId w) as [[error|res] w'] eqn:Hget;
      [discriminate|].
    unfold ofOption.
    pose proof (searchContent_returns fuel (bodyContent res) textToFind instance
                  Hp Hn) as H.
    destruct (searchContent fuel (bodyContent res) textToFind instance);
      [discriminate|].
    exfalso. apply H; [|reflexivity]. intros c Hc. eapply Hf; eauto.
  - intros segs v Hv Hlen.
    pose proof (searchVariants_nonempty _ Hp Hn) as Hall.
    rewrite Forall_forall in Hall. destruct (Hall v Hv).
    split; [now apply exactPass_returns | now apply normalizedPass_returns].
  - intros s pat k i Hk H. apply indexOf_advances in H. lia.
  - intros. now apply indexOf_past_end.
Qed.

(** *** Validation of the normalized pass *)

Lemma string_eqb_eq a : forall b, string_eqb a b = true <-> a = b.
Proof.
  induction a as [|x a IH]; intros [|y b]; simpl; try (split; congruence).
  unfold cu_eqb. rewrite andb_true_iff, IH, N.eqb_eq.
  split; [intros []; congruence | intros [= -> ->]; auto].
Qed.

Lemma scanLoop_invariant {A} (P : list A -> Prop) s pat (body : nat -> list A -> list A) :
  (forall i acc, P acc -> P (body i acc)) ->
  forall fuel k acc matches,
    P acc -> scanLoop s pat body fuel k acc = Some matches -> P matches.
Proof.
  intros Hbody. induction fuel as [|fuel IH]; intros k acc matches Hacc H;
    [discriminate|].
  cbn [scanLoop] in H. destruct (indexOf s pat k) as [i|].
  - eapply IH; [|exact H]. now apply Hbody.
  - now injection H as <-.
Qed.

Lemma pushMapped_accepts (P : MatchRange -> Prop) sm em accept matches :
  (forall r, accept r = true -> P r) ->
  Forall P matches -> Forall P (pushMapped sm em accept matches).
Proof.
  intros Hacc H. unfold pushMapped. destruct sm, em; auto.
  match goal with |- context [accept ?r] => destruct (accept r) eqn:E end; auto.
  apply Forall_app. split; [exact H|]. constructor; [now apply Hacc | constructor].
Qed.

(** C2.  Every range the normalized pass returns passed the round trip:
    the text extracted for the range, normalized, is the normalized search
    text; a range whose round trip fails is not among the results; and
    for each of the three variants of a query the normalized search text
    is the normalized query itself. *)
Theorem normalizedPass_validated segs fuel searchText matches :
  normalizedPass segs fuel searchText = Some matches ->
  Forall (validated segs searchText) matches
  /\ (forall r, ~ validated segs searchText r -> ~ In r matches)
  /\ (forall textToFind,
        In searchText (searchVariants textToFind) ->
        Forall (validated segs textToFind) matches).
Proof.
  intros H.
  assert (HF : Forall (validated segs searchText) matches).
  { unfold normalizedPass in H.
    eapply (scanLoop_invariant (Forall (validated segs searchText))); [| |exact H].
    - intros i acc Hacc. unfold normalizedBody. apply pushMapped_accepts; [|exact Hacc].
      intros r Hr. now apply string_eqb_eq in Hr.
    - constructor. }
  split; [exact HF|]. split.
  - intros r Hr Hin. rewrite Forall_forall in HF. auto.
  - intros textToFind Hin.
    assert (Hn : normalizeText searchText = normalizeText textToFind).
    { destruct Hin as [<-|[<-|[<-|[]]]];
        auto using normalizeText_fixed, normalizeText_standardize. }
    unfold validated in *. now rewrite <- Hn.
Qed.

(** *** Order of the variants and of the passes *)

Lemma standardizeApostrophes_codes text :
  standardizeApostrophes text
  = map (fun c => if existsb (N.eqb c)
                       [0x27; 0x2019; 0x2018; 0x201B; 0x60; 0xB4]%N
                  then 0x27%N else c) text.
Proof.
  unfold standardizeApostrophes, replaceClass. apply map_ext. intros c.
  unfold isApostrophe, apostrophe. cbn [existsb].
  now rewrite orb_false_r, !orb_assoc.
Qed.

(** C4.  The variants are the literal query, the normalized query and the
    query with each of the six apostrophe characters replaced by U+0027,
    tried in that order; the loop stops at the first variant after which
    the accumulated matches reach [instance], so the log holds the passes
    of the variants tried and of no other; and the passes of one variant
    are the exact pass alone when it found something, the exact pass
    followed by the normalized pass when it found nothing. *)
Theorem variants_tried_in_order segs fuel textToFind instance allMatches log :
  tryVariants segs fuel (searchVariants textToFind) instance [] []
  = Some (allMatches, log) ->
  let apostrophesStandardized :=
    map (fun c => if existsb (N.eqb c)
                         [0x27; 0x2019; 0x2018; 0x201B; 0x60; 0xB4]%N
                  then 0x27%N else c) textToFind in
  searchVariants textToFind
  = [textToFind; normalizeText textToFind; apostrophesStandardized]
  /\ (exists m1 p1,
     findValidatedMatches segs fuel textToFind = Some (m1, p1)
     /\ ((instance <= Z.of_nat (length m1))%Z /\ allMatches = m1 /\ log = p1
         \/ (Z.of_nat (length m1) < instance)%Z
            /\ exists m2 p2,
                 findValidatedMatches segs fuel (normalizeText textToFind)
                 = Some (m2, p2)
                 /\ ((instance <= Z.of_nat (length (m1 ++ m2)))%Z
                     /\ allMatches = m1 ++ m2 /\ log = p1 ++ p2
                     \/ (Z.of_nat (length (m1 ++ m2)) < instance)%Z
                        /\ exists m3 p3,
                             findValidatedMatches segs fuel
                               apostrophesStandardized
                             = Some (m3, p3)
                             /\ allMatches = (m1 ++ m2) ++ m3
                             /\ log = (p1 ++ p2) ++ p3)))
  /\ (forall searchText matches passes,
        findValidatedMatches segs fuel searchText = Some (matches, passes) ->
        exists exact,
          exactPass segs fuel searchText = Some exact
          /\ (exact <> [] /\ matches = exact /\ passes = [ExactPass searchText]
              \/ exact = []
                 /\ normalizedPass segs fuel searchText = Some matches
                 /\ passes = [ExactPass searchText; NormalizedPass searchText])).
Proof.
  intros H apostrophesStandardized. subst apostrophesStandardized.
  rewrite <- standardizeApostrophes_codes. split; [reflexivity|]. split.
  - unfold searchVariants in H. cbn [tryVariants app] in H.
    destruct (findValidatedMatches segs fuel textToFind) as [[m1 p1]|];
      [|discriminate].
    exists m1, p1. split; [reflexivity|].
    destruct (Z.leb_spec instance (Z.of_nat (length m1))).
    { left. injection H as <- <-. auto. }
    right. split; [assumption|].
    destruct (findValidatedMatches segs fuel (normalizeText textToFind))
      as [[m2 p2]|]; [|discriminate].
    exists m2, p2. split; [reflexivity|].
    destruct (Z.leb_spec instance (Z.of_nat (length (m1 ++ m2)))).
    { left. injection H as <- <-. auto. }
    right. split; [assumption|].
    destruct (findValidatedMatches segs fuel (standardizeApostrophes textToFind))
      as [[m3 p3]|]; [|discriminate].
    exists m3, p3. split; [reflexivity|].
    destruct (instance <=? _)%Z; injection H as <- <-; auto.
  - intros searchText matches passes Hv. unfold findValidatedMatches in Hv.
    destruct (exactPass segs fuel searchText) as [exact|]; [|discriminate].
    exists exact. split; [reflexivity|]. destruct exact as [|r exact]; simpl in Hv.
    + right. destruct (normalizedPass segs fuel searchText); [|discriminate].
      injection Hv as <- <-. auto.
    + left. injection Hv as <- <-. repeat split. discriminate.
Qed.

(** *** Occurrences under normalization *)

Lemma occurrences_occursIn s pat :
  occurrences s pat <> [] <-> occursIn pat s.
Proof.
  unfold occurrences, occursIn. split.
  - intros H. destruct (occurrencesFrom pat s 0) as [|i l] eqn:E; [congruence|].
    assert (Hi : In i (occurrencesFrom pat s 0)) by (rewrite E; now left).
    apply occurrencesFrom_In in Hi as [_ Hs]. rewrite Nat.sub_0_r in Hs.
    apply startsWith_iff in Hs as [Hs _].
    exists (firstn i s), (skipn (length pat) (skipn i s)).
    rewrite <- Hs at 1. now rewrite !firstn_skipn.
  - intros (pre & post & ->) Hnone.
    assert (Hin : In (length pre) (occurrencesFrom pat (pre ++ pat ++ post) 0)).
    { apply occurrencesFrom_In. rewrite Nat.sub_0_r, length_app. split; [lia|].
      rewrite skipn_app, skipn_all, Nat.sub_diag. simpl.
      apply startsWith_iff. rewrite firstn_app, firstn_all, Nat.sub_diag.
      rewrite length_app. simpl. rewrite app_nil_r. split; [reflexivity | lia]. }
    rewrite Hnone in Hin. destruct Hin.
Qed.

Lemma occurrences_none s pat :
  ~ occursIn pat s -> occurrences s pat = [].
Proof.
  intros H. destruct (occurrences s pat) as [|i l] eqn:E; [reflexivity|].
  exfalso. apply H, occurrences_occursIn. congruence.
Qed.

Lemma trimStart_split s :
  exists l, s = l ++ trimStart s /\ Forall (fun c => isWhiteSpace c = true) l.
Proof.
  induction s as [|c s (l & Hs & Hl)]; simpl.
  - exists []. auto.
  - destruct (isWhiteSpace c) eqn:Hc.
    + exists (c :: l). split; [simpl; congruence | now constructor].
    + exists []. auto.
Qed.

Lemma trimEnd_split s :
  exists r, s = trimEnd s ++ r /\ Forall (fun c => isWhiteSpace c = true) r.
Proof.
  induction s as [|c s (r & Hs & Hr)]; simpl.
  - exists []. auto.
  - destruct (trimEnd s) as [|d t] eqn:Et; simpl in Hs.
    + destruct (isWhiteSpace c) eqn:Hc.
      * exists (c :: r). split; [simpl; congruence | now constructor].
      * exists r. split; [simpl; congruence | assumption].
    + exists r. split; [simpl; congruence | assumption].
Qed.

Lemma trimStart_blank l :
  Forall (fun c => isWhiteSpace c = true) l -> trimStart l = [].
Proof. induction 1 as [|c l Hc _ IH]; simpl; [reflexivity | now rewrite Hc]. Qed.

Lemma trimEnd_blank l :
  Forall (fun c => isWhiteSpace c = true) l -> trimEnd l = [].
Proof.
  induction 1 as [|c l Hc _ IH]; simpl; [reflexivity | now rewrite IH, Hc].
Qed.

Lemma trimEnd_after m d y :
  isWhiteSpace d = false -> trimEnd (m ++ d :: y) = m ++ d :: trimEnd y.
Proof.
  intros Hd. induction m as [|x m IH]; simpl.
  - destruct (trimEnd y); [now rewrite Hd | reflexivity].
  - rewrite IH. destruct m; reflexivity.
Qed.

Lemma trimStart_before a c y :
  isWhiteSpace c = false ->
  exists a', trimStart (a ++ c :: y) = a' ++ c :: y.
Proof.
  intros Hc. induction a as [|x a (a' & IH)]; simpl.
  - exists []. now rewrite Hc.
  - destruct (isWhiteSpace x); [eauto|]. exists (x :: a). reflexivity.
Qed.

Lemma replaceRuns_blank l : forall b,
  Forall (fun c => isWhiteSpace c = true) l ->
  Forall (fun c => isWhiteSpace c = true)
         (replaceRuns isWhiteSpace space b l).
Proof.
  intros b H. revert b. induction H as [|c l Hc _ IH]; intros b; simpl;
    [constructor|].
  rewrite Hc. destruct b; [apply IH|]. constructor; [reflexivity | apply IH].
Qed.

Lemma replaceRuns_before x c y : forall b,
  isWhiteSpace c = false ->
  replaceRuns isWhiteSpace space b (x ++ c :: y)
  = replaceRuns isWhiteSpace space b x
    ++ c :: replaceRuns isWhiteSpace space false y.
Proof.
  intros b Hc. revert b. induction x as [|a x IH]; intros b; simpl.
  - now rewrite Hc.
  - destruct (isWhiteSpace a); [destruct b|]; simpl; now rewrite IH.
Qed.

(** A core: a string that starts and ends with characters that are not
    white space. *)
Lemma replaceRuns_around x core y b :
  match core with [] => False | c :: _ => isWhiteSpace c = false end ->
  (exists m d, core = m ++ [d] /\ isWhiteSpace d = false) ->
  replaceRuns isWhiteSpace space b (x ++ core ++ y)
  = replaceRuns isWhiteSpace space b x
    ++ replaceRuns isWhiteSpace space false core
    ++ replaceRuns isWhiteSpace space false y
  /\ match replaceRuns isWhiteSpace space false core with
     | [] => False
     | c :: _ => isWhiteSpace c = false
     end
  /\ exists m' d, replaceRuns isWhiteSpace space false core = m' ++ [d]
                  /\ isWhiteSpace d = false.
Proof.
  intros Hhead (m & d & Hcore & Hd).
  assert (Hlast : forall z,
             replaceRuns isWhiteSpace space false (core ++ z)
             = replaceRuns isWhiteSpace space false core
               ++ replaceRuns isWhiteSpace space false z).
  { intros z. rewrite Hcore, <- app_assoc. simpl.
    rewrite !replaceRuns_before by exact Hd. simpl.
    now rewrite <- app_assoc. }
  destruct core as [|c core']; [destruct Hhead|].
  split; [|split].
  - simpl app at 2. rewrite replaceRuns_before by exact Hhead. f_equal.
    rewrite <- Hlast. simpl. now rewrite Hhead.
  - simpl. now rewrite Hhead.
  - exists (replaceRuns isWhiteSpace space false m), d. split; [|exact Hd].
    rewrite Hcore. rewrite (replaceRuns_before m d []) by exact Hd. reflexivity.
Qed.

Lemma trim_ends s :
  trim s <> [] ->
  match trim s with [] => False | c :: _ => isWhiteSpace c = false end
  /\ exists m d, trim s = m ++ [d] /\ isWhiteSpace d = false.
Proof.
  intros H. split.
  - unfold trim in *. pose proof (trimEnd_head (trimStart s) (trimStart_head s)).
    destruct (trimEnd (trimStart s)); [congruence | assumption].
  - destruct (exists_last H) as (m & d & E). exists m, d. split; [exact E|].
    unfold trim in E. clear H. revert m E.
    induction (trimStart s) as [|x t IH]; intros m E; simpl in E.
    + destruct m; discriminate.
    + destruct (trimEnd t) as [|e t'] eqn:Et.
      * destruct (isWhiteSpace x) eqn:Hx; [destruct m; discriminate|].
        destruct m as [|y m]; [now injection E as <- | ].
        injection E as _ E. destruct m; discriminate.
      * destruct m as [|y m]; [discriminate|].
        injection E as _ E. now apply (IH m).
Qed.

Lemma trim_core l core r :
  Forall (fun c => isWhiteSpace c = true) l ->
  Forall (fun c => isWhiteSpace c = true) r ->
  match core with [] => False | c :: _ => isWhiteSpace c = false end ->
  (exists m d, core = m ++ [d] /\ isWhiteSpace d = false) ->
  trim (l ++ core ++ r) = core.
Proof.
  intros Hl Hr Hhead (m & d & -> & Hd). unfold trim.
  assert (E : trimStart (l ++ (m ++ [d]) ++ r) = (m ++ [d]) ++ r).
  { clear Hr. induction Hl as [|c l Hc _ IH]; simpl; [|now rewrite Hc].
    destruct (m ++ [d]) as [|c t]; [destruct Hhead|]. simpl. now rewrite Hhead. }
  rewrite E, <- app_assoc. simpl. rewrite trimEnd_after by exact Hd.
  now rewrite trimEnd_blank.
Qed.

Lemma trim_keeps a core b :
  match core with [] => False | c :: _ => isWhiteSpace c = false end ->
  (exists m d, core = m ++ [d] /\ isWhiteSpace d = false) ->
  occursIn core (trim (a ++ core ++ b)).
Proof.
  intros Hhead (m & d & -> & Hd). unfold trim.
  destruct (m ++ [d]) as [|c t] eqn:E; [destruct Hhead|].
  simpl app at 2.
  destruct (trimStart_before a c (t ++ b) Hhead) as (a' & ->).
  change (c :: t ++ b) with ((c :: t) ++ b). rewrite <- E, <- app_assoc. simpl.
  rewrite app_assoc, trimEnd_after by exact Hd.
  exists a', (trimEnd b). now rewrite <- !app_assoc.
Qed.

(** What occurs in a text occurs, normalized, in the normalized text. *)
Lemma normalizeText_occursIn pat s :
  normalizeText pat <> [] ->
  occursIn pat s -> occursIn (normalizeText pat) (normalizeText s).
Proof.
  intros Hn (pre & post & ->). rewrite !normalizeText_short in *.
  rewrite !map_app.
  set (u := map canon pat) in *.
  destruct (trimStart_split u) as (l & Hu & Hl).
  destruct (trimEnd_split (trimStart u)) as (r & Hu' & Hr).
  fold (trim u) in Hu'.
  assert (Hcore : trim u <> []).
  { intros E. rewrite E in Hu'. simpl in Hu'. apply Hn.
    rewrite Hu, Hu'.
    assert (Hb : Forall (fun c => isWhiteSpace c = true) (l ++ r))
      by (apply Forall_app; auto).
    unfold trim. now rewrite trimStart_blank by now apply replaceRuns_blank. }
  destruct (trim_ends u Hcore) as [Hhead Hlast].
  assert (Eu : u = l ++ trim u ++ r) by (rewrite Hu at 1; now rewrite Hu' at 1).
  destruct (replaceRuns_around l (trim u) r false Hhead Hlast) as (E1 & Hh1 & Hl1).
  assert (En : trim (replaceRuns isWhiteSpace space false u)
               = replaceRuns isWhiteSpace space false (trim u)).
  { rewrite Eu at 1. rewrite E1.
    apply trim_core; auto using replaceRuns_blank. }
  rewrite En.
  replace (map canon pre ++ u ++ map canon post)
    with ((map canon pre ++ l) ++ trim u ++ (r ++ map canon post))
    by (rewrite Eu at 2; now rewrite <- !app_assoc).
  destruct (replaceRuns_around (map canon pre ++ l) (trim u)
              (r ++ map canon post) false Hhead Hlast) as (E2 & _ & _).
  rewrite E2. now apply trim_keeps.
Qed.

Lemma canon_fixed_apostrophe c :
  canon c = c -> (if isApostrophe c then apostrophe else c) = c.
Proof.
  cbv zeta beta delta [canon isApostrophe isDoubleQuote isDash apostrophe doubleQuote hyphen].
  destruct (N.eqb_spec c 39); [auto|].
  destruct (N.eqb_spec c 8217); [subst; vm_compute; discriminate|].
  destruct (N.eqb_spec c 8216); [subst; vm_compute; discriminate|].
  destruct (N.eqb_spec c 8219); [subst; vm_compute; discriminate|].
  destruct (N.eqb_spec c 96); [subst; vm_compute; discriminate|].
  destruct (N.eqb_spec c 180); [subst; vm_compute; discriminate|].
  reflexivity.
Qed.

Lemma normalized_standardized Q :
  normalizeText Q = Q -> standardizeApostrophes Q = Q.
Proof.
  intros H.
  assert (Hcan : Forall (fun c => canon c = c) Q).
  { rewrite <- H, normalizeText_short.
    apply Forall_trimEnd, Forall_trimStart, Forall_replaceRuns; [reflexivity|].
    apply Forall_forall. intros c Hin. apply in_map_iff in Hin as (d & <- & _).
    apply canon_idempotent. }
  unfold standardizeApostrophes, replaceClass. clear H.
  induction Hcan as [|c l Hc _ IH]; simpl; [reflexivity|].
  now rewrite (canon_fixed_apostrophe c Hc), IH.
Qed.

(** *** Queries that are not found *)

Lemma findValidatedMatches_absent segs fuel v :
  v <> [] -> normalizeText v <> [] ->
  length (buildFullText segs) < fuel ->
  ~ occursIn (normalizeText v) (normalizeText (buildFullText segs)) ->
  findValidatedMatches segs fuel v
  = Some ([], [ExactPass v; NormalizedPass v]).
Proof.
  intros Hv Hn Hf Hno. unfold findValidatedMatches.
  rewrite exactPass_occurrences by assumption.
  rewrite (occurrences_none (buildFullText segs) v).
  2:{ intros H. now apply Hno, normalizeText_occursIn. }
  cbn [map length Nat.eqb]. unfold normalizedPass.
  rewrite scanLoop_total.
  - now rewrite (occurrences_none _ _ Hno).
  - exact Hn.
  - pose proof (length_normalizeText (buildFullText segs)). lia.
Qed.

Lemma selectInstance_nil instance : selectInstance [] instance = None.
Proof.
  unfold selectInstance.
  change (sortRanges (uniqueRanges [])) with (@nil MatchRange).
  unfold arrayGet.
  destruct (instance <=? _)%Z; [|reflexivity].
  destruct (instance - 1 <? 0)%Z; [reflexivity|].
  now destruct (Z.to_nat (instance - 1)).
Qed.

Lemma searchContent_absent content textToFind fuel instance :
  normalizeText textToFind <> [] ->
  length (buildFullText (sortSegments (extractTextFromContent content))) < fuel ->
  ~ occursIn (normalizeText textToFind)
      (normalizeText
         (buildFullText (sortSegments (extractTextFromContent content)))) ->
  searchContent fuel (Some content) textToFind instance = Some None.
Proof.
  intros Hn Hf Hno. unfold searchContent, searchVariants.
  set (segs := sortSegments (extractTextFromContent content)) in *.
  assert (Hq : textToFind <> []) by (intros ->; now apply Hn).
  assert (H1 := findValidatedMatches_absent segs fuel textToFind Hq Hn Hf Hno).
  assert (H2 : findValidatedMatches segs fuel (normalizeText textToFind)
               = Some ([], [ExactPass (normalizeText textToFind);
                            NormalizedPass (normalizeText textToFind)])).
  { apply findValidatedMatches_absent; rewrite ?normalizeText_fixed; auto. }
  assert (H3 : findValidatedMatches segs fuel (standardizeApostrophes textToFind)
               = Some ([], [ExactPass (standardizeApostrophes textToFind);
                            NormalizedPass (standardizeApostrophes textToFind)])).
  { apply findValidatedMatches_absent; rewrite ?normalizeText_standardize; auto.
    now apply standardize_nonempty. }
  cbn [tryVariants]. rewrite H1. cbn [app length].
  destruct (instance <=? Z.of_nat 0)%Z; [now rewrite selectInstance_nil|].
  rewrite H2. cbn [app length].
  destruct (instance <=? Z.of_nat 0)%Z; [now rewrite selectInstance_nil|].
  rewrite H3. cbn [app length].
  destruct (instance <=? Z.of_nat 0)%Z; now rewrite selectInstance_nil.
Qed.

Lemma length_stableSort {A} (key : A -> Z) l : length (stableSort key l) = length l.
Proof. symmetry. apply Permutation_length, stableSort_perm. Qed.

Lemma selectInstance_too_few allMatches instance :
  (Z.of_nat (length (uniqueRanges allMatches)) < instance)%Z ->
  selectInstance allMatches instance = None.
Proof.
  intros H. unfold selectInstance, sortRanges. rewrite length_stableSort.
  destruct (Z.leb_spec instance (Z.of_nat (length (uniqueRanges allMatches))));
    [lia | reflexivity].
Qed.

Lemma uniqueRanges_within all m :
  (forall r, In r all -> In r m) ->
  length (uniqueRanges all) <= length m.
Proof.
  intros H. destruct (uniqueRanges_facts all) as [Hnd Hin].
  apply NoDup_incl_length; [eapply NoDup_map_inv'; exact Hnd|].
  intros r Hr. apply H, Hin, Hr.
Qed.

Lemma searchContent_too_few content Q fuel instance :
  Q <> [] -> normalizeText Q = Q ->
  length (buildFullText (sortSegments (extractTextFromContent content))) < fuel ->
  occursIn Q (buildFullText (sortSegments (extractTextFromContent content))) ->
  (Z.of_nat (length (occurrences
                       (buildFullText
                          (sortSegments (extractTextFromContent content))) Q))
   < instance)%Z ->
  searchContent fuel (Some content) Q instance = Some None.
Proof.
  intros HQ Hnorm Hf Hocc Hfew. unfold searchContent, searchVariants.
  set (segs := sortSegments (extractTextFromContent content)) in *.
  rewrite Hnorm, (normalized_standardized Q Hnorm).
  apply occurrences_occursIn in Hocc.
  assert (H1 := findValidatedMatches_exact segs fuel Q HQ Hf Hocc).
  rewrite <- exactRanges_length with (segs := segs) in Hfew.
  set (m := exactRanges segs Q) in *.
  assert (Hnone : forall all, (forall r, In r all -> In r m) ->
                    selectInstance all instance = None).
  { intros all Hall. apply selectInstance_too_few.
    pose proof (uniqueRanges_within all m Hall). lia. }
  cbn [tryVariants]. rewrite H1. cbn [app].
  destruct (instance <=? Z.of_nat (length m))%Z; [now rewrite Hnone|].
  destruct (instance <=? Z.of_nat (length (m ++ m)))%Z.
  { rewrite Hnone; [reflexivity|]. intros r Hr.
    apply in_app_iff in Hr. tauto. }
  destruct (instance <=? Z.of_nat (length ((m ++ m) ++ m)))%Z;
    (rewrite Hnone; [reflexivity|]; intros r Hr;
     repeat (apply in_app_iff in Hr as [Hr|Hr]); assumption).
Qed.

(** *** The apostrophe patterns *)

Lemma greedyStar_sound {R} class s (k : jsstring -> option R) res :
  Regex.greedyStar class s k = Some res ->
  exists run rest, s = run ++ rest /\ Forall (fun c => class c = true) run
                   /\ k rest = Some res.
Proof.
  revert res. induction s as [|c s IH]; intros res H; simpl in H.
  - exists [], []. auto.
  - destruct (class c) eqn:Hc.
    + destruct (Regex.greedyStar class s k) as [res'|] eqn:E.
      * injection H as <-. destruct (IH _ eq_refl) as (run & rest & -> & Hrun & Hk).
        exists (c :: run), rest. auto.
      * exists [], (c :: s). auto.
    + exists [], (c :: s). auto.
Qed.

Lemma run_sound {R} r : forall s caps (k : jsstring -> Regex.Captures -> option R) res,
  Regex.run r s caps k = Some res ->
  exists consumed rest caps',
    s = consumed ++ rest /\ Matches r consumed caps caps'
    /\ k rest caps' = Some res.
Proof.
  induction r as [class|a IHa b IHb|a IHa|class|n a IHa]; intros s caps k res H;
    cbn [Regex.run] in H.
  - destruct s as [|c s]; [discriminate|]. destruct (class c) eqn:Hc; [|discriminate].
    exists [c], s, caps. simpl. eauto 6.
  - apply IHa in H as (x & rest1 & mid & -> & Ha & H).
    apply IHb in H as (y & rest & caps' & -> & Hb & H).
    exists (x ++ y), rest, caps'. rewrite <- app_assoc. simpl. eauto 8.
  - destruct (Regex.run a s caps k) as [res'|] eqn:E.
    + injection H as <-. apply IHa in E as (x & rest & caps' & -> & Ha & Hk).
      exists x, rest, caps'. simpl. auto.
    + exists [], s, caps. simpl. auto.
  - destruct s as [|c s]; [discriminate|]. destruct (class c) eqn:Hc; [|discriminate].
    apply greedyStar_sound in H as (run & rest & -> & Hrun & Hk).
    exists (c :: run), rest, caps. simpl. repeat split; auto. discriminate.
  - apply IHa in H as (x & rest & mid & -> & Ha & Hk).
    rewrite length_app, Nat.add_sub, firstn_app, Nat.sub_diag, firstn_all in Hk.
    simpl in Hk. rewrite app_nil_r in Hk.
    exists x, rest, ((n, x) :: mid). simpl. eauto.
Qed.

Lemma exec_sound r : forall s caps,
  Regex.exec r s = Some caps ->
  exists pre consumed post, s = pre ++ consumed ++ post /\ Matches r consumed [] caps.
Proof.
  induction s as [|c s IH]; intros caps H; cbn [Regex.exec] in H.
  - destruct (Regex.run r [] [] _) as [res|] eqn:E; [|discriminate].
    injection H as ->. apply run_sound in E as (x & rest & caps' & Hs & Hm & [= ->]).
    exists [], x, rest. auto.
  - destruct (Regex.run r (c :: s) [] _) as [res|] eqn:E.
    + injection H as ->. apply run_sound in E as (x & rest & caps' & Hs & Hm & [= ->]).
      exists [], x, rest. auto.
    + apply IH in H as (pre & x & post & -> & Hm). exists (c :: pre), x, post. auto.
Qed.

Lemma apostrophePattern_split suffix consumed caps :
  captureFree suffix ->
  Matches (apostrophePattern suffix) consumed [] caps ->
  exists before c after,
    consumed = before ++ c :: after
    /\ before <> [] /\ Forall (fun x => isWordChar x = true) before
    /\ isApostrophe c = true
    /\ Regex.capture 1 caps = Some before
    /\ Regex.capture 2 caps = Some after.
Proof.
  intros Hfree H. unfold apostrophePattern in H. cbn [Matches] in H.
  destruct H as (b & rest & mid1 & -> & (m0 & (Hb & Hw & ->) & ->) & H).
  destruct H as (cs & a & mid2 & -> & (c & -> & Hc & ->) & H).
  destruct H as (mid3 & (x & y & mid4 & -> & Hx & (ws & z & mid5 & -> & (_ & _ & ->) & (_ & _ & ->))) & ->).
  apply Hfree in Hx. subst mid4.
  exists b, c, (x ++ ws ++ z). repeat split; auto.
Qed.

Lemma captureFree_class class : captureFree (Regex.Class class).
Proof. intros ? ? ? (c & _ & _ & ->). reflexivity. Qed.

Lemma captureFree_optional r : captureFree r -> captureFree (Regex.Optional r).
Proof. intros H ? ? ? [Hm|[_ ->]]; [now apply H in Hm | reflexivity]. Qed.

Lemma captureFree_seq a b : captureFree a -> captureFree b -> captureFree (Regex.Seq a b).
Proof.
  intros Ha Hb ? ? ? (x & y & mid & _ & Hx & Hy).
  apply Ha in Hx. apply Hb in Hy. congruence.
Qed.

Lemma splitAtApostrophe_sound textToFind before after :
  splitAtApostrophe textToFind = Some (before, after) ->
  exists pre c post,
    textToFind = pre ++ before ++ c :: after ++ post
    /\ isApostrophe c = true
    /\ before <> [] /\ Forall (fun x => isWordChar x = true) before.
Proof.
  unfold splitAtApostrophe, apostrophePatterns.
  assert (Hone : forall suffix, captureFree suffix ->
            match Regex.exec (apostrophePattern suffix) textToFind with
            | Some caps =>
                match Regex.capture 1 caps, Regex.capture 2 caps with
                | Some b, Some a => Some (b, a)
                | _, _ => None
                end
            | None => None
            end = Some (before, after) ->
            exists pre c post,
              textToFind = pre ++ before ++ c :: after ++ post
              /\ isApostrophe c = true
              /\ before <> [] /\ Forall (fun x => isWordChar x = true) before).
  { intros suffix Hfree H.
    destruct (Regex.exec (apostrophePattern suffix) textToFind) as [caps|] eqn:E;
      [|discriminate].
    apply exec_sound in E as (pre & consumed & post & -> & Hm).
    apply apostrophePattern_split in Hm as (b & c & a & -> & Hb & Hw & Hc & H1 & H2);
      [|exact Hfree].
    rewrite H1, H2 in H. injection H as <- <-.
    exists pre, c, post. repeat split; auto.
    now rewrite <- app_assoc. }
  cbn [firstSome].
  repeat match goal with
         | |- context [Regex.exec (apostrophePattern ?sfx) textToFind] =>
             let E := fresh "E" in
             destruct (match Regex.exec (apostrophePattern sfx) textToFind with
                       | Some caps =>
                           match Regex.capture 1 caps, Regex.capture 2 caps with
                           | Some b, Some a => Some (b, a)
                           | _, _ => None
                           end
                       | None => None
                       end) as [[b a]|] eqn:E;
             [ intros [= <- <-]; apply (Hone sfx); [|exact E];
               unfold letter_s, letter_r, letter_e, letter_l, letter_v, letter_d, letter_t;
               auto using captureFree_class, captureFree_optional, captureFree_seq
             | clear E ]
         end.
  discriminate.
Qed.

(** *** Which phrases are split *)











(** *** The walk over the cells of a table *)

Section TableWalkFacts.
Context {E B : Type} (visit : list E -> B) (empty : B) (combine : B -> B -> B).
Hypothesis left_unit : forall b, combine empty b = b.
Hypothesis assoc : forall a b c, combine (combine a b) c = combine a (combine b c).

Lemma forEachCell_chain cells acc :
  combine (forEachCell visit empty combine cells) acc
  = fold_right (fun c acc => combine (visit c) acc) acc
               (rowCells {| tableCells := Some cells |}).
Proof.
  unfold rowCells. simpl.
  induction cells as [|cell cells IH]; simpl; [apply left_unit|].
  destruct (cell_content cell); simpl; [|exact IH].
  now rewrite assoc, IH.
Qed.

Lemma forEachRow_chain rows :
  forEachRow visit empty combine rows
  = fold_right (fun c acc => combine (visit c) acc) empty
               (flat_map rowCells rows).
Proof.
  induction rows as [|row rows IH]; simpl; [reflexivity|].
  rewrite fold_right_app, <- IH.
  destruct row as [[cells|]]; simpl; [|reflexivity].
  apply forEachCell_chain.
Qed.
End TableWalkFacts.

Lemma orElse_assoc {A} (a b c : option A) :
  orElse (orElse a b) c = orElse a (orElse b c).
Proof. now destruct a. Qed.

(** *** The paragraph finder *)

Lemma hd_error_app {A} (l1 l2 : list A) :
  hd_error (l1 ++ l2) = orElse (hd_error l1) (hd_error l2).
Proof. now destruct l1. Qed.

Lemma firstSome_flat_map {A B} (f : A -> option B) (g : A -> list B) l :
  Forall (fun x => f x = hd_error (g x)) l ->
  firstSome f l = hd_error (flat_map g l).
Proof.
  induction 1 as [|x l Hx _ IH]; simpl; [reflexivity|].
  rewrite hd_error_app, Hx. destruct (hd_error (g x)); [reflexivity | exact IH].
Qed.

Lemma findParagraphInElement_first indexWithin element :
  findParagraphInElement indexWithin element
  = hd_error (enclosingInElement indexWithin element).
Proof.
  induction element as [s e p t sb toc IH] using element_ind.
  cbn [findParagraphInElement enclosingInElement].
  destruct s as [s|]; [|reflexivity]. destruct e as [e|]; [|reflexivity].
  destruct ((s <=? indexWithin) && (indexWithin <? e))%Z; [|reflexivity].
  destruct p as [p|]; [reflexivity|].
  destruct t as [[[rows|]]|]; [|reflexivity|reflexivity].
  rewrite (forEachRow_chain _ None (@orElse _)) by (auto using orElse_assoc).
  rewrite (forEachRow_chain _ [] (@app _)) by (auto using app_assoc).
  cbn [cellContents] in IH.
  induction (flat_map rowCells rows) as [|cell cells IHc]; [reflexivity|].
  cbn [fold_right]. rewrite hd_error_app, IHc by (intros; apply IH; now right).
  f_equal. apply firstSome_flat_map, IH. now left.
Qed.

Lemma findParagraphInContent_first indexWithin content :
  findParagraphInContent indexWithin content
  = hd_error (enclosingParagraphs indexWithin content).
Proof.
  apply firstSome_flat_map, Forall_forall. intros el _.
  apply findParagraphInElement_first.
Qed.

Lemma in_chain_app {A B} (g : list A -> list B) cells r :
  In r (fold_right (fun c acc => g c ++ acc) [] cells)
  <-> exists cell, In cell cells /\ In r (g cell).
Proof.
  induction cells as [|c cells IH]; simpl.
  - split; [tauto | intros (? & [] & _)].
  - rewrite in_app_iff, IH. split.
    + intros [H|(cell & ? & ?)]; eauto.
    + intros (cell & [<-|H] & Hr); eauto.
Qed.

Lemma enclosing_member indexWithin content r :
  EnclosingParagraph indexWithin content r <->
  exists element, In element content
                  /\ EnclosingParagraph indexWithin [element] r.
Proof.
  split.
  - intros H. destruct H.
    + eexists. split; [eassumption|]. eapply EnclosingHere; [now left | assumption].
    + eexists. split; [eassumption|].
      eapply EnclosingInCell; [now left | eassumption..].
  - intros (element & Hin & H). inversion H; subst;
      match goal with Hx : In _ [_] |- _ => destruct Hx as [Hx|[]]; subst end.
    + eapply EnclosingHere; eassumption.
    + eapply EnclosingInCell; eassumption.
Qed.

Lemma enclosing_single indexWithin s e p t sb toc r :
  EnclosingParagraph indexWithin [mkElement s e p t sb toc] r <->
  exists s' e',
    s = Some s' /\ e = Some e' /\ (s' <= indexWithin < e')%Z
    /\ (p <> None /\ r = {| range_start := s'; range_end := e' |}
        \/ p = None /\ exists cell, In cell (cellContents t)
                                    /\ EnclosingParagraph indexWithin cell r).
Proof.
  split.
  - intros H. inversion H; subst;
      match goal with Hx : In _ [_] |- _ => destruct Hx as [Hx|[]]; inversion Hx; subst end.
    + do 2 eexists. repeat split; try eassumption; try lia. left. split; [discriminate | reflexivity].
    + do 2 eexists. repeat split; try eassumption; try lia. right. eauto.
  - intros (s' & e' & -> & -> & Hr & [[Hp ->]|[-> (cell & Hc & Hsub)]]).
    + destruct p as [p|]; [|congruence]. eapply EnclosingHere; [now left | exact Hr].
    + eapply EnclosingInCell; [now left | exact Hr | exact Hc | exact Hsub].
Qed.

Lemma enclosingInElement_spec indexWithin element :
  forall r,
    In r (enclosingInElement indexWithin element)
    <-> EnclosingParagraph indexWithin [element] r.
Proof.
  induction element as [s e p t sb toc IH] using element_ind. intros r.
  assert (Hcells : forall cell, In cell (cellContents t) ->
            forall r, In r (enclosingParagraphs indexWithin cell)
                      <-> EnclosingParagraph indexWithin cell r).
  { intros cell Hcell r'. specialize (IH cell Hcell). rewrite Forall_forall in IH.
    unfold enclosingParagraphs. rewrite in_flat_map, enclosing_member.
    split; intros (el & Hel & Hr); exists el; (split; [exact Hel|]);
      now apply (IH el Hel). }
  rewrite enclosing_single. cbn [enclosingInElement]. split.
  - destruct s as [s|]; [|intros []]. destruct e as [e|]; [|intros []].
    destruct ((s <=? indexWithin) && (indexWithin <? e))%Z eqn:Hr; [|intros []].
    apply andb_true_iff in Hr as [H1 H2]. apply Z.leb_le in H1. apply Z.ltb_lt in H2.
    intros Hin. exists s, e. repeat split; try lia.
    destruct p as [p|].
    + destruct Hin as [<-|[]]. left. split; [discriminate | reflexivity].
    + right. split; [reflexivity|].
      destruct t as [[[rows|]]|]; [|destruct Hin|destruct Hin].
      rewrite (forEachRow_chain _ [] (@app _)) in Hin by (auto using app_assoc).
      apply in_chain_app in Hin as (cell & Hcell & Hin).
      exists cell. split; [exact Hcell|]. now apply Hcells.
  - intros (s' & e' & -> & -> & Hr & Hcase).
    replace ((s' <=? indexWithin) && (indexWithin <? e'))%Z with true
      by (symmetry; apply andb_true_iff; split; [apply Z.leb_le | apply Z.ltb_lt]; lia).
    destruct Hcase as [[Hp ->]|[-> (cell & Hc & Hsub)]].
    + destruct p; [now left | congruence].
    + destruct t as [[[rows|]]|]; [|destruct Hc|destruct Hc].
      rewrite (forEachRow_chain _ [] (@app _)) by (auto using app_assoc).
      apply in_chain_app. exists cell. split; [exact Hc|]. now apply Hcells.
Qed.

Lemma enclosingParagraphs_spec indexWithin content r :
  In r (enclosingParagraphs indexWithin content)
  <-> EnclosingParagraph indexWithin content r.
Proof.
  unfold enclosingParagraphs. rewrite in_flat_map, enclosing_member.
  split; intros (el & Hel & Hr); exists el; (split; [exact Hel|]);
    now apply enclosingInElement_spec.
Qed.

Lemma enclosing_contains indexWithin content r :
  EnclosingParagraph indexWithin content r ->
  (range_start r <= indexWithin < range_end r)%Z.
Proof. induction 1; simpl; lia. Qed.

(** C8.  On a fetched document [getParagraphRange] returns the first, in
    document order, of the paragraphs that enclose the index: paragraph
    elements whose range [start, end) holds it, looked for at the top level
    and, inside a table element whose range holds it, in the cells of that
    table.  The range returned is the one of that paragraph, so for an
    index in a paragraph of a table cell it is the inner paragraph and not
    the table; the result is [null] exactly when no such paragraph exists. *)
Theorem getParagraphRange_first_paragraph
  World RgbColor (docs : Docs World RgbColor) documentId w res w' content indexWithin :
  documents_get docs documentId w = (inr res, w') ->
  bodyContent res = Some content ->
  exists result,
    getParagraphRange docs documentId indexWithin w = (Returns result, w')
    /\ result = hd_error (enclosingParagraphs indexWithin content)
    /\ (forall r, In r (enclosingParagraphs indexWithin content)
                  <-> EnclosingParagraph indexWithin content r)
    /\ (forall r, result = Some r ->
          EnclosingParagraph indexWithin content r
          /\ (range_start r <= indexWithin < range_end r)%Z)
    /\ (result = None -> forall r, ~ EnclosingParagraph indexWithin content r).
Proof.
  intros Hget Hbody. exists (findParagraphInContent indexWithin content).
  split; [|split; [|split; [|split]]].
  - unfold getParagraphRange. now rewrite Hget, Hbody.
  - apply findParagraphInContent_first.
  - intros r. apply enclosingParagraphs_spec.
  - intros r Hr. rewrite findParagraphInContent_first in Hr.
    assert (He : EnclosingParagraph indexWithin content r).
    { apply enclosingParagraphs_spec.
      destruct (enclosingParagraphs indexWithin content); [discriminate|].
      injection Hr as ->. now left. }
    split; [exact He | eapply enclosing_contains; eauto].
  - intros Hnone r Hr. rewrite findParagraphInContent_first in Hnone.
    apply enclosingParagraphs_spec in Hr.
    destruct (enclosingParagraphs indexWithin content); [destruct Hr | discriminate].
Qed.

(** *** Calls to the service *)

Section Effects.
Context {World RgbColor : Type}.
Variable hexToRgbColor : jsstring -> option RgbColor.
Variable docs : Docs World RgbColor.

Lemma bind_returns {A B} (m : Eff World A) (f : A -> Eff World B) w b w' :
  bind m f w = (Returns b, w') ->
  exists a w1, m w = (Returns a, w1) /\ f a w1 = (Returns b, w').
Proof.
  unfold bind. destruct (m w) as [[a|e|] w1]; [eauto | discriminate..].
Qed.

Lemma tryCatch_returns {A} (m : Eff World A) (a b : A) w w' :
  a <> b ->
  tryCatch m (ret b) w = (Returns a, w') -> m w = (Returns a, w').
Proof.
  intros Hab. unfold tryCatch, ret.
  destruct (m w) as [[x|e|] w1]; [auto | | discriminate].
  intros [= <- <-]. congruence.
Qed.

Lemma tryCatch_never_throws {A} (m : Eff World A) (b : A) w e :
  fst (tryCatch m (ret b) w) <> Throws e.
Proof.
  unfold tryCatch, ret. destruct (m w) as [[x|e'|] w1]; discriminate.
Qed.

End Effects.




Lemma highlightApostrophePhrase_fetch_rejected
  World RgbColor (hexToRgbColor : jsstring -> option RgbColor)
  (docs : Docs World RgbColor) documentId textToFind instance style fuel w
  error w' :
  documents_get docs documentId w = (inl error, w') ->
  highlightApostrophePhrase hexToRgbColor fuel docs documentId textToFind
    instance style w = (Returns false, w').
Proof.
  intros Hget. unfold highlightApostrophePhrase, tryCatch, bind.
  destruct (splitAtApostrophe textToFind) as [[before after]|];
    unfold findTextRange at 1; rewrite Hget; reflexivity.
Qed.

(** C5, as amended.  In [findTextRange] a rejected fetch is rethrown by
    kind: code 404 as the user error for a document not found, code 403 as
    the user error for a denied permission, anything else as an internal
    error; [highlightApostrophePhrase] returns [false] on a rejected fetch
    and throws nothing at all.  Once the fetch succeeded [findTextRange]
    throws nothing; it returns [null] for a document without content, and,
    for a query that normalization does not empty and a scan that may run
    over the whole text, when the normalized query does not occur in the
    normalized flattened text, and when the query is in normalized form
    and occurs in the flattened text, but fewer times than [instance]. *)
Theorem fetch_failures_surface
  World RgbColor (hexToRgbColor : jsstring -> option RgbColor)
  (docs : Docs World RgbColor) documentId textToFind instance style fuel w :
  (forall error w',
      documents_get docs documentId w = (inl error, w') ->
      findTextRange fuel docs documentId textToFind instance w
      = (Throws (translateFetchError error), w')
      /\ (code error = Some 404%Z ->
          translateFetchError error = UserError DocumentNotFound)
      /\ (code error = Some 403%Z ->
          translateFetchError error = UserError PermissionDenied)
      /\ (code error <> Some 404%Z -> code error <> Some 403%Z ->
          translateFetchError error = InternalError)
      /\ highlightApostrophePhrase hexToRgbColor fuel docs documentId
           textToFind instance style w = (Returns false, w'))
  /\ (forall res w',
        documents_get docs documentId w = (inr res, w') ->
        (forall e, fst (findTextRange fuel docs documentId textToFind instance w)
                   <> Throws e)
        /\ (bodyContent res = None ->
            findTextRange fuel docs documentId textToFind instance w
            = (Returns None, w'))
        /\ (forall content,
              bodyContent res = Some content ->
              normalizeText textToFind <> [] ->
              let fullText :=
                buildFullText (sortSegments (extractTextFromContent content)) in
              length fullText < fuel ->
              (~ occursIn (normalizeText textToFind) (normalizeText fullText) ->
               findTextRange fuel docs documentId textToFind instance w
               = (Returns None, w'))
              /\ (normalizeText textToFind = textToFind ->
                  occursIn textToFind fullText ->
                  (Z.of_nat (length (occurrences fullText textToFind))
                   < instance)%Z ->
                  findTextRange fuel docs documentId textToFind instance w
                  = (Returns None, w'))))
  /\ (forall e,
        fst (highlightApostrophePhrase hexToRgbColor fuel docs documentId
               textToFind instance style w) <> Throws e).
Proof.
  split; [|split].
  - intros error w' Hget. unfold findTextRange. rewrite Hget. split; [reflexivity|].
    split; [|split; [|split]].
    + unfold translateFetchError, codeIs. now intros ->.
    + unfold translateFetchError, codeIs. now intros ->.
    + unfold translateFetchError, codeIs. intros H4 H3.
      destruct (code error) as [c|]; [|reflexivity].
      destruct (Z.eqb_spec c 404); [congruence|].
      destruct (Z.eqb_spec c 403); [congruence | reflexivity].
    + now apply highlightApostrophePhrase_fetch_rejected with (error := error).
  - intros res w' Hget.
    rewrite (findTextRange_fetched _ _ _ _ _ _ _ _ _ _ Hget).
    split; [|split].
    + intros e. simpl. destruct (searchContent _ _ _ _); discriminate.
    + intros ->. reflexivity.
    + intros content -> Hn fullText Hf. subst fullText. split.
      * intros Hno. now rewrite searchContent_absent.
      * intros Hnorm Hocc Hfew. rewrite searchContent_too_few; auto.
        intros ->. now apply Hn.
  - intros e. apply tryCatch_never_throws.
Qed.

(** *** Overlapping occurrences *)

(** C6.  The exact pass restarts at [foundIndex + 1]: with enough fuel
    its hits are all the positions at which the pattern occurs, in
    increasing order, overlapping ones included, each mapped to its native
    range; "aa" in "aaa" is found at the offsets 0 and 1. *)
Theorem exactPass_reports_every_occurrence segs pat fuel :
  pat <> [] -> length (buildFullText segs) < fuel ->
  scanHits (buildFullText segs) pat fuel = Some (occurrences (buildFullText segs) pat)
  /\ exactPass segs fuel pat
     = Some (map (fun i => rangeAt segs i (length pat))
                 (occurrences (buildFullText segs) pat))
  /\ (forall i, In i (occurrences (buildFullText segs) pat)
                <-> i <= length (buildFullText segs)
                    /\ startsWith pat (skipn i (buildFullText segs)) = true)
  /\ StronglySorted lt (occurrences (buildFullText segs) pat)
  /\ scanHits (lit "aaa"%string) (lit "aa"%string) 4 = Some [0; 1].
Proof.
  intros Hp Hf. split; [|split; [|split; [|split]]].
  - now apply scanHits_occurrences.
  - now apply exactPass_occurrences.
  - intros i. unfold occurrences. rewrite occurrencesFrom_In, Nat.sub_0_r.
    split; intros [? ?]; split; auto; lia.
  - apply occurrencesFrom_sorted.
  - reflexivity.
Qed.

Lemma exactPass_reports_every_occurrence_witness :
  scanHits (lit "aaa"%string) (lit "aa"%string) 4 = Some [0; 1]
  /\ exactPass (sortSegments (extractTextFromContent doc_aaa)) 4 (lit "aa"%string)
     = Some [ {| range_start := 1; range_end := 3 |};
              {| range_start := 2; range_end := 4 |} ].
Proof.
  destruct (exactPass_reports_every_occurrence
              (sortSegments (extractTextFromContent doc_aaa)) (lit "aa"%string) 4)
    as (H1 & H2 & _).
  - discriminate.
  - vm_compute. lia.
  - split; [exact H1 | exact H2].
Defined.

(** ** The theorems on sample documents *)

Lemma findTextRange_unique_occurrence_witness :
  exists foundIndex r,
    occurrences (buildFullText (sortSegments (extractTextFromContent doc_hello)))
                (lit "world"%string) = [foundIndex]
    /\ findTextRange 26 (serving doc_hello) docId (lit "world"%string) 1 tt
       = (Returns (Some r), tt)
    /\ range_start r
       = nativeIndex (sortSegments (extractTextFromContent doc_hello)) foundIndex
    /\ range_end r
       = (nativeIndex (sortSegments (extractTextFromContent doc_hello))
                      (foundIndex + length (lit "world"%string) - 1) + 1)%Z
    /\ extractTextFromRange (sortSegments (extractTextFromContent doc_hello))
         (range_start r) (range_end r) = lit "world"%string.
Proof.
  apply (findTextRange_unique_occurrence unit unit (serving doc_hello) docId tt
           {| body := Some (Some doc_hello) |} tt doc_hello (lit "world"%string) 26).
  - reflexivity.
  - reflexivity.
  - split; repeat constructor.
  - discriminate.
  - reflexivity.
  - vm_compute. lia.
Defined.

(** C3 fails as stated: the curly-apostrophe query occurs once, and
    instance 2 is served by the second variant. *)
Lemma findTextRange_beyond_last_counterexample :
  length (occurrences
            (buildFullText (sortSegments (extractTextFromContent doc_its)))
            curly_its) = 1
  /\ findTextRange 20 (serving doc_its) docId curly_its 2 tt
     = (Returns (Some {| range_start := 6; range_end := 10 |}), tt).
Proof. split; reflexivity. Qed.

Lemma findTextRange_instances_witness :
  exists ranges,
    length ranges = 2
    /\ (forall k, 1 <= k <= 2 ->
          exists r, nth_error ranges (k - 1) = Some r
                    /\ findTextRange 26 (serving doc_hello) docId
                         (lit "Hello"%string) (Z.of_nat k) tt
                       = (Returns (Some r), tt))
    /\ (forall j k rj rk, j < k ->
          nth_error ranges j = Some rj -> nth_error ranges k = Some rk ->
          (range_start rj < range_start rk)%Z)
    /\ (1 <= 2 -> normalizeText (lit "Hello"%string) = lit "Hello"%string ->
        findTextRange 26 (serving doc_hello) docId (lit "Hello"%string)
                      (Z.of_nat (2 + 1)) tt
        = (Returns None, tt)).
Proof.
  apply (findTextRange_instances unit unit (serving doc_hello) docId tt
           {| body := Some (Some doc_hello) |} tt doc_hello (lit "Hello"%string) 26).
  - reflexivity.
  - reflexivity.
  - split; repeat constructor.
  - discriminate.
  - vm_compute. lia.
Defined.

Lemma normalizedPass_validated_witness :
  Forall (validated (sortSegments (extractTextFromContent doc_dont))
                    (lit "don't"%string))
         [ {| range_start := 1; range_end := 6 |} ].
Proof.
  apply (proj1 (normalizedPass_validated
                  (sortSegments (extractTextFromContent doc_dont)) 6
                  (lit "don't"%string)
                  [ {| range_start := 1; range_end := 6 |} ] eq_refl)).
Defined.

(** The normalized text "a b c" holds the normalized query "b c", yet the
    candidate is dropped: the span recovered for it does not normalize to
    the query. *)
Example normalizedPass_discards :
  indexOf (normalizeText (lit "a b c"%string))
          (normalizeText (lit "b  c"%string)) 0 = Some 2
  /\ findValidatedMatches (sortSegments (extractTextFromContent doc_abc)) 6
                          (lit "b  c"%string)
     = Some ([], [ExactPass (lit "b  c"%string);
                  NormalizedPass (lit "b  c"%string)]).
Proof. split; reflexivity. Qed.

(** The query " it's" with U+2019, instance 2, in "a it's ": the literal
    query is found by neither pass, the normalized query once, and the
    third variant, the query with U+0027 for its apostrophe, supplies
    the second match. *)
Lemma variants_tried_in_order_witness :
  searchVariants spaced_curly_its
  = [spaced_curly_its; lit "it's"%string; lit " it's"%string]
  /\ findValidatedMatches (sortSegments (extractTextFromContent doc_a_its)) 20
       spaced_curly_its
     = Some ([], [ExactPass spaced_curly_its; NormalizedPass spaced_curly_its])
  /\ findValidatedMatches (sortSegments (extractTextFromContent doc_a_its)) 20
       (lit "it's"%string)
     = Some ([ {| range_start := 3; range_end := 7 |} ],
             [ExactPass (lit "it's"%string)])
  /\ exists m3 p3,
       findValidatedMatches (sortSegments (extractTextFromContent doc_a_its)) 20
         (lit " it's"%string) = Some (m3, p3)
       /\ [ {| range_start := 3; range_end := 7 |};
            {| range_start := 2; range_end := 7 |} ]
          = ([] ++ [ {| range_start := 3; range_end := 7 |} ]) ++ m3
       /\ [ExactPass spaced_curly_its; NormalizedPass spaced_curly_its;
           ExactPass (lit "it's"%string); ExactPass (lit " it's"%string)]
          = ([ExactPass spaced_curly_its; NormalizedPass spaced_curly_its]
             ++ [ExactPass (lit "it's"%string)]) ++ p3.
Proof.
  destruct (variants_tried_in_order
              (sortSegments (extractTextFromContent doc_a_its)) 20
              spaced_curly_its 2
              [ {| range_start := 3; range_end := 7 |};
                {| range_start := 2; range_end := 7 |} ]
              [ExactPass spaced_curly_its; NormalizedPass spaced_curly_its;
               ExactPass (lit "it's"%string); ExactPass (lit " it's"%string)]
              eq_refl)
    as (Hvariants & (m1 & p1 & H1 & Hrest) & _).
  split; [exact Hvariants|].
  split; [reflexivity|]. split; [reflexivity|].
  vm_compute in H1. injection H1 as <- <-.
  destruct Hrest as [(Hle & _)|(_ & m2 & p2 & H2 & Hrest)];
    [simpl in Hle; lia|].
  vm_compute in H2. injection H2 as <- <-.
  destruct Hrest as [(Hle & _)|(_ & m3 & p3 & H3 & Hall & Hlog)];
    [simpl in Hle; lia|].
  exists m3, p3. split; [exact H3|]. split; [exact Hall | exact Hlog].
Defined.

(** C5 fails as stated.  The fetch is rejected with code 404, and
    [highlightApostrophePhrase] answers [false] where a user error for a
    document not found was to surface.  The query "don't" does not occur
    in a document that spells it with U+2019, and is found.  The query
    with U+2019 occurs once in "don't don't", and instance 2 is found.
    The query of one space does not occur in "aaa", and the search for it
    never returns. *)
Lemma fetch_failure_swallowed_counterexample :
  (documents_get (rejecting 404) docId tt = (inl notFound, tt)
   /\ highlightApostrophePhrase noColor 30 (rejecting 404) docId
        (lit "that's almost 20% more"%string) 1 boldStyle tt
      = (Returns false, tt)
   /\ fst (highlightApostrophePhrase noColor 30 (rejecting 404) docId
             (lit "that's almost 20% more"%string) 1 boldStyle tt)
      <> Throws (UserError DocumentNotFound))
  /\ (occurrences
        (buildFullText (sortSegments (extractTextFromContent doc_dont)))
        (lit "don't"%string) = []
      /\ findTextRange 20 (serving doc_dont) docId (lit "don't"%string) 1 tt
         = (Returns (Some {| range_start := 1; range_end := 6 |}), tt))
  /\ (length (occurrences
                (buildFullText (sortSegments (extractTextFromContent doc_donts)))
                curly_dont) = 1
      /\ findTextRange 20 (serving doc_donts) docId curly_dont 2 tt
         = (Returns (Some {| range_start := 7; range_end := 12 |}), tt))
  /\ (occurrences
        (buildFullText (sortSegments (extractTextFromContent doc_aaa)))
        (lit " "%string) = []
      /\ forall fuel,
           findTextRange fuel (serving doc_aaa) docId (lit " "%string) 1 tt
           = (StillRunning, tt)).
Proof.
  split; [repeat split; discriminate|].
  split; [split; reflexivity|]. split; [split; reflexivity|].
  split; [reflexivity|]. intros fuel.
  unfold findTextRange, serving; simpl. unfold ofOption, searchContent.
  cbn [tryVariants searchVariants]. unfold findValidatedMatches.
  destruct (exactPass _ fuel (lit " "%string)) as [m|] eqn:E; [|reflexivity].
  assert (m = []) as ->.
  { destruct fuel as [|[|f]]; try discriminate; simpl in E; now injection E. }
  simpl. unfold normalizedPass.
  change (normalizeText (lit " "%string)) with (@nil codeUnit).
  now rewrite scanLoop_empty_pattern.
Qed.

Lemma fetch_failures_surface_witness :
  (findTextRange 30 (rejecting 404) docId (lit "Hello"%string) 1 tt
   = (Throws (UserError DocumentNotFound), tt)
   /\ highlightApostrophePhrase noColor 30 (rejecting 404) docId
        (lit "Hello"%string) 1 boldStyle tt = (Returns false, tt))
  /\ findTextRange 30 (rejecting 403) docId (lit "Hello"%string) 1 tt
     = (Throws (UserError PermissionDenied), tt)
  /\ findTextRange 30 (rejecting 500) docId (lit "Hello"%string) 1 tt
     = (Throws InternalError, tt)
  /\ findTextRange 30 (serving doc_hello) docId (lit "Goodbye"%string) 1 tt
     = (Returns None, tt)
  /\ findTextRange 30 (serving doc_hello) docId (lit "Hello"%string) 3 tt
     = (Returns None, tt).
Proof.
  split; [|split; [|split; [|split]]].
  - destruct (proj1 (fetch_failures_surface unit unit noColor (rejecting 404)
                       docId (lit "Hello"%string) 1 boldStyle 30 tt)
                notFound tt eq_refl) as (Hthrown & _ & _ & _ & Hfalse).
    split; [exact Hthrown | exact Hfalse].
  - apply (proj1 (fetch_failures_surface unit unit noColor (rejecting 403) docId
                    (lit "Hello"%string) 1 boldStyle 30 tt)
                 {| code := Some 403%Z; message := [] |} tt).
    reflexivity.
  - apply (proj1 (fetch_failures_surface unit unit noColor (rejecting 500) docId
                    (lit "Hello"%string) 1 boldStyle 30 tt)
                 {| code := Some 500%Z; message := [] |} tt).
    reflexivity.
  - apply (proj1 (proj2 (proj2 (proj1 (proj2
             (fetch_failures_surface unit unit noColor (serving doc_hello) docId
                (lit "Goodbye"%string) 1 boldStyle 30 tt))
             {| body := Some (Some doc_hello) |} tt eq_refl))
             doc_hello eq_refl ltac:(vm_compute; discriminate)
             ltac:(vm_compute; lia))).
    intros H. apply occurrences_occursIn in H. apply H. reflexivity.
  - apply (proj2 (proj2 (proj2 (proj1 (proj2
             (fetch_failures_surface unit unit noColor (serving doc_hello) docId
                (lit "Hello"%string) 3 boldStyle 30 tt))
             {| body := Some (Some doc_hello) |} tt eq_refl))
             doc_hello eq_refl ltac:(vm_compute; discriminate)
             ltac:(vm_compute; lia))).
    + reflexivity.
    + exists [], (lit " world. Hello again."%string). reflexivity.
    + vm_compute. reflexivity.
Defined.

Lemma getParagraphRange_first_paragraph_witness :
  getParagraphRange (serving doc_table) docId 5 tt
  = (Returns (Some {| range_start := 3; range_end := 10 |}), tt).
Proof.
  destruct (getParagraphRange_first_paragraph unit unit (serving doc_table) docId
              tt {| body := Some (Some doc_table) |} tt doc_table 5 eq_refl eq_refl)
    as (result & Hget & Hfirst & _).
  rewrite Hget, Hfirst. reflexivity.
Defined.

(** Both halves of "that's almost 20% more" are found and styled; of
    "Hello's there friend" only the first half is in the document. *)
Example highlightApostrophePhrase_examples :
  splitAtApostrophe (lit "that's almost 20% more"%string)
  = Some (lit "that"%string, lit "s almost 20% more"%string)
  /\ highlightApostrophePhrase noColor 30 (serving doc_phrase) docId
       (lit "that's almost 20% more"%string) 1 boldStyle tt = (Returns true, tt)
  /\ findTextRange 30 (serving doc_hello) docId (lit "Hello"%string) 1 tt
     = (Returns (Some {| range_start := 1; range_end := 6 |}), tt)
  /\ highlightApostrophePhrase noColor 30 (serving doc_hello) docId
       (lit "Hello's there friend"%string) 1 boldStyle tt = (Returns false, tt).
Proof. repeat split. Qed.


Lemma findTextRange_scans_terminate_witness :
  fst (findTextRange 26 (serving doc_hello) docId (lit "Hello"%string) 2 tt)
  <> StillRunning.
Proof.
  refine (proj1 (findTextRange_scans_terminate unit unit (serving doc_hello)
                   docId tt (lit "Hello"%string) 2 26 _ _ _)).
  - discriminate.
  - vm_compute. discriminate.
  - intros res w' content Hget Hbody. injection Hget as <- <-.
    injection Hbody as <-. vm_compute. lia.
Defined.

(** Without the hypothesis the scan does not end: a query of one space
    finds nothing exactly, normalizes to the empty string, and the second
    loop never leaves. *)
Example blank_query_keeps_scanning fuel :
  findTextRange fuel (serving doc_aaa) docId (lit " "%string) 1 tt
  = (StillRunning, tt).
Proof.
  unfold findTextRange, serving; simpl. unfold ofOption, searchContent.
  cbn [tryVariants searchVariants]. unfold findValidatedMatches.
  destruct (exactPass _ fuel (lit " "%string)) as [m|] eqn:E; [|reflexivity].
  assert (m = []) as ->.
  { destruct fuel as [|[|f]]; try discriminate; simpl in E; now injection E. }
  simpl. unfold normalizedPass.
  change (normalizeText (lit " "%string)) with (@nil codeUnit).
  now rewrite scanLoop_empty_pattern.
Qed.

(** C7.  Normalizing twice is normalizing once. *)
Theorem normalizeText_idempotent s :
  normalizeText (normalizeText s) = normalizeText s.
Proof. apply normalizeText_fixed. Qed.

(** * Further properties of the helpers *)

(** ** The [Map] that removes duplicates *)

(** X1.  The [Map] built from [allMatches] (lines 263-265) keeps every
    range that was found and no range twice, and a list without
    repetitions passes through it unchanged, in its order. *)
Theorem uniqueMatches_distinct_and_complete allMatches :
  NoDup (uniqueRanges allMatches)
  /\ (forall r, In r (uniqueRanges allMatches) <-> In r allMatches)
  /\ (NoDup allMatches -> uniqueRanges allMatches = allMatches).
Proof.
  destruct (uniqueRanges_facts allMatches) as [Hnd Hin].
  split; [eapply NoDup_map_inv'; eauto | split; [exact Hin|]].
  intros H. now apply uniqueRanges_distinct, NoDup_rangeKeys.
Qed.

(** X2.  Instances are counted in document order: when [findTextRange]
    would select [a] as instance [j] and [b] as a later instance [k] from
    the same matches, both were found, [a] does not start after [b], and
    the two are different ranges. *)
Theorem selectInstance_ordered allMatches j k a b :
  selectInstance allMatches j = Some a ->
  selectInstance allMatches k = Some b ->
  (j < k)%Z ->
  In a allMatches /\ In b allMatches
  /\ (range_start a <= range_start b)%Z /\ a <> b.
Proof.
  intros Ha Hb Hjk.
  split; [eapply selectInstance_member; eauto|].
  split; [eapply selectInstance_member; eauto|].
  apply selectInstance_nth in Ha as [Hj Ha]. apply selectInstance_nth in Hb as [Hk Hb].
  split.
  - eapply (sorted_nth_le range_start); [apply stableSort_sorted | | exact Ha | exact Hb].
    lia.
  - intros ->.
    assert (Hnd : NoDup (sortRanges (uniqueRanges allMatches))).
    { eapply Permutation_NoDup; [apply stableSort_perm|].
      eapply NoDup_map_inv'. apply uniqueRanges_facts. }
    rewrite NoDup_nth_error in Hnd.
    assert (Z.to_nat (j - 1) = Z.to_nat (k - 1)); [|lia].
    apply Hnd; [|congruence].
    apply nth_error_Some. congruence.
Qed.

(** X3.  Ranges found again, as a later search variant finds those of an
    earlier one, do not change which range an instance number selects. *)
Theorem selectInstance_ignores_duplicates allMatches more instance :
  (forall r, In r more -> In r allMatches) ->
  selectInstance (allMatches ++ more) instance
  = selectInstance allMatches instance.
Proof.
  intros Hmore. unfold selectInstance.
  assert (E : uniqueRanges (allMatches ++ more) = uniqueRanges allMatches);
    [|now rewrite E].
  rewrite !uniqueRanges_setAll, map_app. unfold setAll at 1.
  rewrite fold_left_app. fold (setAll (map entryOf allMatches) []).
  fold (setAll (map entryOf more) (setAll (map entryOf allMatches) [])).
  destruct (setAll_invariant allMatches [] (Forall_nil _) (NoDup_nil _))
    as (Hk & Hnd & Hin).
  rewrite setAll_present; [reflexivity | exact Hk |].
  intros r Hr. apply Hin. right. apply in_map. auto.
Qed.

(** ** Runs that return *)

Lemma scanLoop_more_fuel {A} s pat (body : nat -> list A -> list A) :
  forall fuel k acc matches,
    scanLoop s pat body fuel k acc = Some matches ->
    forall fuel', fuel <= fuel' -> scanLoop s pat body fuel' k acc = Some matches.
Proof.
  induction fuel as [|fuel IH]; intros k acc matches H fuel' Hle; [discriminate|].
  destruct fuel' as [|fuel']; [lia|]. cbn [scanLoop] in *.
  destruct (indexOf s pat k); [|exact H].
  apply IH with (fuel' := fuel') in H; [exact H | lia].
Qed.

Lemma exactPass_returned segs fuel pat matches :
  exactPass segs fuel pat = Some matches ->
  pat <> [] /\ matches = exactRanges segs pat.
Proof.
  intros H. destruct pat as [|c pat].
  - unfold exactPass in H. now rewrite scanLoop_empty_pattern in H.
  - split; [discriminate|].
    unfold exactPass in H.
    apply scanLoop_more_fuel
      with (fuel' := Nat.max fuel (S (length (buildFullText segs)))) in H; [|lia].
    fold (exactPass segs (Nat.max fuel (S (length (buildFullText segs)))) (c :: pat)) in H.
    rewrite exactPass_occurrences in H; [|discriminate|lia].
    now injection H as <-.
Qed.

Lemma normalizedPass_blank segs fuel pat :
  normalizeText pat = [] -> normalizedPass segs fuel pat = None.
Proof.
  intros H. unfold normalizedPass. rewrite H. apply scanLoop_empty_pattern.
Qed.

Lemma findValidatedMatches_returned segs fuel pat matches passes :
  findValidatedMatches segs fuel pat = Some (matches, passes) ->
  pat <> [] /\ normalizeText pat <> [] \/
  pat <> [] /\ matches = exactRanges segs pat /\ matches <> [].
Proof.
  unfold findValidatedMatches. intros H.
  destruct (exactPass segs fuel pat) as [m|] eqn:E; [|discriminate].
  apply exactPass_returned in E as [Hp ->].
  destruct (exactRanges segs pat) as [|r l] eqn:Er; simpl in H.
  - left. split; [exact Hp|]. intros Hn.
    now rewrite (normalizedPass_blank _ _ _ Hn) in H.
  - right. injection H as <- _. repeat split; auto. discriminate.
Qed.

(** X5.  A query made of white space only: on a fetched document with
    content [findTextRange] never returns when the query is empty, when
    it does not occur in the flattened text, or when it occurs fewer than
    [instance] times, whatever the number of iterations allowed; it
    returns, once the scan may run over the whole text, when the query
    occurs at least [instance] times. *)
Theorem findTextRange_blank_query
  World RgbColor (docs : Docs World RgbColor) documentId w res w' content
  textToFind instance :
  documents_get docs documentId w = (inr res, w') ->
  bodyContent res = Some content ->
  normalizeText textToFind = [] ->
  let fullText :=
    buildFullText (sortSegments (extractTextFromContent content)) in
  (textToFind = []
   \/ occurrences fullText textToFind = []
   \/ (Z.of_nat (length (occurrences fullText textToFind)) < instance)%Z ->
   forall fuel,
     findTextRange fuel docs documentId textToFind instance w
     = (StillRunning, w'))
  /\ (textToFind <> [] ->
      occurrences fullText textToFind <> [] ->
      (instance <= Z.of_nat (length (occurrences fullText textToFind)))%Z ->
      forall fuel, length fullText < fuel ->
        exists result,
          findTextRange fuel docs documentId textToFind instance w
          = (Returns result, w')).
Proof.
  intros Hget Hbody Hblank fullText. subst fullText.
  set (segs := sortSegments (extractTextFromContent content)) in *.
  split.
  - intros Hcase fuel.
    rewrite (findTextRange_fetched _ _ _ _ _ _ _ _ _ _ Hget), Hbody.
    unfold searchContent, searchVariants. cbn [tryVariants]. fold segs.
    destruct (findValidatedMatches segs fuel textToFind) as [[m p]|] eqn:E;
      [|reflexivity].
    apply findValidatedMatches_returned in E as [[_ Hn]|(Hp & -> & Hm)];
      [congruence|].
    destruct Hcase as [->|[Hnone|Hfew]]; [congruence| |].
    { exfalso. apply Hm. unfold exactRanges. now rewrite Hnone. }
    cbn [app]. rewrite exactRanges_length.
    destruct (Z.leb_spec instance
                (Z.of_nat (length (occurrences (buildFullText segs) textToFind))));
      [lia|].
    rewrite Hblank. unfold findValidatedMatches at 1, exactPass.
    now rewrite scanLoop_empty_pattern.
  - intros Hp Hocc Hle fuel Hfuel.
    rewrite (findTextRange_fetched _ _ _ _ _ _ _ _ _ _ Hget), Hbody.
    unfold searchContent, searchVariants. cbn [tryVariants]. fold segs.
    rewrite (findValidatedMatches_exact segs fuel textToFind Hp Hfuel Hocc).
    cbn [app]. rewrite exactRanges_length.
    destruct (Z.leb_spec instance
                (Z.of_nat (length (occurrences (buildFullText segs) textToFind))));
      [eauto | lia].
Qed.

(** X6.  For an [instance] below 1 [findTextRange] never returns a range:
    the test of line 269 passes and the array is read at a negative
    index. *)
Theorem findTextRange_instance_below_one
  World RgbColor (docs : Docs World RgbColor) documentId w textToFind instance
  fuel result w' :
  (instance <= 0)%Z ->
  findTextRange fuel docs documentId textToFind instance w = (Returns result, w') ->
  result = None.
Proof.
  intros Hle. unfold findTextRange.
  destruct (documents_get docs documentId w) as [[error|res] w1]; [discriminate|].
  unfold ofOption, searchContent.
  destruct (bodyContent res) as [content|]; [|now intros [= <- _]].
  destruct (tryVariants _ _ _ _ _ _) as [[m p]|]; [|discriminate].
  intros [= <- _]. unfold selectInstance, arrayGet.
  destruct (instance <=? _)%Z; [|reflexivity].
  destruct (Z.ltb_spec (instance - 1) 0); [reflexivity | lia].
Qed.

Lemma tryVariants_members segs fuel instance variants :
  forall acc log allMatches log',
    tryVariants segs fuel variants instance acc log = Some (allMatches, log') ->
    forall r, In r allMatches ->
      In r acc
      \/ exists v m p, In v variants
                       /\ findValidatedMatches segs fuel v = Some (m, p)
                       /\ In r m.
Proof.
  induction variants as [|v vs IH]; intros acc log allMatches log' H r Hr;
    cbn [tryVariants] in H.
  - injection H as <- _. now left.
  - destruct (findValidatedMatches segs fuel v) as [[m p]|] eqn:E; [|discriminate].
    assert (Hstep : In r (acc ++ m) ->
              In r acc \/ exists v' m' p', In v' (v :: vs)
                /\ findValidatedMatches segs fuel v' = Some (m', p') /\ In r m').
    { intros Hin. apply in_app_iff in Hin as [Hin|Hin]; [now left|].
      right. exists v, m, p. repeat split; auto. now left. }
    destruct (instance <=? _)%Z.
    + injection H as <- _. auto.
    + apply (IH _ _ _ _ H) in Hr as [Hr|(v' & m' & p' & Hv & Hf & Hin)]; [auto|].
      right. exists v', m', p'. repeat split; auto. now right.
Qed.

Lemma normalizedPass_all_validated segs fuel searchText matches :
  normalizedPass segs fuel searchText = Some matches ->
  Forall (validated segs searchText) matches.
Proof.
  unfold normalizedPass. intros H.
  eapply (scanLoop_invariant (Forall (validated segs searchText))); [| |exact H].
  - intros i acc Hacc. unfold normalizedBody. apply pushMapped_accepts; [|exact Hacc].
    intros r Hr. now apply string_eqb_eq in Hr.
  - constructor.
Qed.

Lemma variant_normalized textToFind v :
  In v (searchVariants textToFind) -> normalizeText v = normalizeText textToFind.
Proof.
  intros [<-|[<-|[<-|[]]]];
    auto using normalizeText_fixed, normalizeText_standardize.
Qed.

(** X4.  On a document with well-formed segments, a range returned by
    [findTextRange] was asked for with an [instance] of at least 1, and
    the text of the document over that range normalizes to the normalized
    query; either that text is one of the three search variants, or the
    range is one that the normalized pass of a variant kept. *)
Theorem findTextRange_sound
  World RgbColor (docs : Docs World RgbColor) documentId w res w' content
  textToFind instance fuel r w'' :
  documents_get docs documentId w = (inr res, w') ->
  bodyContent res = Some content ->
  wellFormedSegments (extractTextFromContent content) ->
  findTextRange fuel docs documentId textToFind instance w
  = (Returns (Some r), w'') ->
  (1 <= instance)%Z
  /\ normalizeText
       (extractTextFromRange (sortSegments (extractTextFromContent content))
                             (range_start r) (range_end r))
     = normalizeText textToFind
  /\ (In (extractTextFromRange (sortSegments (extractTextFromContent content))
                               (range_start r) (range_end r))
         (searchVariants textToFind)
      \/ exists v matches,
           In v (searchVariants textToFind)
           /\ normalizedPass (sortSegments (extractTextFromContent content))
                             fuel v = Some matches
           /\ In r matches).
Proof.
  intros Hget Hbody Hwf H.
  rewrite (findTextRange_fetched _ _ _ _ _ _ _ _ _ _ Hget), Hbody in H.
  unfold searchContent in H.
  set (segs := sortSegments (extractTextFromContent content)) in *.
  destruct (tryVariants segs fuel (searchVariants textToFind) instance [] [])
    as [[allMatches log]|] eqn:Hrun; [|discriminate].
  injection H as H _.
  split; [now apply selectInstance_nth in H|].
  apply selectInstance_member in H.
  apply (tryVariants_members _ _ _ _ _ _ _ _ Hrun) in H
    as [[]|(v & m & p & Hv & Hf & Hin)].
  pose proof (variant_normalized _ _ Hv) as Hnv.
  unfold findValidatedMatches in Hf.
  destruct (exactPass segs fuel v) as [e|] eqn:He; [|discriminate].
  apply exactPass_returned in He as [Hp ->].
  destruct (exactRanges segs v) as [|r0 l] eqn:Er; cbn [length Nat.eqb] in Hf.
  - destruct (normalizedPass segs fuel v) as [m'|] eqn:Hn; [|discriminate].
    injection Hf as <- _.
    pose proof (normalizedPass_all_validated _ _ _ _ Hn) as HF.
    rewrite Forall_forall in HF. specialize (HF _ Hin). unfold validated in HF.
    split; [congruence|]. right. exists v, m'. auto.
  - injection Hf as <- _. rewrite <- Er in Hin.
    pose proof (exactRanges_text content v r Hwf Hp Hin) as Ht. fold segs in Ht.
    rewrite Ht. split; [exact Hnv | now left].
Qed.

(** ** The shape of a normalized string *)

Lemma canon_fixed_chars c : canon c = c ->
  (isApostrophe c = true -> c = apostrophe)
  /\ isDoubleQuote c = false /\ isDash c = false.
Proof.
  cbv zeta beta delta [canon isApostrophe isDoubleQuote isDash apostrophe doubleQuote hyphen].
  intros H. repeat split; revert H.
  - destruct (N.eqb_spec c 39); [auto|].
    destruct (N.eqb_spec c 8217); [subst; vm_compute; discriminate|].
    destruct (N.eqb_spec c 8216); [subst; vm_compute; discriminate|].
    destruct (N.eqb_spec c 8219); [subst; vm_compute; discriminate|].
    destruct (N.eqb_spec c 96); [subst; vm_compute; discriminate|].
    destruct (N.eqb_spec c 180); [subst; vm_compute; discriminate|].
    discriminate.
  - destruct (N.eqb_spec c 8220); [subst; vm_compute; discriminate|].
    destruct (N.eqb_spec c 8221); [subst; vm_compute; discriminate|].
    destruct (N.eqb_spec c 8222); [subst; vm_compute; discriminate|].
    destruct (N.eqb_spec c 8223); [subst; vm_compute; discriminate|].
    destruct (N.eqb_spec c 8243); [subst; vm_compute; discriminate|].
    destruct (N.eqb_spec c 8246); [subst; vm_compute; discriminate|].
    reflexivity.
  - destruct (N.eqb_spec c 8211); [subst; vm_compute; discriminate|].
    destruct (N.eqb_spec c 8212); [subst; vm_compute; discriminate|].
    destruct (N.eqb_spec c 8213); [subst; vm_compute; discriminate|].
    reflexivity.
Qed.

Lemma collapsed_no_double_space s : forall b,
  collapsed b s ->
  forall k, nth_error s k = Some space -> nth_error s (S k) <> Some space.
Proof.
  induction s as [|c s IH]; intros b H k Hk; [destruct k; discriminate|].
  destruct k as [|k].
  - simpl in Hk. injection Hk as ->. simpl in H. destruct H as (_ & _ & H).
    destruct s as [|d s]; [discriminate|]. simpl. intros [= ->].
    simpl in H. destruct H as (_ & H & _). discriminate.
  - simpl in H. destruct (isWhiteSpace c).
    + destruct H as (_ & _ & H). exact (IH true H k Hk).
    + exact (IH false H k Hk).
Qed.

Lemma trimEnd_last s pre c :
  trimEnd s = pre ++ [c] -> isWhiteSpace c = false.
Proof.
  revert pre. induction s as [|d s IH]; intros pre H; simpl in H.
  - destruct pre; discriminate.
  - destruct (trimEnd s) as [|e t] eqn:Et.
    + destruct (isWhiteSpace d) eqn:Hd; [destruct pre; discriminate|].
      destruct pre as [|x pre]; [now injection H as <- | ].
      injection H as _ H. destruct pre; discriminate.
    + destruct pre as [|x pre]; [discriminate|].
      injection H as _ H. now apply (IH pre).
Qed.

Lemma trimEnd_keeps_head s :
  match s with [] => True | c :: _ => isWhiteSpace c = false end ->
  hd_error (trimEnd s) = hd_error s.
Proof.
  destruct s as [|c s]; simpl; [auto|]. intros Hc.
  destruct (trimEnd s); [now rewrite Hc | reflexivity].
Qed.

(** X7.  Every result of [normalizeText] holds no apostrophe, quotation
    mark or dash of the classes it replaces other than the ASCII ones, no
    white space other than single spaces, none of them first or last, and
    is no longer than the input. *)
Theorem normalizeText_shape s :
  Forall canonicalChar (normalizeText s)
  /\ (forall k, nth_error (normalizeText s) k = Some space ->
                nth_error (normalizeText s) (S k) <> Some space)
  /\ hd_error (normalizeText s) <> Some space
  /\ (forall pre, normalizeText s <> pre ++ [space])
  /\ length (normalizeText s) <= length s.
Proof.
  pose proof (length_normalizeText s) as Hlen.
  rewrite normalizeText_short in *.
  set (y := replaceRuns isWhiteSpace space false (map canon s)) in *.
  assert (Hc : collapsed false (trim y))
    by (apply collapsed_trimEnd, collapsed_trimStart with false, collapsed_replaceRuns).
  split; [|split; [|split; [|split]]].
  - assert (Hcan : Forall (fun c => canon c = c) (trim y)).
    { apply Forall_trimEnd, Forall_trimStart, Forall_replaceRuns; [reflexivity|].
      apply Forall_forall. intros c Hin. apply in_map_iff in Hin as (d & <- & _).
      apply canon_idempotent. }
    pose proof (collapsed_only_spaces _ _ Hc) as Hws.
    rewrite Forall_forall in *. intros c Hin.
    destruct (canon_fixed_chars c (Hcan c Hin)) as (? & ? & ?).
    repeat split; auto.
  - now apply collapsed_no_double_space with false.
  - unfold trim. pose proof (trimStart_head y) as Hh.
    rewrite trimEnd_keeps_head by exact Hh.
    destruct (trimStart y) as [|c t]; simpl; [discriminate|].
    intros [= ->]. discriminate.
  - intros pre H. unfold trim in H. apply trimEnd_last in H. discriminate.
  - exact Hlen.
Qed.

(** X8.  The replacements of lines 132 and 133 never apply: after
    [\s+] has been replaced no U+00A0 is left, and the pattern of line
    133 is the literal text of a range, not a class.  [normalizeText] is
    the first four replacements followed by [trim]. *)
Theorem normalizeText_last_replacements_idle s :
  normalizeText s
  = trim (replaceRuns isWhiteSpace space false
            (replaceClass isDash hyphen
               (replaceClass isDoubleQuote doubleQuote
                  (replaceClass isApostrophe apostrophe s)))).
Proof. rewrite normalizeText_short. now rewrite replaceClass_compose. Qed.

(** X9.  The three search variants normalize to the same string, so the
    normalized pass of each of them is the same search. *)
Theorem variants_share_normalized_pass segs fuel textToFind searchVariant :
  In searchVariant (searchVariants textToFind) ->
  normalizeText searchVariant = normalizeText textToFind
  /\ normalizedPass segs fuel searchVariant = normalizedPass segs fuel textToFind.
Proof.
  intros H. pose proof (variant_normalized _ _ H) as E.
  split; [exact E|]. unfold normalizedPass. now rewrite E.
Qed.

(** ** The segments and the character map *)

Lemma paragraphSegments_nonempty p :
  Forall (fun seg => text seg <> []) (paragraphSegments p).
Proof.
  destruct p as [[[pes|]]|]; simpl; try constructor.
  induction pes as [|pe pes IH]; simpl; [constructor|].
  apply Forall_app. split; [|exact IH].
  destruct (textRun pe) as [[[[|c cs]|]]|]; try constructor.
  destruct (pe_startIndex pe), (pe_endIndex pe); repeat constructor. discriminate.
Qed.

Lemma extractTextFromElement_nonempty element :
  Forall (fun seg => text seg <> []) (extractTextFromElement element).
Proof.
  induction element as [s e p t sb toc IH] using element_ind.
  cbn [extractTextFromElement]. apply Forall_app.
  split; [apply paragraphSegments_nonempty|].
  destruct t as [[[rows|]]|]; try constructor.
  rewrite (forEachRow_chain _ [] (@app _)) by (auto using app_assoc).
  cbn [cellContents] in IH.
  induction (flat_map rowCells rows) as [|cell cells IHc]; [constructor|].
  cbn [fold_right]. apply Forall_app. split.
  - specialize (IH cell (or_introl eq_refl)).
    induction IH as [|el els Hel _ IHe]; simpl; [constructor|].
    apply Forall_app. now split.
  - apply IHc. intros c Hc. apply IH. now right.
Qed.

Lemma buildFullText_nil segs :
  Forall (fun seg => text seg <> []) segs ->
  buildFullText segs = [] -> segs = [].
Proof.
  destruct 1 as [|seg segs Hseg _]; [reflexivity|].
  unfold buildFullText. simpl. destruct (text seg); [congruence | discriminate].
Qed.

(** X10.  [extractTextFromContent] keeps no text run with empty content:
    every segment, before and after sorting, has text, and the flattened
    text is empty only when there is no segment. *)
Theorem extracted_segments_nonempty content :
  Forall (fun seg => text seg <> []) (extractTextFromContent content)
  /\ Forall (fun seg => text seg <> [])
            (sortSegments (extractTextFromContent content))
  /\ (buildFullText (sortSegments (extractTextFromContent content)) = []
      <-> extractTextFromContent content = []).
Proof.
  assert (H : Forall (fun seg => text seg <> []) (extractTextFromContent content)).
  { unfold extractTextFromContent.
    induction content as [|el els IH]; simpl; [constructor|].
    apply Forall_app. split; [apply extractTextFromElement_nonempty | exact IH]. }
  assert (Hs : Forall (fun seg => text seg <> [])
                 (sortSegments (extractTextFromContent content)))
    by (eapply Permutation_Forall; [apply stableSort_perm | exact H]).
  split; [exact H | split; [exact Hs|]]. split.
  - intros E. apply (buildFullText_nil _ Hs) in E.
    pose proof (stableSort_perm startIndex (extractTextFromContent content)) as Hp.
    fold (sortSegments (extractTextFromContent content)) in Hp. rewrite E in Hp.
    now apply Permutation_nil.
  - intros ->. reflexivity.
Qed.

Lemma segmentMappings_nth i seg k m :
  nth_error (segmentMappings i seg) k = Some m ->
  k < length (text seg)
  /\ m = {| segmentIndex := i; charIndex := k;
            originalIndex := startIndex seg + Z.of_nat k |}.
Proof.
  unfold segmentMappings. rewrite nth_error_map.
  destruct (nth_error (seq 0 (length (text seg))) k) as [j|] eqn:E; [|discriminate].
  assert (Hk : k < length (seq 0 (length (text seg))))
    by (apply nth_error_Some; congruence).
  rewrite length_seq in Hk.
  rewrite (nth_error_nth' _ 0) in E by now rewrite length_seq.
  rewrite seq_nth in E by exact Hk. injection E as <-.
  simpl. intros [= <-]. auto.
Qed.

Lemma length_segmentMappings i seg :
  length (segmentMappings i seg) = length (text seg).
Proof. unfold segmentMappings. now rewrite length_map, length_seq. Qed.

Lemma buildCharMap_nth segs : forall i k m,
  nth_error (buildCharMap i segs) k = Some m ->
  exists seg c,
    i <= segmentIndex m
    /\ nth_error segs (segmentIndex m - i) = Some seg
    /\ nth_error (text seg) (charIndex m) = Some c
    /\ nth_error (buildFullText segs) k = Some c
    /\ k = length (buildFullText (firstn (segmentIndex m - i) segs)) + charIndex m
    /\ originalIndex m = (startIndex seg + Z.of_nat (charIndex m))%Z.
Proof.
  induction segs as [|seg segs IH]; intros i k m H; cbn [buildCharMap] in H.
  - destruct k; discriminate.
  - unfold buildFullText in *. cbn [flat_map].
    destruct (Nat.lt_ge_cases k (length (text seg))) as [Hk|Hk].
    + rewrite nth_error_app1 in H by now rewrite length_segmentMappings.
      apply segmentMappings_nth in H as [_ ->]. cbn.
      destruct (nth_error (text seg) k) as [c|] eqn:E.
      * exists seg, c. rewrite Nat.sub_diag. cbn.
        rewrite nth_error_app1 by exact Hk. repeat split; auto.
      * apply nth_error_None in E. lia.
    + rewrite nth_error_app2 in H by now rewrite length_segmentMappings.
      rewrite length_segmentMappings in H.
      apply IH in H as (sg & c & Hi & Hseg & Hc & Hfull & Hpos & Ho).
      exists sg, c.
      replace (segmentIndex m - i) with (S (segmentIndex m - S i)) by lia.
      cbn [nth_error firstn flat_map].
      rewrite nth_error_app2 by exact Hk. rewrite length_app.
      repeat split; auto; lia.
Qed.

(** X11.  [charToSegmentMap] has one entry per character of [fullText];
    the entry at position [k] names the segment and the offset in it of
    that character, [k] is the length of the earlier segments plus the
    offset, and [originalIndex] is the start of the segment plus the
    offset. *)
Theorem charToSegmentMap_invariant segs :
  length (buildCharMap 0 segs) = length (buildFullText segs)
  /\ forall k m,
       nth_error (buildCharMap 0 segs) k = Some m ->
       exists segment c,
         nth_error segs (segmentIndex m) = Some segment
         /\ nth_error (text segment) (charIndex m) = Some c
         /\ nth_error (buildFullText segs) k = Some c
         /\ k = length (buildFullText (firstn (segmentIndex m) segs))
                + charIndex m
         /\ originalIndex m
            = (startIndex segment + Z.of_nat (charIndex m))%Z.
Proof.
  split; [apply length_charMap|].
  intros k m H. apply buildCharMap_nth in H as (seg & c & _ & H).
  rewrite Nat.sub_0_r in H. exists seg, c. exact H.
Qed.

(** ** Ranges next to each other *)

Lemma filter_inRange_above lo lo' hi t :
  (lo <= lo')%Z ->
  Forall (fun o => lo' <= o)%Z (map snd t) ->
  filter (inRange lo hi) t = filter (inRange lo' hi) t.
Proof.
  intros Hle H. apply filter_ext_in. intros p Hp.
  rewrite Forall_forall in H. specialize (H (snd p) (in_map snd _ _ Hp)).
  unfold inRange. destruct (Z.leb_spec lo (snd p)), (Z.leb_spec lo' (snd p));
    try reflexivity; lia.
Qed.

Lemma filter_inRange_none lo hi t :
  Forall (fun o => hi <= o)%Z (map snd t) -> filter (inRange lo hi) t = [].
Proof.
  intros H. induction t as [|p t IH]; simpl; [reflexivity|].
  inversion H; subst. rewrite IH by assumption. unfold inRange.
  destruct (Z.ltb_spec (snd p) hi); [lia|]. now rewrite andb_false_r.
Qed.

Lemma inRange_true lo hi (p : codeUnit * Z) :
  (lo <= snd p < hi)%Z -> inRange lo hi p = true.
Proof.
  intros H. unfold inRange. apply andb_true_iff.
  split; [apply Z.leb_le | apply Z.ltb_lt]; lia.
Qed.

Lemma inRange_false lo hi (p : codeUnit * Z) :
  (snd p < lo \/ hi <= snd p)%Z -> inRange lo hi p = false.
Proof.
  intros H. unfold inRange. apply andb_false_iff.
  destruct H; [left; apply Z.leb_gt | right; apply Z.ltb_ge]; lia.
Qed.

Lemma filter_inRange_split lo mid hi t :
  (lo <= mid <= hi)%Z -> StronglySorted Z.lt (map snd t) ->
  filter (inRange lo mid) t ++ filter (inRange mid hi) t = filter (inRange lo hi) t.
Proof.
  intros Hle. induction t as [|p t IH]; intros Hs; [reflexivity|].
  simpl in Hs. apply StronglySorted_inv in Hs as [Hs Hp]. specialize (IH Hs).
  cbn [filter].
  destruct (Z.lt_ge_cases (snd p) lo) as [H1|H1].
  { rewrite !inRange_false by lia. exact IH. }
  destruct (Z.lt_ge_cases (snd p) mid) as [H2|H2].
  { rewrite (inRange_true lo mid), (inRange_false mid hi), (inRange_true lo hi)
      by lia.
    simpl. now rewrite IH. }
  destruct (Z.lt_ge_cases (snd p) hi) as [H3|H3].
  { rewrite (inRange_false lo mid), (inRange_true mid hi), (inRange_true lo hi)
      by lia.
    rewrite (filter_inRange_none lo mid) in *.
    - simpl in *. now rewrite IH.
    - eapply Forall_impl; [|exact Hp]. simpl. intros; lia.
    - eapply Forall_impl; [|exact Hp]. simpl. intros; lia. }
  rewrite !inRange_false by lia. exact IH.
Qed.

Lemma filter_inRange_length t : forall lo hi,
  StronglySorted Z.lt (map snd t) ->
  length (filter (inRange lo hi) t) <= Z.to_nat (hi - lo).
Proof.
  induction t as [|p t IH]; intros lo hi Hs; simpl; [lia|].
  simpl in Hs. apply StronglySorted_inv in Hs as [Hs Hp].
  unfold inRange at 1.
  destruct (Z.leb_spec lo (snd p)), (Z.ltb_spec (snd p) hi); cbn [andb];
    try (now apply IH).
  rewrite (filter_inRange_above lo (snd p + 1) hi).
  - simpl. specialize (IH (snd p + 1)%Z hi Hs). lia.
  - lia.
  - eapply Forall_impl; [|exact Hp]. simpl. intros; lia.
Qed.

Lemma filter_inRange_all lo hi t :
  Forall (fun o => lo <= o < hi)%Z (map snd t) -> filter (inRange lo hi) t = t.
Proof.
  induction t as [|p t IH]; simpl; intros H; [reflexivity|].
  inversion H; subst. rewrite IH by assumption. unfold inRange.
  destruct (Z.leb_spec lo (snd p)), (Z.ltb_spec (snd p) hi); try lia. reflexivity.
Qed.

Lemma tagged_bounds segs lo hi :
  Forall wellFormedSegment segs ->
  Forall (fun seg => lo <= startIndex seg /\ endIndex seg <= hi)%Z segs ->
  Forall (fun o => lo <= o < hi)%Z (map snd (tagged segs)).
Proof.
  unfold tagged. induction 1 as [|seg segs [Hlen _] _ IH]; intros Hb; simpl;
    [constructor|].
  inversion Hb as [|? ? [Hlo Hhi] Hb']; subst.
  rewrite map_app. apply Forall_app. split; [|now apply IH].
  eapply Forall_impl; [|apply tagChars_bounds]. simpl. intros; lia.
Qed.

(** X12.  On a document with well-formed segments the texts extracted
    from two adjacent ranges concatenate to the text of their union; the
    text of a range is no longer than the range, and a range that covers
    every segment gives back the flattened text. *)
Theorem extractTextFromRange_adjacent content lo mid hi :
  wellFormedSegments (extractTextFromContent content) ->
  (lo <= mid <= hi)%Z ->
  extractTextFromRange (sortSegments (extractTextFromContent content)) lo mid
  ++ extractTextFromRange (sortSegments (extractTextFromContent content)) mid hi
  = extractTextFromRange (sortSegments (extractTextFromContent content)) lo hi
  /\ length (extractTextFromRange
               (sortSegments (extractTextFromContent content)) lo hi)
     <= Z.to_nat (hi - lo)
  /\ (Forall (fun seg => lo <= startIndex seg /\ endIndex seg <= hi)%Z
             (extractTextFromContent content) ->
      extractTextFromRange (sortSegments (extractTextFromContent content)) lo hi
      = buildFullText (sortSegments (extractTextFromContent content))).
Proof.
  intros Hw Hle. destruct (sortSegments_chained _ Hw) as [Hwf Hch].
  set (segs := sortSegments (extractTextFromContent content)) in *.
  pose proof (tagged_sorted _ Hwf Hch) as Hs.
  rewrite !extract_tagged by (assumption || lia).
  split; [|split].
  - rewrite <- map_app. f_equal. now apply filter_inRange_split.
  - rewrite length_map. now apply filter_inRange_length.
  - intros Hb. rewrite filter_inRange_all; [apply tagged_text|].
    apply tagged_bounds; [exact Hwf|].
    eapply Permutation_Forall; [apply stableSort_perm | exact Hb].
Qed.

(** ** The ranges that are returned *)

Lemma walkToEnd_advances rest : forall remaining k,
  k <= walkToEnd rest remaining k
  /\ walkToEnd rest remaining k <= k + length rest
  /\ (rest <> [] -> (0 < remaining)%Z -> k < walkToEnd rest remaining k).
Proof.
  induction rest as [|c rest IH]; intros remaining k; cbn [walkToEnd length].
  - repeat split; try lia. congruence.
  - destruct (Z.ltb_spec 0 remaining).
    + match goal with |- context [walkToEnd rest ?n (S k)] =>
        destruct (IH n (S k)) as (H1 & H2 & _) end.
      repeat split; lia.
    + repeat split; lia.
Qed.

Lemma pushMapped_spans segs (a b : Z) accept matches :
  (forall j, a = Z.of_nat j -> j < length (buildFullText segs) ->
             exists k, b = Z.of_nat k /\ j <= k) ->
  Forall (fun r => exists j k, spans segs j k r) matches ->
  Forall (fun r => exists j k, spans segs j k r)
         (pushMapped (arrayGet (buildCharMap 0 segs) a)
                     (arrayGet (buildCharMap 0 segs) b) accept matches).
Proof.
  intros Hab H. unfold pushMapped.
  destruct (arrayGet (buildCharMap 0 segs) a) as [sm|] eqn:Ea; [|exact H].
  destruct (arrayGet (buildCharMap 0 segs) b) as [em|] eqn:Eb; [|exact H].
  match goal with |- context [accept ?r] => destruct (accept r) end; [|exact H].
  apply Forall_app. split; [exact H|]. constructor; [|constructor].
  unfold arrayGet in Ea, Eb.
  destruct (Z.ltb_spec a 0); [discriminate|].
  destruct (Z.ltb_spec b 0); [discriminate|].
  assert (Hj : Z.to_nat a < length (buildFullText segs)).
  { rewrite <- (length_charMap segs 0). apply nth_error_Some. congruence. }
  assert (Hk : Z.to_nat b < length (buildFullText segs)).
  { rewrite <- (length_charMap segs 0). apply nth_error_Some. congruence. }
  destruct (Hab (Z.to_nat a) ltac:(lia) Hj) as (k & -> & Hjk).
  rewrite Nat2Z.id in *.
  exists (Z.to_nat a), k. split; [lia|].
  unfold rangeAt, nativeIndex.
  replace (Z.to_nat a + (k - Z.to_nat a + 1) - 1) with k by lia.
  now rewrite Ea, Eb.
Qed.

Lemma exactPass_spans segs fuel pat matches :
  exactPass segs fuel pat = Some matches ->
  Forall (fun r => exists j k, spans segs j k r) matches.
Proof.
  intros H. pose proof (exactPass_returned _ _ _ _ H) as [Hp _].
  unfold exactPass in H.
  eapply (scanLoop_invariant (Forall (fun r => exists j k, spans segs j k r)));
    [| |exact H]; [|constructor].
  intros i acc Hacc. unfold exactBody. apply pushMapped_spans; [|exact Hacc].
  intros j Hj _.
  assert (0 < length pat) by (destruct pat; [congruence | simpl; lia]).
  exists (i + length pat - 1). split; lia.
Qed.

Lemma normalizedPass_spans segs fuel pat matches :
  normalizedPass segs fuel pat = Some matches ->
  Forall (fun r => exists j k, spans segs j k r) matches.
Proof.
  intros H.
  assert (Hp : normalizeText pat <> []).
  { intros E. now rewrite (normalizedPass_blank _ _ _ E) in H. }
  unfold normalizedPass in H.
  eapply (scanLoop_invariant (Forall (fun r => exists j k, spans segs j k r)));
    [| |exact H]; [|constructor].
  intros i acc Hacc. unfold normalizedBody. cbv zeta.
  apply pushMapped_spans; [|exact Hacc].
  intros j Hj Hlt. apply Nat2Z.inj in Hj.
  set (start := walkToStart (buildFullText segs) i 0 0) in *.
  destruct (walkToEnd_advances (skipn start (buildFullText segs))
              (Z.of_nat (length (normalizeText pat))) start) as (_ & _ & Hadv).
  assert (start < walkToEnd (skipn start (buildFullText segs))
                    (Z.of_nat (length (normalizeText pat))) start).
  { apply Hadv.
    - intros E. apply (f_equal (@length _)) in E. rewrite length_skipn in E.
      simpl in E. lia.
    - destruct (normalizeText pat); [congruence | simpl; lia]. }
  exists (walkToEnd (skipn start (buildFullText segs))
            (Z.of_nat (length (normalizeText pat))) start - 1).
  split; lia.
Qed.

(** X19.  On a document with well-formed segments, a range returned by
    [findTextRange] starts at one character of the flattened text and
    ends after the same or a later one: it is not empty, and the text of
    the document over it is that stretch of the flattened text. *)
Theorem findTextRange_spans_characters
  World RgbColor (docs : Docs World RgbColor) documentId w res w' content
  textToFind instance fuel r w'' :
  documents_get docs documentId w = (inr res, w') ->
  bodyContent res = Some content ->
  wellFormedSegments (extractTextFromContent content) ->
  findTextRange fuel docs documentId textToFind instance w
  = (Returns (Some r), w'') ->
  let segs := sortSegments (extractTextFromContent content) in
  exists j k,
    spans segs j k r
    /\ (range_start r < range_end r)%Z
    /\ extractTextFromRange segs (range_start r) (range_end r)
       = firstn (k - j + 1) (skipn j (buildFullText segs)).
Proof.
  intros Hget Hbody Hwf H segs.
  rewrite (findTextRange_fetched _ _ _ _ _ _ _ _ _ _ Hget), Hbody in H.
  unfold searchContent in H. fold segs in H.
  destruct (tryVariants segs fuel (searchVariants textToFind) instance [] [])
    as [[allMatches log]|] eqn:Hrun; [|discriminate].
  injection H as H _. apply selectInstance_member in H.
  apply (tryVariants_members _ _ _ _ _ _ _ _ Hrun) in H
    as [[]|(v & m & p & Hv & Hf & Hin)].
  assert (Hspan : exists j k, spans segs j k r).
  { unfold findValidatedMatches in Hf.
    destruct (exactPass segs fuel v) as [e|] eqn:He; [|discriminate].
    pose proof (exactPass_spans _ _ _ _ He) as HFe.
    destruct (length e =? 0).
    - destruct (normalizedPass segs fuel v) as [m'|] eqn:Hn; [|discriminate].
      injection Hf as <- _.
      pose proof (normalizedPass_spans _ _ _ _ Hn) as HF.
      rewrite Forall_forall in HF. now apply HF.
    - injection Hf as <- _. rewrite Forall_forall in HFe. now apply HFe. }
  destruct Hspan as (j & k & Hjk & ->). exists j, k.
  destruct (sortSegments_chained _ Hwf) as [Hwf' Hch]. fold segs in Hwf', Hch.
  split; [split; [exact Hjk | reflexivity]|]. split.
  - unfold rangeAt. cbn [range_start range_end].
    replace (j + (k - j + 1) - 1) with k by lia.
    destruct (Nat.eq_dec j k) as [->|Hne]; [lia|].
    pose proof (nativeIndex_increasing segs j k Hwf' Hch ltac:(lia) ltac:(lia)).
    lia.
  - apply extract_rangeAt; auto; lia.
Qed.

(** ** The style requests *)

Section TextStyleRequest.
Context {RgbColor : Type} (hexToRgbColor : jsstring -> option RgbColor).

Lemma textStyle_fields style :
  (match bold style with Some _ => [FBold] | None => [] end)
  ++ (match italic style with Some _ => [FItalic] | None => [] end)
  ++ (match underline style with Some _ => [FUnderline] | None => [] end)
  ++ (match strikethrough style with Some _ => [FStrikethrough] | None => [] end)
  ++ (match fontSize style with Some _ => [FFontSize] | None => [] end)
  ++ (match fontFamily style with Some _ => [FWeightedFontFamily] | None => [] end)
  ++ (match foregroundColor style with Some _ => [FForegroundColor] | None => [] end)
  ++ (match backgroundColor style with Some _ => [FBackgroundColor] | None => [] end)
  ++ (match linkUrl style with Some _ => [FLink] | None => [] end)
  = filter (textArgGiven style) allStyleFields.
Proof.
  change allStyleFields
    with ([FBold] ++ [FItalic] ++ [FUnderline] ++ [FStrikethrough]
          ++ [FFontSize] ++ [FWeightedFontFamily] ++ [FForegroundColor]
          ++ [FBackgroundColor] ++ [FLink]).
  rewrite !filter_app. cbn [filter textArgGiven].
  repeat f_equal;
    match goal with |- context [isSome ?o] => now destruct o end.
Qed.

Lemma allStyleFields_complete f : In f allStyleFields.
Proof. destruct f; simpl; tauto. Qed.

Lemma allStyleFields_NoDup : NoDup allStyleFields.
Proof.
  unfold allStyleFields.
  repeat (constructor; [simpl; intuition discriminate|]). constructor.
Qed.

(** The conversion of one colour argument (lines 447-456). *)
Lemma color_converted (o : option jsstring) (r : Thrown + option RgbColor) :
  match o with
  | None => inr None
  | Some hex => match hexToRgbColor hex with
                | Some rgb => inr (Some rgb)
                | None => inl (UserError InvalidColor)
                end
  end = r ->
  match r with
  | inl e =>
      e = UserError InvalidColor
      /\ exists hex, o = Some hex /\ hexToRgbColor hex = None
  | inr c =>
      isSome c = isSome o
      /\ match o with
         | Some hex => hexToRgbColor hex = c
         | None => True
         end
  end.
Proof.
  intros <-. destruct o as [hex|]; [|simpl; auto].
  destruct (hexToRgbColor hex) eqn:E; simpl; eauto.
Qed.

Lemma textStyleRequest_cases startIdx endIdx style :
  match buildUpdateTextStyleRequest hexToRgbColor startIdx endIdx style with
  | inl e =>
      e = UserError InvalidColor /\ badColor hexToRgbColor style = true
  | inr None =>
      badColor hexToRgbColor style = false
      /\ forall f, textArgGiven style f = false
  | inr (Some rq) =>
      badColor hexToRgbColor style = false
      /\ req_range rq = {| range_start := startIdx; range_end := endIdx |}
      /\ req_fields rq = filter (textArgGiven style) allStyleFields
      /\ req_fields rq <> []
      /\ NoDup (req_fields rq)
      /\ forall f, In f (req_fields rq)
                   <-> textStyleHas (req_textStyle rq) f = true
  end.
Proof.
  unfold buildUpdateTextStyleRequest, badColor. cbv beta zeta.
  rewrite textStyle_fields.
  match goal with
  | |- context [match ?c with inl e => inl e | inr fg => _ end] =>
      destruct c as [e|fg] eqn:Hfg
  end; apply color_converted in Hfg.
  { destruct Hfg as (-> & hex & -> & ->). auto. }
  destruct Hfg as [Hfg Hfg'].
  match goal with
  | |- context [match ?c with inl e => inl e | inr bg => _ end] =>
      destruct c as [e|bg] eqn:Hbg
  end; apply color_converted in Hbg.
  { destruct Hbg as (-> & hex & -> & ->). split; [reflexivity|].
    destruct (foregroundColor style) as [h|]; [|reflexivity].
    rewrite Hfg'. destruct fg; [reflexivity | discriminate]. }
  destruct Hbg as [Hbg Hbg'].
  assert (Hgood : (match foregroundColor style with
                   | Some hex => negb (isSome (hexToRgbColor hex))
                   | None => false
                   end
                   || match backgroundColor style with
                      | Some hex => negb (isSome (hexToRgbColor hex))
                      | None => false
                      end) = false).
  { destruct (foregroundColor style), (backgroundColor style);
      repeat match goal with H : hexToRgbColor _ = _ |- _ => rewrite H end;
      destruct fg, bg; try discriminate; reflexivity. }
  destruct (filter (textArgGiven style) allStyleFields) as [|f0 fs] eqn:Hf.
  - split; [exact Hgood|]. intros f.
    destruct (textArgGiven style f) eqn:E; [|reflexivity].
    assert (Hin : In f (filter (textArgGiven style) allStyleFields))
      by (apply filter_In; split; [apply allStyleFields_complete | exact E]).
    rewrite Hf in Hin. destruct Hin.
  - cbn [req_range req_fields req_textStyle]. rewrite <- Hf.
    split; [exact Hgood|]. split; [reflexivity|]. split; [reflexivity|].
    split; [rewrite Hf; discriminate|].
    split; [apply NoDup_filter, allStyleFields_NoDup|].
    intros f. rewrite filter_In.
    assert (E : textStyleHas
                  {| ts_bold := bold style; ts_italic := italic style;
                     ts_underline := underline style;
                     ts_strikethrough := strikethrough style;
                     ts_fontSize := fontSize style;
                     ts_weightedFontFamily := fontFamily style;
                     ts_foregroundColor := fg; ts_backgroundColor := bg;
                     ts_link := linkUrl style |} f
                = textArgGiven style f)
      by (destruct f; simpl; auto).
    rewrite E. split; [tauto|]. split; [apply allStyleFields_complete | assumption].
Qed.

(** X13.  [buildUpdateTextStyleRequest] throws the user error for a
    colour exactly when a colour that is given is not a hexadecimal
    colour, returns [null] when no argument is given, and otherwise
    builds a request over the given range whose field mask lists, once
    each and in the order of the source, the arguments that are given,
    which are exactly the fields set in its text style. *)
Theorem buildUpdateTextStyleRequest_mask startIdx endIdx style :
  match buildUpdateTextStyleRequest hexToRgbColor startIdx endIdx style with
  | inl e =>
      e = UserError InvalidColor /\ badColor hexToRgbColor style = true
  | inr None =>
      badColor hexToRgbColor style = false
      /\ forall f, textArgGiven style f = false
  | inr (Some rq) =>
      badColor hexToRgbColor style = false
      /\ req_range rq = {| range_start := startIdx; range_end := endIdx |}
      /\ req_fields rq = filter (textArgGiven style) allStyleFields
      /\ req_fields rq <> []
      /\ NoDup (req_fields rq)
      /\ forall f, In f (req_fields rq)
                   <-> textStyleHas (req_textStyle rq) f = true
  end.
Proof. apply textStyleRequest_cases. Qed.
End TextStyleRequest.

Lemma paragraph_fields style :
  (match alignment style with Some _ => [PAlignment] | None => [] end)
  ++ (match indentStart style with Some _ => [PIndentStart] | None => [] end)
  ++ (match indentEnd style with Some _ => [PIndentEnd] | None => [] end)
  ++ (match spaceAbove style with Some _ => [PSpaceAbove] | None => [] end)
  ++ (match spaceBelow style with Some _ => [PSpaceBelow] | None => [] end)
  ++ (match namedStyleType style with Some _ => [PNamedStyleType] | None => [] end)
  ++ (match keepWithNext style with Some _ => [PKeepWithNext] | None => [] end)
  = filter (paragraphArgGiven style) allParagraphFields.
Proof.
  change allParagraphFields
    with ([PAlignment] ++ [PIndentStart] ++ [PIndentEnd] ++ [PSpaceAbove]
          ++ [PSpaceBelow] ++ [PNamedStyleType] ++ [PKeepWithNext]).
  rewrite !filter_app. cbn [filter paragraphArgGiven].
  repeat f_equal;
    match goal with |- context [isSome ?o] => now destruct o end.
Qed.

Lemma allParagraphFields_complete f : In f allParagraphFields.
Proof. destruct f; simpl; tauto. Qed.

Lemma allParagraphFields_NoDup : NoDup allParagraphFields.
Proof.
  unfold allParagraphFields.
  repeat (constructor; [simpl; intuition discriminate|]). constructor.
Qed.

(** X14.  [buildUpdateParagraphStyleRequest] returns [null] exactly when
    no argument is given, and otherwise a request over the given range
    whose field mask lists, once each and in the order of the source, the
    arguments that are given, which are exactly the fields set in its
    paragraph style. *)
Theorem buildUpdateParagraphStyleRequest_mask startIdx endIdx style :
  match buildUpdateParagraphStyleRequest startIdx endIdx style with
  | None => forall f, paragraphArgGiven style f = false
  | Some rq =>
      preq_range rq = {| range_start := startIdx; range_end := endIdx |}
      /\ preq_fields rq = filter (paragraphArgGiven style) allParagraphFields
      /\ preq_fields rq <> []
      /\ NoDup (preq_fields rq)
      /\ forall f, In f (preq_fields rq)
                   <-> paragraphStyleHas (preq_paragraphStyle rq) f = true
  end.
Proof.
  unfold buildUpdateParagraphStyleRequest. cbv beta zeta.
  rewrite paragraph_fields.
  destruct (filter (paragraphArgGiven style) allParagraphFields) as [|f0 fs] eqn:Hf.
  - intros f. destruct (paragraphArgGiven style f) eqn:E; [|reflexivity].
    assert (Hin : In f (filter (paragraphArgGiven style) allParagraphFields))
      by (apply filter_In; split; [apply allParagraphFields_complete | exact E]).
    rewrite Hf in Hin. destruct Hin.
  - cbn [preq_range preq_fields preq_paragraphStyle]. rewrite <- Hf.
    split; [reflexivity|]. split; [reflexivity|].
    split; [rewrite Hf; discriminate|].
    split; [apply NoDup_filter, allParagraphFields_NoDup|].
    intros f. rewrite filter_In.
    assert (E : paragraphStyleHas
                  {| ps_alignment := alignment style;
                     ps_indentStart := indentStart style;
                     ps_indentEnd := indentEnd style;
                     ps_spaceAbove := spaceAbove style;
                     ps_spaceBelow := spaceBelow style;
                     ps_namedStyleType := namedStyleType style;
                     ps_keepWithNext := keepWithNext style |} f
                = paragraphArgGiven style f)
      by (destruct f; reflexivity).
    rewrite E. split; [tauto|]. split; [apply allParagraphFields_complete | assumption].
Qed.

(** ** Updates *)

Lemma firstOccurrence_found pat : forall s,
  firstOccurrence pat s <> None
  <-> exists pre post, s = pre ++ pat ++ post.
Proof.
  intros s. split.
  - intros H. pose proof (firstOccurrence_occurrences pat s 0) as F.
    destruct (firstOccurrence pat s) as [d|]; [|congruence].
    destruct F as (_ & Hs & _). apply startsWith_iff in Hs as [Hs _].
    exists (firstn d s), (skipn (length pat) (skipn d s)).
    rewrite <- Hs at 1. now rewrite !firstn_skipn.
  - intros (pre & post & ->) Hnone.
    pose proof (firstOccurrence_occurrences pat (pre ++ pat ++ post) 0) as F.
    rewrite Hnone in F.
    assert (Hin : In (length pre) (occurrencesFrom pat (pre ++ pat ++ post) 0)).
    { apply occurrencesFrom_In. rewrite Nat.sub_0_r, length_app. split; [lia|].
      rewrite skipn_app, skipn_all, Nat.sub_diag. simpl.
      apply startsWith_iff. rewrite firstn_app, firstn_all, Nat.sub_diag.
      rewrite length_app. simpl. rewrite app_nil_r. split; [reflexivity | lia]. }
    rewrite F in Hin. destruct Hin.
Qed.

Lemma executeBatchUpdate_general World RgbColor (docs : Docs World RgbColor)
  documentId requests w :
  executeBatchUpdate docs documentId requests w
  = match executeBatchUpdateOf (documents_batchUpdate docs) documentId requests w with
    | (inl e, w') => (Throws e, w')
    | (inr a, w') => (Returns a, w')
    end.
Proof.
  unfold executeBatchUpdate, executeBatchUpdateOf.
  destruct requests as [|r rs]; [reflexivity|].
  now destruct (documents_batchUpdate docs documentId (r :: rs) w) as [[e|[]] w'].
Qed.

Lemma translateUpdateError_kinds error :
  (translateUpdateError error = UserError InvalidRequest
   <-> code error = Some 400%Z
       /\ exists pre post,
            message error = pre ++ lit "Invalid requests"%string ++ post)
  /\ (translateUpdateError error = UserError DocumentNotFound
      <-> code error = Some 404%Z)
  /\ (translateUpdateError error = UserError PermissionDenied
      <-> code error = Some 403%Z)
  /\ (translateUpdateError error <> UserError InvalidColor).
Proof.
  unfold translateUpdateError, codeIs.
  pose proof (firstOccurrence_found (lit "Invalid requests"%string) (message error))
    as Hmsg.
  destruct (firstOccurrence (lit "Invalid requests"%string) (message error)) as [d|].
  - assert (Hex : exists pre post,
                message error = pre ++ lit "Invalid requests"%string ++ post)
      by (apply Hmsg; discriminate).
    destruct (code error) as [c|]; cbn [andb].
    + destruct (Z.eqb_spec c 400); cbn [andb].
      * subst. repeat split; try discriminate; auto.
      * destruct (Z.eqb_spec c 404); [|destruct (Z.eqb_spec c 403)]; subst;
          repeat split; try discriminate; try tauto;
          intros; try congruence; intuition congruence.
    + repeat split; try discriminate; intros; intuition discriminate.
  - assert (Hno : ~ exists pre post,
                message error = pre ++ lit "Invalid requests"%string ++ post)
      by (intros H; apply Hmsg in H; congruence).
    rewrite andb_false_r.
    destruct (code error) as [c|].
    + destruct (Z.eqb_spec c 404); [|destruct (Z.eqb_spec c 403)]; subst;
        repeat split; try discriminate; try tauto;
        intros; try congruence; intuition congruence.
    + repeat split; try discriminate; intros; intuition discriminate.
Qed.

(** X15.  [executeBatchUpdate] with no request returns without a call to
    the API.  With requests it makes one call: it returns when the call is
    accepted, and when the call is rejected it throws the user error for
    an invalid request exactly for code 400 with a message that contains
    [Invalid requests], the one for a document not found exactly for code
    404, the one for a denied permission exactly for code 403, and never
    the one for a colour. *)
Theorem executeBatchUpdate_outcome
  World RgbColor (docs : Docs World RgbColor) documentId requests w :
  (requests = [] ->
   forall docs' : Docs World RgbColor,
     executeBatchUpdate docs' documentId requests w = (Returns tt, w))
  /\ (requests <> [] ->
      match documents_batchUpdate docs documentId requests w with
      | (inr _, w') =>
          executeBatchUpdate docs documentId requests w = (Returns tt, w')
      | (inl error, w') =>
          executeBatchUpdate docs documentId requests w
          = (Throws (translateUpdateError error), w')
          /\ (translateUpdateError error = UserError InvalidRequest
              <-> code error = Some 400%Z
                  /\ exists pre post,
                       message error
                       = pre ++ lit "Invalid requests"%string ++ post)
          /\ (translateUpdateError error = UserError DocumentNotFound
              <-> code error = Some 404%Z)
          /\ (translateUpdateError error = UserError PermissionDenied
              <-> code error = Some 403%Z)
          /\ translateUpdateError error <> UserError InvalidColor
      end).
Proof.
  split.
  - intros -> docs'. reflexivity.
  - intros Hne. unfold executeBatchUpdate.
    destruct requests as [|r rs]; [congruence|].
    destruct (documents_batchUpdate docs documentId (r :: rs) w) as [[error|u] w'];
      [|reflexivity].
    split; [reflexivity | apply translateUpdateError_kinds].
Qed.

(** X16.  [createTable] throws its user error, without a call to the
    API, when [rows] or [columns] is below 1, and otherwise sends the one
    [insertTable] request; [insertText] returns without a call for the
    empty text and otherwise sends the one [insertText] request.  A
    rejected call is thrown as [executeBatchUpdate] translates it. *)
Theorem createTable_insertText_guards
  World RgbColor (batchUpdate : BatchUpdate World (DocsRequest RgbColor))
  documentId rows columns index text w :
  ((rows < 1 \/ columns < 1)%Z ->
   forall batchUpdate' : BatchUpdate World (DocsRequest RgbColor),
     createTable batchUpdate' documentId rows columns index w
     = (inl TableTooSmall, w))
  /\ ((1 <= rows /\ 1 <= columns)%Z ->
      createTable batchUpdate documentId rows columns index w
      = match batchUpdate documentId [InsertTable index rows columns] w with
        | (inl error, w') => (inl (FromUpdate (translateUpdateError error)), w')
        | (inr _, w') => (inr tt, w')
        end)
  /\ (text = [] ->
      forall batchUpdate' : BatchUpdate World (DocsRequest RgbColor),
        insertText batchUpdate' documentId text index w = (inr tt, w))
  /\ (text <> [] ->
      insertText batchUpdate documentId text index w
      = match batchUpdate documentId [InsertText index text] w with
        | (inl error, w') => (inl (FromUpdate (translateUpdateError error)), w')
        | (inr _, w') => (inr tt, w')
        end).
Proof.
  unfold createTable, insertText, executeBatchUpdateOf, rethrow.
  split; [|split; [|split]].
  - intros H batchUpdate'.
    destruct (Z.ltb_spec rows 1), (Z.ltb_spec columns 1); try reflexivity; lia.
  - intros [H1 H2].
    destruct (Z.ltb_spec rows 1), (Z.ltb_spec columns 1); try lia. cbn [orb].
    now destruct (batchUpdate documentId [InsertTable index rows columns] w)
      as [[e|[]] w'].
  - intros -> batchUpdate'. reflexivity.
  - intros Hne. destruct text as [|c t]; [congruence|].
    now destruct (batchUpdate documentId [InsertText index (c :: t)] w)
      as [[e|[]] w'].
Qed.

(** ** Styling the ranges that were found *)

Section Highlighting.
Context {World RgbColor : Type}.
Variable hexToRgbColor : jsstring -> option RgbColor.

Lemma textStyleRequest_unusable startIdx endIdx style :
  badColor hexToRgbColor style = true
  \/ (forall f, textArgGiven style f = false) ->
  buildUpdateTextStyleRequest hexToRgbColor startIdx endIdx style
  = if badColor hexToRgbColor style then inl (UserError InvalidColor)
    else inr None.
Proof.
  intros H.
  pose proof (textStyleRequest_cases hexToRgbColor startIdx endIdx style) as C.
  destruct (buildUpdateTextStyleRequest hexToRgbColor startIdx endIdx style)
    as [e|[rq|]].
  - destruct C as [-> ->]. reflexivity.
  - destruct C as (Hgood & _ & Hf & Hne & _). exfalso.
    destruct H as [H|H]; [congruence|]. apply Hne. rewrite Hf.
    clear -H. induction allStyleFields as [|f l IH]; [reflexivity|].
    simpl. now rewrite H.
  - destruct C as [-> _]. reflexivity.
Qed.

Lemma highlightRange_usable (docs : Docs World RgbColor) documentId range
  style w w' :
  highlightRange hexToRgbColor docs documentId range style w
  = (Returns true, w') ->
  badColor hexToRgbColor style = false
  /\ exists f, textArgGiven style f = true.
Proof.
  unfold highlightRange. destruct range as [r|]; [|discriminate].
  pose proof (textStyleRequest_cases hexToRgbColor (range_start r)
                (range_end r) style) as C.
  unfold bind, ofThrown, throw, ret.
  destruct (buildUpdateTextStyleRequest hexToRgbColor (range_start r)
              (range_end r) style) as [e|[rq|]]; try discriminate.
  intros _. destruct C as (Hgood & _ & Hf & Hne & _). split; [exact Hgood|].
  destruct (req_fields rq) as [|f l] eqn:E; [congruence|].
  exists f. assert (Hin : In f (filter (textArgGiven style) allStyleFields))
    by (rewrite <- Hf; left; reflexivity).
  now apply filter_In in Hin.
Qed.

Lemma highlightRange_unusable (docs : Docs World RgbColor) documentId range
  style w :
  badColor hexToRgbColor style = true
  \/ (forall f, textArgGiven style f = false) ->
  highlightRange hexToRgbColor docs documentId range style w
  = (match range with
     | Some _ => if badColor hexToRgbColor style
                 then Throws (UserError InvalidColor) else Returns false
     | None => Returns false
     end, w).
Proof.
  intros H. unfold highlightRange. destruct range as [r|]; [|reflexivity].
  unfold bind, ofThrown. rewrite textStyleRequest_unusable by exact H.
  destruct (badColor hexToRgbColor style); reflexivity.
Qed.

Lemma findTextRange_reads_only (docs docs' : Docs World RgbColor) fuel
  documentId textToFind instance w :
  documents_get docs' = documents_get docs ->
  findTextRange fuel docs' documentId textToFind instance w
  = findTextRange fuel docs documentId textToFind instance w.
Proof. intros H. unfold findTextRange. now rewrite H. Qed.
End Highlighting.

(** X17.  [highlightApostrophePhrase] returns [true] only for a style
    with at least one argument given and no colour that fails to convert.
    For any other style it sends no update: its result and the state it
    leaves are those of any client that answers [documents.get] in the
    same way. *)
Theorem highlightApostrophePhrase_needs_style
  World RgbColor (hexToRgbColor : jsstring -> option RgbColor)
  (docs : Docs World RgbColor) documentId textToFind instance style fuel w :
  (forall wEnd,
      highlightApostrophePhrase hexToRgbColor fuel docs documentId textToFind
        instance style w = (Returns true, wEnd) ->
      badColor hexToRgbColor style = false
      /\ exists f, textArgGiven style f = true)
  /\ (badColor hexToRgbColor style = true
      \/ (forall f, textArgGiven style f = false) ->
      forall docs' : Docs World RgbColor,
        documents_get docs' = documents_get docs ->
        highlightApostrophePhrase hexToRgbColor fuel docs' documentId textToFind
          instance style w
        = highlightApostrophePhrase hexToRgbColor fuel docs documentId
            textToFind instance style w).
Proof.
  split.
  - intros wEnd H. unfold highlightApostrophePhrase in H.
    apply tryCatch_returns in H; [|discriminate].
    destruct (splitAtApostrophe textToFind) as [[before after]|].
    + apply bind_returns in H as (beforeRange & w1 & H1 & H).
      apply bind_returns in H as (beforeDone & w2 & H2 & H).
      apply bind_returns in H as (afterRange & w3 & H3 & H).
      apply bind_returns in H as (afterDone & w4 & H4 & H).
      unfold ret in H. injection H as Hcount <-.
      destruct beforeDone, afterDone; try discriminate.
      eapply highlightRange_usable; eassumption.
    + apply bind_returns in H as (range & w1 & H1 & H).
      eapply highlightRange_usable; eassumption.
  - intros Hbad docs' Hget. unfold highlightApostrophePhrase, tryCatch, bind.
    destruct (splitAtApostrophe textToFind) as [[before after]|].
    + rewrite (findTextRange_reads_only docs docs') by exact Hget.
      destruct (findTextRange fuel docs documentId before instance w)
        as [[r1| |] w1]; try reflexivity.
      rewrite !(highlightRange_unusable _ _ _ _ _ _ Hbad).
      destruct (match r1 with
                | Some _ => if badColor hexToRgbColor style
                            then Throws (UserError InvalidColor)
                            else Returns false
                | None => Returns false
                end); try reflexivity.
      rewrite (findTextRange_reads_only docs docs') by exact Hget.
      destruct (findTextRange fuel docs documentId after instance w1)
        as [[r2| |] w2]; try reflexivity.
      rewrite !(highlightRange_unusable _ _ _ _ _ _ Hbad). reflexivity.
    + rewrite (findTextRange_reads_only docs docs') by exact Hget.
      destruct (findTextRange fuel docs documentId textToFind instance w)
        as [[r1| |] w1]; try reflexivity.
      rewrite !(highlightRange_unusable _ _ _ _ _ _ Hbad). reflexivity.
Qed.

(** X18.  [getParagraphRange] makes one call, [documents.get].  When it
    is rejected the error thrown is the user error for a document not
    found exactly for code 404, the one for a denied permission exactly
    for code 403, and an internal error exactly for the other codes; when
    it is served the function returns, [null] for a document without
    content and otherwise only a range that holds [indexWithin]. *)
Theorem getParagraphRange_fetch
  World RgbColor (docs : Docs World RgbColor) documentId indexWithin w :
  match documents_get docs documentId w with
  | (inl error, w') =>
      getParagraphRange docs documentId indexWithin w
      = (Throws (translateFetchError error), w')
      /\ (translateFetchError error = UserError DocumentNotFound
          <-> code error = Some 404%Z)
      /\ (translateFetchError error = UserError PermissionDenied
          <-> code error = Some 403%Z)
      /\ (translateFetchError error = InternalError
          <-> code error <> Some 404%Z /\ code error <> Some 403%Z)
  | (inr res, w') =>
      exists result,
        getParagraphRange docs documentId indexWithin w = (Returns result, w')
        /\ (bodyContent res = None -> result = None)
        /\ (forall r, result = Some r ->
              (range_start r <= indexWithin < range_end r)%Z)
  end
  /\ forall docs' : Docs World RgbColor,
       documents_get docs' = documents_get docs ->
       getParagraphRange docs' documentId indexWithin w
       = getParagraphRange docs documentId indexWithin w.
Proof.
  split.
  - unfold getParagraphRange.
    destruct (documents_get docs documentId w) as [[error|res] w'].
    + split; [reflexivity|]. unfold translateFetchError, codeIs.
      destruct (code error) as [c|].
      * destruct (Z.eqb_spec c 404); [|destruct (Z.eqb_spec c 403)]; subst;
          repeat split; try discriminate; try congruence;
          intros; try congruence; intuition congruence.
      * repeat split; try discriminate; intros; intuition discriminate.
    + eexists. split; [reflexivity|]. split.
      * now intros ->.
      * intros r Hr. destruct (bodyContent res) as [content|]; [|discriminate].
        rewrite findParagraphInContent_first in Hr.
        apply (enclosing_contains indexWithin content).
        apply enclosingParagraphs_spec.
        destruct (enclosingParagraphs indexWithin content) as [|r' l];
          [discriminate|]. injection Hr as ->. left. reflexivity.
  - intros docs' Hget. unfold getParagraphRange. now rewrite Hget.
Qed.

(** ** The further properties on sample documents *)

Lemma uniqueMatches_distinct_and_complete_witness :
  uniqueRanges [late; early] = [late; early].
Proof.
  apply (proj2 (proj2 (uniqueMatches_distinct_and_complete [late; early]))).
  repeat constructor; simpl; intuition discriminate.
Defined.

Lemma selectInstance_ordered_witness :
  In early [late; early; late] /\ In late [late; early; late]
  /\ (range_start early <= range_start late)%Z /\ early <> late.
Proof.
  apply (selectInstance_ordered [late; early; late] 1 2 early late).
  - reflexivity.
  - reflexivity.
  - lia.
Defined.

Lemma selectInstance_ignores_duplicates_witness :
  selectInstance ([late; early] ++ [late]) 2 = selectInstance [late; early] 2.
Proof.
  apply (selectInstance_ignores_duplicates [late; early] [late] 2).
  intros r [<-|[]]. left. reflexivity.
Defined.

Lemma findTextRange_blank_query_witness :
  (forall fuel,
      findTextRange fuel (serving doc_aaa) docId (lit " "%string) 1 tt
      = (StillRunning, tt))
  /\ exists result,
       findTextRange 6 (serving doc_abc) docId (lit " "%string) 2 tt
       = (Returns result, tt).
Proof.
  split.
  - apply (findTextRange_blank_query unit unit (serving doc_aaa) docId tt
             {| body := Some (Some doc_aaa) |} tt doc_aaa (lit " "%string) 1
             eq_refl eq_refl eq_refl).
    right. left. reflexivity.
  - apply (findTextRange_blank_query unit unit (serving doc_abc) docId tt
             {| body := Some (Some doc_abc) |} tt doc_abc (lit " "%string) 2
             eq_refl eq_refl eq_refl).
    + discriminate.
    + vm_compute. discriminate.
    + vm_compute. discriminate.
    + vm_compute. lia.
Defined.

Lemma findTextRange_instance_below_one_witness :
  exists result,
    findTextRange 26 (serving doc_hello) docId (lit "Hello"%string) 0 tt
    = (Returns result, tt)
    /\ result = None.
Proof.
  exists None. split; [reflexivity|].
  apply (findTextRange_instance_below_one unit unit (serving doc_hello) docId tt
           (lit "Hello"%string) 0 26 None tt).
  - lia.
  - reflexivity.
Defined.

Lemma findTextRange_sound_witness :
  (1 <= 2)%Z
  /\ normalizeText
       (extractTextFromRange (sortSegments (extractTextFromContent doc_hello))
                             14 19)
     = normalizeText (lit "Hello"%string)
  /\ (In (extractTextFromRange (sortSegments (extractTextFromContent doc_hello))
                               14 19)
         (searchVariants (lit "Hello"%string))
      \/ exists v matches,
           In v (searchVariants (lit "Hello"%string))
           /\ normalizedPass (sortSegments (extractTextFromContent doc_hello))
                             26 v = Some matches
           /\ In {| range_start := 14; range_end := 19 |} matches).
Proof.
  apply (findTextRange_sound unit unit (serving doc_hello) docId tt
           {| body := Some (Some doc_hello) |} tt doc_hello (lit "Hello"%string)
           2 26 {| range_start := 14; range_end := 19 |} tt).
  - reflexivity.
  - reflexivity.
  - split; repeat constructor.
  - reflexivity.
Defined.

Lemma variants_share_normalized_pass_witness :
  normalizeText (standardizeApostrophes curly_its) = normalizeText curly_its
  /\ normalizedPass (sortSegments (extractTextFromContent doc_its)) 10
       (standardizeApostrophes curly_its)
     = normalizedPass (sortSegments (extractTextFromContent doc_its)) 10 curly_its.
Proof.
  apply (variants_share_normalized_pass
           (sortSegments (extractTextFromContent doc_its)) 10 curly_its
           (standardizeApostrophes curly_its)).
  right. right. left. reflexivity.
Defined.

Lemma extractTextFromRange_adjacent_witness :
  extractTextFromRange (sortSegments (extractTextFromContent doc_hello)) 1 6
  ++ extractTextFromRange (sortSegments (extractTextFromContent doc_hello)) 6 12
  = lit "Hello world"%string.
Proof.
  rewrite (proj1 (extractTextFromRange_adjacent doc_hello 1 6 12
                    ltac:(split; repeat constructor) ltac:(lia))).
  reflexivity.
Defined.

Lemma findTextRange_spans_characters_witness :
  exists j k,
    spans (sortSegments (extractTextFromContent doc_hello)) j k
          {| range_start := 14; range_end := 19 |}
    /\ (14 < 19)%Z
    /\ extractTextFromRange (sortSegments (extractTextFromContent doc_hello))
         14 19
       = firstn (k - j + 1)
           (skipn j (buildFullText
                       (sortSegments (extractTextFromContent doc_hello)))).
Proof.
  apply (findTextRange_spans_characters unit unit (serving doc_hello) docId tt
           {| body := Some (Some doc_hello) |} tt doc_hello (lit "Hello"%string)
           2 26 {| range_start := 14; range_end := 19 |} tt).
  - reflexivity.
  - reflexivity.
  - split; repeat constructor.
  - reflexivity.
Defined.

Lemma charToSegmentMap_invariant_witness :
  exists segment c,
    nth_error (sortSegments (extractTextFromContent doc_table)) 1 = Some segment
    /\ nth_error (text segment) 2 = Some c
    /\ nth_error (buildFullText (sortSegments (extractTextFromContent doc_table)))
                 9 = Some c
    /\ 9 = length (buildFullText
                     (firstn 1 (sortSegments (extractTextFromContent doc_table))))
           + 2
    /\ 32%Z = (startIndex segment + Z.of_nat 2)%Z.
Proof.
  apply (proj2 (charToSegmentMap_invariant
                  (sortSegments (extractTextFromContent doc_table)))
           9 {| originalIndex := 32; segmentIndex := 1; charIndex := 2 |}).
  reflexivity.
Defined.

Lemma executeBatchUpdate_outcome_witness :
  executeBatchUpdate (rejecting 404) docId [boldRequest] tt
  = (Throws (UserError DocumentNotFound), tt)
  /\ executeBatchUpdate (rejecting 404) docId [] tt = (Returns tt, tt).
Proof.
  split.
  - exact (proj1 (proj2 (executeBatchUpdate_outcome unit unit (rejecting 404)
                           docId [boldRequest] tt) ltac:(discriminate))).
  - exact (proj1 (executeBatchUpdate_outcome unit unit (serving doc_aaa)
                    docId [] tt) eq_refl (rejecting 404)).
Defined.

Lemma createTable_insertText_guards_witness :
  createTable (rejectingUpdates 403) docId 0 3 1 tt = (inl TableTooSmall, tt)
  /\ createTable (rejectingUpdates 403) docId 2 3 1 tt
     = (inl (FromUpdate (UserError PermissionDenied)), tt)
  /\ insertText (rejectingUpdates 403) docId [] 1 tt = (inr tt, tt)
  /\ insertText acceptingUpdates docId (lit "text"%string) 1 tt = (inr tt, tt).
Proof.
  split; [|split; [|split]].
  - apply (proj1 (createTable_insertText_guards unit unit acceptingUpdates docId
                    0 3 1 [] tt)). lia.
  - apply (proj1 (proj2 (createTable_insertText_guards unit unit
                           (rejectingUpdates 403) docId 2 3 1 [] tt))). lia.
  - apply (proj1 (proj2 (proj2 (createTable_insertText_guards unit unit
                                  acceptingUpdates docId 2 3 1 [] tt)))).
    reflexivity.
  - apply (proj2 (proj2 (proj2 (createTable_insertText_guards unit unit
                                  acceptingUpdates docId 2 3 1
                                  (lit "text"%string) tt)))).
    discriminate.
Defined.

Lemma highlightApostrophePhrase_needs_style_witness :
  (badColor noColor boldStyle = false
   /\ exists f, textArgGiven boldStyle f = true)
  /\ forall docs' : Docs unit unit,
       documents_get docs' = documents_get (serving doc_phrase) ->
       highlightApostrophePhrase noColor 30 docs' docId
         (lit "that's almost 20% more"%string) 1 noStyle tt
       = highlightApostrophePhrase noColor 30 (serving doc_phrase) docId
           (lit "that's almost 20% more"%string) 1 noStyle tt.
Proof.
  split.
  - apply (proj1 (highlightApostrophePhrase_needs_style unit unit noColor
                    (serving doc_phrase) docId
                    (lit "that's almost 20% more"%string) 1 boldStyle 30 tt) tt).
    vm_compute. reflexivity.
  - apply (proj2 (highlightApostrophePhrase_needs_style unit unit noColor
                    (serving doc_phrase) docId
                    (lit "that's almost 20% more"%string) 1 noStyle 30 tt)).
    right. intros f. destruct f; reflexivity.
Defined.
